(** * A shallow embedding of the recursive-descent front end ([parser.py])

    The development follows the source file top to bottom: Python strings,
    the token enumeration and the token table, the [Scanner] class, the AST
    classes with their two renderings, the grammar procedures and finally
    the module-level driver.  Everything is executable.

    Conventions.
    - A Python [str] is a [string]; its characters are the code points
      0..255.
    - The scanner object is a record that is threaded through every
      procedure (the source keeps it in the global [scanner]).
    - [sys.exit()] and uncaught exceptions end the run; a computation
      therefore returns an [Outcome]: a value with the new scanner, or an
      abort carrying the text printed just before it and the exception.
    - The grammar procedures are mutually recursive; they are defined by
      recursion on a depth bound ([fuel]).  More fuel never changes a
      result ([program_fuel]) and the bound the driver uses is always
      enough ([program_fuel_enough]), so no run ends for lack of fuel
      ([main_total]).
    - The interpreter limits the depth of recursion, and the source sets
      no limit of its own: on an input nested deep enough the Python
      procedures, and the rendering of a deep tree, end in
      [RecursionError].  That limit is not part of the embedding.  What
      is proved of a run that returns, prints or raises one of the
      exceptions of the code itself holds of the source as it stands;
      that a result is produced is proved with the depth of recursion
      it takes. *)

From Stdlib Require Import String Ascii List Arith Bool Lia.
Import ListNotations.
Open Scope string_scope.

(* ================================================================== *)
(** ** Python strings *)

Module Py.

(** [s[n:]] *)
Fixpoint slice_from (n : nat) (s : string) : string :=
  match n, s with
  | 0, _ => s
  | S _, EmptyString => EmptyString
  | S n', String _ s' => slice_from n' s'
  end.

(** [c.isspace()] for a [str] of one character in the range 0..255:
    the characters whose Unicode category is Zs or whose bidirectional
    class is WS, B or S. *)
Definition isspace (c : ascii) : bool :=
  let n := nat_of_ascii c in
  (((9 <=? n) && (n <=? 13)) || ((28 <=? n) && (n <=? 32))
   || (n =? 133) || (n =? 160))%nat.

(** [repr] of a [str] that holds no quote, no backslash and no
    non-printing character (token names and lexemes are such). *)
Definition repr_str (s : string) : string := "'" ++ s ++ "'".

(** [', '.join(l)] *)
Fixpoint join_comma (l : list string) : string :=
  match l with
  | [] => ""
  | [x] => x
  | x :: l' => x ++ ", " ++ join_comma l'
  end.

(** [repr] of a list of such strings. *)
Definition repr_list (l : list string) : string :=
  "[" ++ join_comma (map repr_str l) ++ "]".

(** The items of a [str] when it is iterated over: its characters, each a
    [str] of length one. *)
Fixpoint chars (s : string) : list string :=
  match s with
  | EmptyString => []
  | String c s' => String c EmptyString :: chars s'
  end.

(** Order of one-character strings: by code point. *)
Definition code (s : string) : nat :=
  match s with
  | String c _ => nat_of_ascii c
  | EmptyString => 0
  end.

Fixpoint insert_sorted (x : string) (l : list string) : list string :=
  match l with
  | [] => [x]
  | y :: l' =>
      if (code x <=? code y)%nat then x :: l else y :: insert_sorted x l'
  end.

(** [sorted(s)] for a [str] [s]: a stable sort of its characters. *)
Definition sorted_str (s : string) : list string :=
  fold_right insert_sorted [] (chars s).

(** ['    '*level + s + '\n'] is built from this. *)
Fixpoint repeat_str (s : string) (n : nat) : string :=
  match n with
  | 0 => ""
  | S n' => s ++ repeat_str s n'
  end.

Definition nl : string := String (ascii_of_nat 10) EmptyString.

End Py.

(* ================================================================== *)
(** ** class Token *)

Inductive Token : Set :=
| DO | ELSE | END | IF | THEN | WHILE | READ | WRITE
| SEM | BEC | LESS | EQ | GRTR | LEQ | NEQ | GEQ
| ADD | SUB | MUL | DIV | LPAR | RPAR | NUM | ID.

(** In the source every token is the string that spells its name. *)
Definition token_name (t : Token) : string :=
  match t with
  | DO => "DO" | ELSE => "ELSE" | END => "END" | IF => "IF"
  | THEN => "THEN" | WHILE => "WHILE" | READ => "READ" | WRITE => "WRITE"
  | SEM => "SEM" | BEC => "BEC" | LESS => "LESS" | EQ => "EQ"
  | GRTR => "GRTR" | LEQ => "LEQ" | NEQ => "NEQ" | GEQ => "GEQ"
  | ADD => "ADD" | SUB => "SUB" | MUL => "MUL" | DIV => "DIV"
  | LPAR => "LPAR" | RPAR => "RPAR" | NUM => "NUM" | ID => "ID"
  end.

Definition Token_eq_dec (a b : Token) : {a = b} + {a <> b}.
Proof. decide equality. Defined.

Definition Token_eqb (a b : Token) : bool :=
  if Token_eq_dec a b then true else false.

(** [found == t] where [found] may be [None]. *)
Definition is_token (found : option Token) (t : Token) : bool :=
  match found with
  | Some f => Token_eqb f t
  | None => false
  end.

(** [found in expected] where [found] may be [None]. *)
Definition token_in (found : option Token) (expected : list Token) : bool :=
  existsb (is_token found) expected.

(** [repr(found)] *)
Definition repr_token (found : option Token) : string :=
  match found with
  | Some t => Py.repr_str (token_name t)
  | None => "None"
  end.

(** The regular expressions of the token table have two shapes: a literal
    text (['do'], [':='], ['\\+'] for the text [+], ...) and a non-empty
    run of characters of one range (['[0-9]+'], ['[a-z]+']). *)
Inductive regexp : Set :=
| Lit (text : string)
| Plus (lo hi : ascii).

Definition in_range (lo hi c : ascii) : bool :=
  ((nat_of_ascii lo <=? nat_of_ascii c) &&
   (nat_of_ascii c <=? nat_of_ascii hi))%nat.

(** The longest run of characters of the range at the start of [s]. *)
Fixpoint run (lo hi : ascii) (s : string) : string :=
  match s with
  | String c s' => if in_range lo hi c then String c (run lo hi s') else ""
  | EmptyString => ""
  end.

(** [re.match(r, s)]: [None] when [r] does not match at the start of [s],
    else [match.group()], whose length is [match.end()]. *)
Definition re_match (r : regexp) (s : string) : option string :=
  match r with
  | Lit text => if String.prefix text s then Some text else None
  | Plus lo hi =>
      match run lo hi s with
      | EmptyString => None
      | m => Some m
      end
  end.

Definition token_regexp : list (Token * regexp) :=
  [ (DO,    Lit "do");
    (ELSE,  Lit "else");
    (END,   Lit "end");
    (IF,    Lit "if");
    (THEN,  Lit "then");
    (WHILE, Lit "while");
    (READ,  Lit "read");
    (WRITE, Lit "write");
    (SEM,   Lit ";");
    (BEC,   Lit ":=");
    (LESS,  Lit "<");
    (EQ,    Lit "=");
    (GRTR,  Lit ">");
    (LEQ,   Lit "<=");
    (NEQ,   Lit "!=");
    (GEQ,   Lit ">=");
    (ADD,   Lit "+");
    (SUB,   Lit "-");
    (MUL,   Lit "*");
    (DIV,   Lit "/");
    (LPAR,  Lit "(");
    (RPAR,  Lit ")");
    (NUM,   Plus "0" "9");
    (ID,    Plus "a" "z") ].

(* ================================================================== *)
(** ** Outcomes of a run *)

Inductive exn : Set :=
| SystemExit | TypeError | KeyError | IndexError | AttributeError.

(** The state of a [Scanner] object. *)
Record Scanner : Set := mkScanner {
  input_string : string;
  current_char_index : nat;
  current_token : option Token * string
}.

Inductive Outcome (A : Type) : Type :=
| Ok (v : A) (sc : Scanner)
| Abort (printed : string) (e : exn)
| OutOfFuel.

Arguments Ok {A} v sc.
Arguments Abort {A} printed e.
Arguments OutOfFuel {A}.

Definition M (A : Type) : Type := Scanner -> Outcome A.

Definition ret {A} (v : A) : M A := fun sc => Ok v sc.

Definition bind {A B} (c : M A) (k : A -> M B) : M B :=
  fun sc =>
    match c sc with
    | Ok v sc' => k v sc'
    | Abort printed e => Abort printed e
    | OutOfFuel => OutOfFuel
    end.

Definition raise {A} (e : exn) : M A := fun _ => Abort "" e.

(** [print(text); sys.exit()] *)
Definition print_and_exit {A} (text : string) : M A :=
  fun _ => Abort (text ++ Py.nl) SystemExit.

Declare Scope py_scope.
Delimit Scope py_scope with py.
Notation "x <- c ;; k" := (bind c (fun x => k))
  (at level 61, c at next level, right associativity) : py_scope.
Notation "c ;;; k" := (bind c (fun _ => k))
  (at level 61, right associativity) : py_scope.
Open Scope py_scope.

(* ================================================================== *)
(** ** class Scanner *)

(** The loop of [skip_white_space]; [rest] is
    [input_string[current_char_index:]] and [i] is [current_char_index]. *)
Fixpoint skip_loop (rest : string) (i : nat) : nat :=
  match rest with
  | EmptyString => i
  | String c rest' => if Py.isspace c then skip_loop rest' (i + 1) else i
  end.

Definition skip_white_space (sc : Scanner) : Scanner :=
  mkScanner (input_string sc)
    (skip_loop (Py.slice_from (current_char_index sc) (input_string sc))
               (current_char_index sc))
    (current_token sc).

Definition no_token {A} : M A := fun sc =>
  print_and_exit
    ("lexical error: no token found at the start of " ++
     Py.slice_from (current_char_index sc) (input_string sc)) sc.

(** The [for] loop of [get_token] over a token table; [acc] is the pair
    [(token, longest)]. *)
Fixpoint scan_table (table : list (Token * regexp)) (rest : string)
    (acc : option Token * string) : option Token * string :=
  match table with
  | [] => acc
  | (t, r) :: table' =>
      scan_table table' rest
        match re_match r rest with
        | Some m =>
            if (String.length (snd acc) <? String.length m)%nat
            then (Some t, m)
            else acc
        | None => acc
        end
  end.

Definition is_None {A} (o : option A) : bool :=
  match o with None => true | Some _ => false end.

Definition get_token : M (option Token * string) := fun sc0 =>
  let sc := skip_white_space sc0 in
  let rest := Py.slice_from (current_char_index sc) (input_string sc) in
  let '(token, longest) := scan_table token_regexp rest (None, "") in
  ((if is_None token && (longest =? "") then
      if (current_char_index sc <?
          String.length (input_string sc) - String.length longest)%nat
      then no_token
      else ret tt
    else ret tt) ;;;
   fun sc => Ok (token, longest)
     (mkScanner (input_string sc)
        (current_char_index sc + String.length longest) (current_token sc))) sc.

(** [Scanner(input_file)] where reading [input_file] gives [text].  The
    attribute [current_token] is first set by this call of [get_token],
    which does not read it. *)
Definition Scanner_init (text : string) : Outcome unit :=
  (tok <- get_token ;;
   fun sc => Ok tt (mkScanner (input_string sc) (current_char_index sc) tok))
  (mkScanner text 0 (None, "")).

Definition lookahead (sc : Scanner) : option Token := fst (current_token sc).

(** [unexpected_token(self, found_token, expected_tokens)]; in the only
    call the argument bound to [expected_tokens] is a [str]. *)
Definition unexpected_token {A} (found_token : option Token)
    (expected_tokens : string) : M A :=
  print_and_exit
    ("syntax error: token in " ++
     Py.repr_list (Py.sorted_str expected_tokens) ++
     " expected but " ++ repr_token found_token ++ " found").

(** The call [self.unexpected_token(token, *expected_tokens)]: the
    expected tokens are unpacked into positional arguments, and the method
    takes exactly one after [found_token]. *)
Definition call_unexpected_token {A} (token : option Token)
    (args : list Token) : M A :=
  match args with
  | [e] => unexpected_token token (token_name e)
  | _ => raise TypeError
  end.

(** What [consume] returns: the token, or the pair of the token and its
    value. *)
Inductive consumed : Set :=
| Tok (t : option Token)
| TokVal (t : Token) (longest : string).

Definition consume (expected_tokens : list Token) : M consumed := fun sc =>
  let '(token, longest) := current_token sc in
  if token_in token expected_tokens then
    (tok <- get_token ;;
     fun sc' =>
       let sc'' := mkScanner (input_string sc') (current_char_index sc') tok in
       match token with
       | Some ID => Ok (TokVal ID longest) sc''
       | Some NUM => Ok (TokVal NUM longest) sc''
       | _ => Ok (Tok token) sc''
       end) sc
  else call_unexpected_token token expected_tokens sc.

(* ================================================================== *)
(** ** The AST classes *)

(** Pure code that may raise. *)
Inductive res (A : Type) : Type :=
| Val (v : A)
| Exc (e : exn).

Arguments Val {A} v.
Arguments Exc {A} e.

Definition rbind {A B} (r : res A) (k : A -> res B) : res B :=
  match r with
  | Val v => k v
  | Exc e => Exc e
  end.

Notation "x <~ r ;; k" := (rbind r (fun x => k))
  (at level 61, r at next level, right associativity) : py_scope.

Definition lift {A} (r : res A) : M A := fun sc =>
  match r with
  | Val v => Ok v sc
  | Exc e => Abort "" e
  end.

(** The objects the grammar procedures can return: an instance of one of
    the AST classes, [None] (a procedure that ends without [return]), or
    what [consume] returns (a [str] or a pair of two). *)
#[local] Set Warnings "-register-all".

Inductive obj : Set :=
| PyNone
| PyStr (s : string)
| PyTuple (a b : string)
| Program_AST (program : obj)
| Statements_AST (statements : list obj)
| If_Else_AST (condition then_ again : obj)
| If_AST (condition then_ : obj)
| While_AST (condition body : obj)
| Assign_AST (identifier expression : obj)
| Write_AST (expression : obj)
| Read_AST (identifier : obj)
| Comparison_AST (left : obj) (op : string) (right : obj)
| Expression_AST (left : obj) (op : string) (right : obj)
| Number_AST (number : string)
| Identifier_AST (identifier : string).

Definition indent (s : string) (level : nat) : string :=
  Py.repeat_str "    " level ++ s ++ Py.nl.

(** [repr(o)], that is [o.__repr__()]. *)
Fixpoint repr (o : obj) : res string :=
  match o with
  | PyNone => Val "None"
  | PyStr s => Val (Py.repr_str s)
  | PyTuple a b => Val ("(" ++ Py.repr_str a ++ ", " ++ Py.repr_str b ++ ")")
  | Program_AST program => repr program
  | Statements_AST statements =>
      match statements with
      | [] => Exc IndexError
      | st0 :: rest =>
          r0 <~ repr st0 ;;
          (fix loop (l : list obj) (result : string) : res string :=
             match l with
             | [] => Val result
             | st :: l' => r <~ repr st ;; loop l' (result ++ "; " ++ r)
             end) rest r0
      end
  | If_Else_AST condition then_ again =>
      c <~ repr condition ;; t <~ repr then_ ;; a <~ repr again ;;
      Val ("if " ++ c ++ " then " ++ t ++ " else " ++ a ++ "end")
  | If_AST condition then_ =>
      c <~ repr condition ;; t <~ repr then_ ;;
      Val ("if " ++ c ++ " then " ++ t ++ " end")
  | While_AST condition body =>
      c <~ repr condition ;; b <~ repr body ;;
      Val ("while " ++ c ++ " do " ++ b ++ " end")
  | Assign_AST identifier expression =>
      i <~ repr identifier ;; e <~ repr expression ;;
      Val (i ++ ":=" ++ e)
  | Write_AST expression =>
      e <~ repr expression ;; Val ("write " ++ e)
  | Read_AST identifier =>
      i <~ repr identifier ;; Val ("read " ++ i)
  | Comparison_AST left_ op right_ =>
      l <~ repr left_ ;; r <~ repr right_ ;; Val (l ++ op ++ r)
  | Expression_AST left_ op right_ =>
      l <~ repr left_ ;; r <~ repr right_ ;; Val ("(" ++ l ++ op ++ r ++ ")")
  | Number_AST number => Val number
  | Identifier_AST identifier => Val identifier
  end.

(** [o.indented(level)]; [None], a [str] and a tuple have no such
    attribute. *)
Fixpoint indented (o : obj) (level : nat) : res string :=
  match o with
  | PyNone | PyStr _ | PyTuple _ _ => Exc AttributeError
  | Program_AST program => indented program level
  | Statements_AST statements =>
      (fix loop (l : list obj) (result : string) : res string :=
         match l with
         | [] => Val result
         | st :: l' => r <~ indented st (level + 1) ;; loop l' (result ++ r)
         end) statements (indent "Statements" level)
  | If_Else_AST condition then_ again =>
      c <~ indented condition (level + 1) ;;
      t <~ indented then_ (level + 1) ;;
      a <~ indented again (level + 1) ;;
      Val (indent "If-Else" level ++ c ++ t ++ a)
  | If_AST condition then_ =>
      c <~ indented condition (level + 1) ;;
      t <~ indented then_ (level + 1) ;;
      Val (indent "If" level ++ c ++ t)
  | While_AST condition body =>
      c <~ indented condition (level + 1) ;;
      b <~ indented body (level + 1) ;;
      Val (indent "While" level ++ c ++ b)
  | Assign_AST identifier expression =>
      i <~ indented identifier (level + 1) ;;
      e <~ indented expression (level + 1) ;;
      Val (indent "Assign" level ++ i ++ e)
  | Write_AST expression =>
      e <~ indented expression (level + 1) ;;
      Val (indent "Write" level ++ e)
  | Read_AST identifier =>
      i <~ indented identifier (level + 1) ;;
      Val (indent "Read" level ++ i)
  | Comparison_AST left_ op right_ =>
      l <~ indented left_ (level + 1) ;;
      r <~ indented right_ (level + 1) ;;
      Val (indent op level ++ l ++ r)
  | Expression_AST left_ op right_ =>
      l <~ indented left_ (level + 1) ;;
      r <~ indented right_ (level + 1) ;;
      Val (indent op level ++ l ++ r)
  | Number_AST number => Val (indent number level)
  | Identifier_AST identifier => Val (indent identifier level)
  end.

(* ================================================================== *)
(** ** The recursive-descent parser *)

Definition out_of_fuel {A} : M A := fun _ => OutOfFuel.

(** A value returned by [consume], as an object. *)
Definition obj_of_consumed (c : consumed) : obj :=
  match c with
  | Tok None => PyNone
  | Tok (Some t) => PyStr (token_name t)
  | TokVal t longest => PyTuple (token_name t) longest
  end.

(** [c[1]] for a value [c] returned by [consume]. *)
Definition getitem1 (c : consumed) : res string :=
  match c with
  | TokVal _ longest => Val longest
  | Tok (Some t) =>
      match token_name t with
      | String _ (String c1 _) => Val (String c1 EmptyString)
      | _ => Exc IndexError
      end
  | Tok None => Exc TypeError
  end.

(** [operator[op]] *)
Definition operator (op : consumed) : res string :=
  match op with
  | Tok (Some LESS) => Val "<"
  | Tok (Some EQ) => Val "="
  | Tok (Some GRTR) => Val ">"
  | Tok (Some LEQ) => Val "<="
  | Tok (Some NEQ) => Val "!="
  | Tok (Some GEQ) => Val ">="
  | Tok (Some ADD) => Val "+"
  | Tok (Some SUB) => Val "-"
  | Tok (Some MUL) => Val "*"
  | Tok (Some DIV) => Val "/"
  | _ => Exc KeyError
  end.

Definition identifier : M obj :=
  c <- consume [ID] ;;
  value <- lift (getitem1 c) ;;
  ret (Identifier_AST value).

Fixpoint expression (fuel : nat) : M obj :=
  match fuel with
  | 0 => out_of_fuel
  | S fuel =>
      result <- term fuel ;;
      expression_loop fuel result
  end

with expression_loop (fuel : nat) (result : obj) : M obj :=
  match fuel with
  | 0 => out_of_fuel
  | S fuel => fun sc =>
      if token_in (lookahead sc) [ADD; SUB] then
        (op <- consume [ADD; SUB] ;;
         tree <- term fuel ;;
         sym <- lift (operator op) ;;
         expression_loop fuel (Expression_AST result sym tree)) sc
      else ret result sc
  end

with term (fuel : nat) : M obj :=
  match fuel with
  | 0 => out_of_fuel
  | S fuel =>
      result <- factor fuel ;;
      term_loop fuel result
  end

with term_loop (fuel : nat) (result : obj) : M obj :=
  match fuel with
  | 0 => out_of_fuel
  | S fuel => fun sc =>
      if token_in (lookahead sc) [MUL; DIV] then
        (op <- consume [MUL; DIV] ;;
         tree <- factor fuel ;;
         sym <- lift (operator op) ;;
         term_loop fuel (Expression_AST result sym tree)) sc
      else ret result sc
  end

with factor (fuel : nat) : M obj :=
  match fuel with
  | 0 => out_of_fuel
  | S fuel => fun sc =>
      if is_token (lookahead sc) LPAR then
        (consume [LPAR] ;;;
         result <- expression fuel ;;
         consume [RPAR] ;;;
         ret result) sc
      else if is_token (lookahead sc) NUM then
        (c <- consume [NUM] ;;
         value <- lift (getitem1 c) ;;
         ret (Number_AST value)) sc
      else if is_token (lookahead sc) ID then
        identifier sc
      else
        (c <- consume [LPAR; NUM; ID] ;;
         ret (obj_of_consumed c)) sc
  end.

Definition comparison (fuel : nat) : M obj :=
  left_ <- expression fuel ;;
  op <- consume [LESS; EQ; GRTR; LEQ; NEQ; GEQ] ;;
  right_ <- expression fuel ;;
  sym <- lift (operator op) ;;
  ret (Comparison_AST left_ sym right_).

Definition assignment (fuel : nat) : M obj :=
  ident <- identifier ;;
  consume [BEC] ;;;
  expr <- expression fuel ;;
  ret (Assign_AST ident expr).

Definition read : M obj :=
  consume [READ] ;;;
  ident <- identifier ;;
  ret (Read_AST ident).

Definition write (fuel : nat) : M obj :=
  consume [WRITE] ;;;
  expr <- expression fuel ;;
  ret (Write_AST expr).

Fixpoint statements (fuel : nat) : M obj :=
  match fuel with
  | 0 => out_of_fuel
  | S fuel =>
      st <- statement fuel ;;
      statements_loop fuel [st]
  end

with statements_loop (fuel : nat) (result : list obj) : M obj :=
  match fuel with
  | 0 => out_of_fuel
  | S fuel => fun sc =>
      if is_token (lookahead sc) SEM then
        (consume [SEM] ;;;
         st <- statement fuel ;;
         statements_loop fuel (result ++ [st])) sc
      else ret (Statements_AST result) sc
  end

with statement (fuel : nat) : M obj :=
  match fuel with
  | 0 => out_of_fuel
  | S fuel => fun sc =>
      if is_token (lookahead sc) IF then if_statement fuel sc
      else if is_token (lookahead sc) WHILE then while_statement fuel sc
      else if is_token (lookahead sc) ID then assignment fuel sc
      else if is_token (lookahead sc) READ then read sc
      else if is_token (lookahead sc) WRITE then write fuel sc
      else
        (c <- consume [IF; WHILE; ID] ;;
         ret (obj_of_consumed c)) sc
  end

with if_statement (fuel : nat) : M obj :=
  match fuel with
  | 0 => out_of_fuel
  | S fuel =>
      consume [IF] ;;;
      condition <- comparison fuel ;;
      consume [THEN] ;;;
      then_ <- statements fuel ;;
      fun sc =>
        if is_token (lookahead sc) ELSE then
          (consume [ELSE] ;;;
           again <- statements fuel ;;
           consume [END] ;;;
           ret (If_Else_AST condition then_ again)) sc
        else if is_token (lookahead sc) END then
          (consume [END] ;;;
           ret (If_AST condition then_)) sc
        else ret PyNone sc
  end

with while_statement (fuel : nat) : M obj :=
  match fuel with
  | 0 => out_of_fuel
  | S fuel =>
      consume [WHILE] ;;;
      condition <- comparison fuel ;;
      consume [DO] ;;;
      body <- statements fuel ;;
      consume [END] ;;;
      ret (While_AST condition body)
  end.

Definition program (fuel : nat) : M obj :=
  sts <- statements fuel ;;
  ret (Program_AST sts).

(* ================================================================== *)
(** ** The module-level driver *)

(** How a run of the program ends: normally, with the text printed; by
    [sys.exit()] or an uncaught exception, with the text printed before.
    [Diverged] stands for a parser out of fuel, which [main_total]
    excludes. *)
Inductive Run : Set :=
| Finished (printed : string)
| Died (printed : string) (e : exn)
| Diverged.

(** A bound on the nesting depth of the grammar procedures on [text]. *)
Definition fuel_for (text : string) : nat := 16 * String.length text + 16.

(** [run_parser fuel sc] is the code from [ast = program()] on. *)
Definition run_parser (fuel : nat) (scanner : Scanner) : Run :=
  match program fuel scanner with
  | Ok ast scanner =>
      if negb (is_None (lookahead scanner)) then
        (* print(...); sys.exit() *)
        Died (("syntax error: end of input expected but token " ++
               repr_token (lookahead scanner) ++ " found") ++ Py.nl)
          SystemExit
      else
        match indented ast 0 with
        | Val text => Finished text
        | Exc e => Died "" e
        end
  | Abort printed e => Died printed e
  | OutOfFuel => Diverged
  end.

(** The whole program on the standard input [text]. *)
Definition main (text : string) : Run :=
  match Scanner_init text with
  | Ok _ scanner => run_parser (fuel_for text) scanner
  | Abort printed e => Died printed e
  | OutOfFuel => Diverged
  end.

(** The scanner after its construction on [text], as the first grammar
    procedure that is called finds it. *)
Definition scanner_on (text : string) : Scanner :=
  match Scanner_init text with
  | Ok _ sc => sc
  | _ => mkScanner text 0 (None, "")
  end.

(* ================================================================== *)
(** ** The token dump ([scanner.py]) *)

(** [scanner.py] has the classes [Scanner] and [Token] of [parser.py]
    and, in place of the parser, a loop that shows all tokens.  Unpacking
    a value into two names can raise [ValueError]. *)
Inductive dump_exn : Set :=
| Raised (e : exn)
| ValueError.

(** How a run of [scanner.py] ends; [Unfinished] stands for a loop out of
    fuel. *)
Inductive Dump : Set :=
| Dumped (printed : string)
| Stopped (printed : string) (e : dump_exn)
| Unfinished.

(** [token, value = c] for a value [c] returned by [consume]: a pair is
    taken apart, a [str] of two characters too, [None] is not iterable. *)
Definition unpack_pair (c : consumed) : (string * string) + dump_exn :=
  match c with
  | TokVal t longest => inl (token_name t, longest)
  | Tok (Some t) =>
      match token_name t with
      | String a (String b EmptyString) =>
          inl (String a EmptyString, String b EmptyString)
      | _ => inr ValueError
      end
  | Tok None => inr (Raised TypeError)
  end.

(** [str(c)], as [print(c)] shows a value [c] returned by [consume]. *)
Definition str_consumed (c : consumed) : string :=
  match c with
  | Tok (Some t) => token_name t
  | Tok None => "None"
  | TokVal t longest =>
      "(" ++ Py.repr_str (token_name t) ++ ", " ++ Py.repr_str longest ++ ")"
  end.

(** The loop [while token != None]; [printed] is what was printed so
    far. *)
Fixpoint show_tokens (fuel : nat) (printed : string) (scanner : Scanner)
    : Dump :=
  match fuel with
  | 0 => Unfinished
  | S fuel =>
      match lookahead scanner with
      | None => Dumped printed
      | Some token =>
          if token_in (Some token) [NUM; ID] then
            match consume [token] scanner with
            | Ok c scanner' =>
                match unpack_pair c with
                | inl (token', value) =>
                    show_tokens fuel
                      (printed ++ token' ++ " " ++ value ++ Py.nl) scanner'
                | inr e => Stopped printed e
                end
            | Abort out e => Stopped (printed ++ out) (Raised e)
            | OutOfFuel => Unfinished
            end
          else
            match consume [token] scanner with
            | Ok c scanner' =>
                show_tokens fuel (printed ++ str_consumed c ++ Py.nl) scanner'
            | Abort out e => Stopped (printed ++ out) (Raised e)
            | OutOfFuel => Unfinished
            end
      end
  end.

(** The whole of [scanner.py] on the standard input [text]. *)
Definition scanner_main (text : string) : Dump :=
  match Scanner_init text with
  | Ok _ scanner => show_tokens (S (String.length text)) "" scanner
  | Abort out e => Stopped out (Raised e)
  | OutOfFuel => Unfinished
  end.

(* ================================================================== *)
(** ** The reserved words of the PLY scanner ([ply_scanner.py]) *)

(** The dictionary [reserved]. *)
Definition reserved : list (string * string) :=
  [ ("do", "DO");
    ("else", "ELSE");
    ("end", "END");
    ("if", "IF");
    ("then", "THEN");
    ("while", "WHILE");
    ("read", "READ");
    ("write", "WRITE") ].

(** [d.get(key)] for a dictionary with [str] keys. *)
Fixpoint dict_get (key : string) (d : list (string * string))
    : option string :=
  match d with
  | [] => None
  | (k, v) :: d' => if String.eqb k key then Some v else dict_get key d'
  end.

(** The type [t_ID] gives to a token whose value, a match of [[a-z]+], is
    [value]. *)
Definition t_ID (value : string) : string :=
  match dict_get value reserved with
  | Some type => type
  | None => "ID"
  end.

(* ================================================================== *)
(** ** Predicates used in the statements below *)

(** The matching policy in the words of the design: among all entries of
    the table that match at the start of [rest], [sel] is the one with the
    greatest length and, among those of that length, the earliest.  When
    no entry has a non-empty match, [sel] is [(None, '')]. *)
Definition maximal_munch (table : list (Token * regexp)) (rest : string)
    (sel : option Token * string) : Prop :=
  match fst sel with
  | Some t =>
      exists i r,
        nth_error table i = Some (t, r) /\
        re_match r rest = Some (snd sel) /\
        forall j t' r' m',
          nth_error table j = Some (t', r') -> re_match r' rest = Some m' ->
          String.length m' <= String.length (snd sel) /\
          (String.length m' = String.length (snd sel) -> i <= j)
  | None =>
      snd sel = "" /\
      forall j t' r' m',
        nth_error table j = Some (t', r') -> re_match r' rest = Some m' ->
        m' = ""
  end.

(** The text that [get_token] scans: the input from the index reached by
    [skip_white_space]. *)
Definition text_at_cursor (sc : Scanner) : string :=
  Py.slice_from (current_char_index (skip_white_space sc)) (input_string sc).

(** No entry of the token table matches at the start of [rest]. *)
Definition no_entry_matches (rest : string) : Prop :=
  forall t r, In (t, r) token_regexp -> re_match r rest = None.

(** The index lies inside the input. *)
Definition in_bounds (sc : Scanner) : Prop :=
  current_char_index sc <= String.length (input_string sc).

(** What is left to parse: the characters after the index, and the
    buffered token when there is one. *)
Definition remaining (sc : Scanner) : nat :=
  String.length (input_string sc) - current_char_index sc +
  (if is_None (lookahead sc) then 0 else 1).

(** [holds oof r Q]: the outcome [r] is an abort, or a value and a scanner
    that satisfy [Q]; [oof] says whether running out of fuel is
    acceptable.  [wp oof c sc Q] says so of running [c] from [sc]. *)
Definition holds {A} (oof : Prop) (r : Outcome A)
    (Q : A -> Scanner -> Prop) : Prop :=
  match r with
  | Ok v sc' => Q v sc'
  | Abort _ _ => True
  | OutOfFuel => oof
  end.

Definition wp {A} (oof : Prop) (c : M A) (sc : Scanner)
    (Q : A -> Scanner -> Prop) : Prop :=
  holds oof (c sc) Q.

(** [advanced k sc] relates [sc] to a later scanner on the same input
    that has at least [k] less left to parse. *)
Definition advanced {A} (k : nat) (sc : Scanner) : A -> Scanner -> Prop :=
  fun _ sc' =>
    in_bounds sc' /\ input_string sc' = input_string sc /\
    remaining sc' + k <= remaining sc.

(** [r1] is [r2], or the run that gave [r1] ran out of fuel. *)
Definition refines {A} (r1 r2 : Outcome A) : Prop :=
  r1 = OutOfFuel \/ r1 = r2.

(** Every [Statements_AST] node in [o] holds at least one entry. *)
Fixpoint statements_nonempty (o : obj) : bool :=
  match o with
  | PyNone | PyStr _ | PyTuple _ _ | Number_AST _ | Identifier_AST _ => true
  | Program_AST program => statements_nonempty program
  | Statements_AST statements =>
      negb (Nat.eqb (List.length statements) 0) &&
      forallb statements_nonempty statements
  | If_Else_AST condition then_ again =>
      statements_nonempty condition && statements_nonempty then_ &&
      statements_nonempty again
  | If_AST condition then_ =>
      statements_nonempty condition && statements_nonempty then_
  | While_AST condition body =>
      statements_nonempty condition && statements_nonempty body
  | Assign_AST identifier expression =>
      statements_nonempty identifier && statements_nonempty expression
  | Write_AST expression => statements_nonempty expression
  | Read_AST identifier => statements_nonempty identifier
  | Comparison_AST left_ _ right_ | Expression_AST left_ _ right_ =>
      statements_nonempty left_ && statements_nonempty right_
  end.

(** What [statements] returns: a [Statements_AST] with a first entry,
    and below it only such nodes. *)
Definition nonempty_node (v : obj) : Prop :=
  (exists st rest, v = Statements_AST (st :: rest)) /\
  statements_nonempty v = true.

(** The scanner states a client of the interface can observe: the state
    after construction, and the state after a call of [consume] that
    returned. *)
Inductive reachable (text : string) : Scanner -> Prop :=
| reach_init sc :
    Scanner_init text = Ok tt sc -> reachable text sc
| reach_consume sc expected_tokens v sc' :
    reachable text sc -> consume expected_tokens sc = Ok v sc' ->
    reachable text sc'.

(** The scanner put back to where the buffered token starts. *)
Definition rewind (sc : Scanner) : Scanner :=
  mkScanner (input_string sc)
    (current_char_index sc - String.length (snd (current_token sc)))
    (current_token sc).

(** Every character of [s] lies in the range from [lo] to [hi]. *)
Fixpoint all_in_range (lo hi : ascii) (s : string) : bool :=
  match s with
  | EmptyString => true
  | String c s' => in_range lo hi c && all_in_range lo hi s'
  end.

(** [text] is the literal text of an entry of the token table (a keyword
    or a symbol). *)
Definition is_literal (text : string) : Prop :=
  exists t, In (t, Lit text) token_regexp.

(** [consumes n sc sc']: [n] calls of [consume] in a row, each of which
    returned, lead from [sc] to [sc']. *)
Inductive consumes : nat -> Scanner -> Scanner -> Prop :=
| consumes_O sc : consumes 0 sc sc
| consumes_S n sc expected_tokens v sc1 sc2 :
    consume expected_tokens sc = Ok v sc1 ->
    consumes n sc1 sc2 ->
    consumes (S n) sc sc2.

(** Every character of [s] is white space. *)
Fixpoint all_space (s : string) : bool :=
  match s with
  | EmptyString => true
  | String c s' => Py.isspace c && all_space s'
  end.

(** [s] starts with a white-space character. *)
Definition starts_with_space (s : string) : bool :=
  match s with
  | EmptyString => false
  | String c _ => Py.isspace c
  end.

(** The buffered token of [sc] and the tokens after it up to the end of
    the input, each with its text; [None] when a lexical error lies
    ahead. *)
Fixpoint tokens_from (fuel : nat) (sc : Scanner)
    : option (list (Token * string)) :=
  match fuel with
  | 0 => None
  | S fuel =>
      match current_token sc with
      | (None, _) => Some []
      | (Some t, m) =>
          match get_token sc with
          | Ok tok sc' =>
              option_map (cons (t, m))
                (tokens_from fuel
                   (mkScanner (input_string sc') (current_char_index sc') tok))
          | _ => None
          end
      end
  end.

(** The tokens of [text]. *)
Definition tokens (text : string) : option (list (Token * string)) :=
  match Scanner_init text with
  | Ok _ sc => tokens_from (S (String.length text)) sc
  | _ => None
  end.

(** Two scanners see the same tokens from here to the end of their
    inputs, and no lexical error. *)
Inductive same_tokens : Scanner -> Scanner -> Prop :=
| same_end sc1 sc2 :
    lookahead sc1 = None -> lookahead sc2 = None -> same_tokens sc1 sc2
| same_next sc1 sc2 tok sc1' sc2' :
    lookahead sc1 <> None ->
    current_token sc1 = current_token sc2 ->
    get_token sc1 = Ok tok sc1' ->
    get_token sc2 = Ok tok sc2' ->
    same_tokens
      (mkScanner (input_string sc1') (current_char_index sc1') tok)
      (mkScanner (input_string sc2') (current_char_index sc2') tok) ->
    same_tokens sc1 sc2.

(** Two outcomes agree: the same value with scanners that see the same
    tokens, or the same abort. *)
Definition agree {A} (r1 r2 : Outcome A) : Prop :=
  match r1, r2 with
  | Ok v1 sc1, Ok v2 sc2 => v1 = v2 /\ same_tokens sc1 sc2
  | Abort printed1 e1, Abort printed2 e2 => printed1 = printed2 /\ e1 = e2
  | OutOfFuel, OutOfFuel => True
  | _, _ => False
  end.

(** The line that shows a token: its name, and its text when it is a
    number or an identifier. *)
Definition token_line (tm : Token * string) : string :=
  match fst tm with
  | NUM | ID => token_name (fst tm) ++ " " ++ snd tm ++ Py.nl
  | _ => token_name (fst tm) ++ Py.nl
  end.

Fixpoint token_lines (l : list (Token * string)) : string :=
  match l with
  | [] => ""
  | tm :: l' => token_line tm ++ token_lines l'
  end.

(** [m] is the literal text of an entry of the token table, as a test. *)
Definition literal_text (m : string) : bool :=
  existsb (fun tr => match snd tr with
                     | Lit text => String.eqb text m
                     | Plus _ _ => false
                     end) token_regexp.

(** The texts of the data model: a number is a non-empty run of digits, a
    name a non-empty run of lower-case letters that is no keyword. *)
Definition is_number (n : string) : bool :=
  negb (String.eqb n "") && all_in_range "0" "9" n.

Definition is_name (w : string) : bool :=
  negb (String.eqb w "") && all_in_range "a" "z" w && negb (literal_text w).

Definition is_arith (op : string) : bool :=
  existsb (String.eqb op) ["+"; "-"; "*"; "/"].

Definition is_relation (op : string) : bool :=
  existsb (String.eqb op) ["<"; "="; ">"; "<="; "!="; ">="].

(** The trees of the data model. *)
Fixpoint is_expression (o : obj) : bool :=
  match o with
  | Number_AST number => is_number number
  | Identifier_AST identifier => is_name identifier
  | Expression_AST left_ op right_ =>
      is_arith op && is_expression left_ && is_expression right_
  | _ => false
  end.

Definition is_identifier (o : obj) : bool :=
  match o with
  | Identifier_AST identifier => is_name identifier
  | _ => false
  end.

Definition is_comparison (o : obj) : bool :=
  match o with
  | Comparison_AST left_ op right_ =>
      is_relation op && is_expression left_ && is_expression right_
  | _ => false
  end.

(** A statement; unless [strict], [None] counts as one (an [if] that
    found neither [ELSE] nor [END] returns it). *)
Fixpoint is_statement (strict : bool) (o : obj) : bool :=
  match o with
  | PyNone => negb strict
  | If_Else_AST condition then_ again =>
      is_comparison condition &&
      match then_ with
      | Statements_AST l =>
          negb (Nat.eqb (List.length l) 0) && forallb (is_statement strict) l
      | _ => false
      end &&
      match again with
      | Statements_AST l =>
          negb (Nat.eqb (List.length l) 0) && forallb (is_statement strict) l
      | _ => false
      end
  | If_AST condition then_ =>
      is_comparison condition &&
      match then_ with
      | Statements_AST l =>
          negb (Nat.eqb (List.length l) 0) && forallb (is_statement strict) l
      | _ => false
      end
  | While_AST condition body =>
      is_comparison condition &&
      match body with
      | Statements_AST l =>
          negb (Nat.eqb (List.length l) 0) && forallb (is_statement strict) l
      | _ => false
      end
  | Assign_AST identifier expression =>
      is_identifier identifier && is_expression expression
  | Write_AST expression => is_expression expression
  | Read_AST identifier => is_identifier identifier
  | _ => false
  end.

Definition is_statements (strict : bool) (o : obj) : bool :=
  match o with
  | Statements_AST l =>
      negb (Nat.eqb (List.length l) 0) && forallb (is_statement strict) l
  | _ => false
  end.

Definition is_program (strict : bool) (o : obj) : bool :=
  match o with
  | Program_AST program => is_statements strict program
  | _ => false
  end.

(** The buffered token has a text of its kind. *)
Definition buffer_ok (sc : Scanner) : Prop :=
  match current_token sc with
  | (Some NUM, m) => is_number m = true
  | (Some ID, m) => is_name m = true
  | _ => True
  end.

(** What [consume] can return when it was called with [expected]. *)
Definition returned (expected : list Token) (v : consumed) : Prop :=
  match v with
  | TokVal NUM m => In NUM expected /\ is_number m = true
  | TokVal ID m => In ID expected /\ is_name m = true
  | Tok (Some t) => In t expected /\ t <> NUM /\ t <> ID
  | _ => False
  end.

(** The messages the program prints before [sys.exit()]: the lexical
    error with the rest of the input, the syntax error of
    [unexpected_token] in the only call that reaches its [print] (one
    expected token, whose name is iterated over and sorted), and the
    syntax error of the driver at input left over. *)
Definition error_message (printed : string) : Prop :=
  (exists rest,
     printed = "lexical error: no token found at the start of " ++
               rest ++ Py.nl) \/
  (exists found expected,
     printed = ("syntax error: token in " ++
                Py.repr_list (Py.sorted_str (token_name expected)) ++
                " expected but " ++ repr_token found ++ " found") ++ Py.nl) \/
  (exists t,
     printed = ("syntax error: end of input expected but token " ++
                repr_token (Some t) ++ " found") ++ Py.nl).

(** The ways a run of the parser ends early: [sys.exit()] after one of
    the messages, or the [TypeError] of a call with too many arguments,
    before anything is printed. *)
Definition expected_abort (printed : string) (e : exn) : Prop :=
  (e = SystemExit /\ error_message printed) \/
  (e = TypeError /\ printed = "").

(** [ends Q r]: the outcome [r] is a value and a scanner that satisfy
    [Q], or one of the expected aborts. *)
Definition ends {A} (Q : A -> Scanner -> Prop) (r : Outcome A) : Prop :=
  match r with
  | Ok v sc => Q v sc
  | Abort printed e => expected_abort printed e
  | OutOfFuel => True
  end.

(** [renders shape r]: a rendering [r] of a tree that may hold [None]
    statements is a text when it holds none ([shape] is [true]), and
    [AttributeError] when it holds one. *)
Definition renders (shape : bool) (r : res string) : Prop :=
  (shape = true /\ exists out, r = Val out) \/
  (shape = false /\ r = Exc AttributeError).

(** [s] starts with a character of the range. *)
Definition starts_in_range (lo hi : ascii) (s : string) : bool :=
  match s with
  | EmptyString => false
  | String c _ => in_range lo hi c
  end.

(** The scanner after its construction, had the input started at the
    index [p] of [text]. *)
Definition scanner_at (text : string) (p : nat) : Scanner :=
  match get_token (mkScanner text p (None, "")) with
  | Ok tok sc => mkScanner text (current_char_index sc) tok
  | _ => mkScanner text p (None, "")
  end.

(** [scans input p tok m q]: from the index [p] of [input], [get_token]
    returns the token [tok] with the text [m] and moves the index to [q],
    whatever token is buffered. *)
Definition scans (input : string) (p : nat) (tok : option Token)
    (m : string) (q : nat) : Prop :=
  forall c, get_token (mkScanner input p c) =
            Ok (tok, m) (mkScanner input q c).

(** The text [post] that follows an expression ends it: it is empty, or
    it starts with a closing parenthesis or an arithmetic operator. *)
Definition delimited (post : string) : bool :=
  match post with
  | EmptyString => true
  | String c _ =>
      existsb (Ascii.eqb c) [")"; "+"; "-"; "*"; "/"]%char
  end.

(** [s] without its white-space characters. *)
Fixpoint strip_space (s : string) : string :=
  match s with
  | EmptyString => ""
  | String c s' =>
      if Py.isspace c then strip_space s' else String c (strip_space s')
  end.

(** The texts of the tokens of a list, one after the other. *)
Fixpoint token_texts (l : list (Token * string)) : string :=
  match l with
  | [] => ""
  | (_, m) :: l' => m ++ token_texts l'
  end.

(** The token stream from [sc]: the buffered token and those after it,
    up to the end of the input. *)
Definition stream (sc : Scanner) (l : list (Token * string)) : Prop :=
  exists fuel, tokens_from fuel sc = Some l.

(** A token as [consume] returns it: with its text when it is a number
    or an identifier. *)
Definition seen (tm : Token * string) : consumed :=
  match fst tm with
  | ID => TokVal ID (snd tm)
  | NUM => TokVal NUM (snd tm)
  | t => Tok (Some t)
  end.

(** The tokens of a list other than parentheses, as [consume] returns
    them. *)
Definition pending (l : list (Token * string)) : list consumed :=
  map seen
    (filter (fun tm => negb (Token_eqb (fst tm) LPAR || Token_eqb (fst tm) RPAR))
       l).

(** The keys of the dictionary [operator] whose value is [sym]. *)
Definition operator_keys (sym : string) : list consumed :=
  map (fun t => Tok (Some t))
    (filter (fun t => match operator (Tok (Some t)) with
                      | Val s => String.eqb s sym
                      | Exc _ => false
                      end)
       [LESS; EQ; GRTR; LEQ; NEQ; GEQ; ADD; SUB; MUL; DIV]).

(** The frontier of a tree: the tokens it stands for, from left to
    right, as [consume] returned them. *)
Fixpoint frontier (o : obj) : list consumed :=
  match o with
  | PyNone | PyStr _ | PyTuple _ _ => []
  | Program_AST program => frontier program
  | Statements_AST statements =>
      match statements with
      | [] => []
      | st0 :: rest =>
          frontier st0 ++
          (fix loop (l : list obj) : list consumed :=
             match l with
             | [] => []
             | st :: l' => Tok (Some SEM) :: frontier st ++ loop l'
             end) rest
      end
  | If_Else_AST condition then_ again =>
      Tok (Some IF) :: frontier condition ++
      Tok (Some THEN) :: frontier then_ ++
      Tok (Some ELSE) :: frontier again ++ [Tok (Some END)]
  | If_AST condition then_ =>
      Tok (Some IF) :: frontier condition ++
      Tok (Some THEN) :: frontier then_ ++ [Tok (Some END)]
  | While_AST condition body =>
      Tok (Some WHILE) :: frontier condition ++
      Tok (Some DO) :: frontier body ++ [Tok (Some END)]
  | Assign_AST identifier expression =>
      frontier identifier ++ Tok (Some BEC) :: frontier expression
  | Write_AST expression => Tok (Some WRITE) :: frontier expression
  | Read_AST identifier => Tok (Some READ) :: frontier identifier
  | Comparison_AST left_ op right_ =>
      frontier left_ ++ operator_keys op ++ frontier right_
  | Expression_AST left_ op right_ =>
      frontier left_ ++ operator_keys op ++ frontier right_
  | Number_AST number => [TokVal NUM number]
  | Identifier_AST identifier => [TokVal ID identifier]
  end.

(** [covers pre l v sc']: the tokens [pre], then those of the stream [l],
    are the frontier of [v], then the stream from [sc']. *)
Definition covers (pre : list consumed) (l : list (Token * string))
    (v : obj) (sc' : Scanner) : Prop :=
  exists l', stream sc' l' /\
    (pre ++ pending l = frontier v ++ pending l')%list.

(** The same, where the equation is claimed only of a tree [v] that
    passes the test [ok]. *)
Definition covers_if (ok : obj -> bool) (pre : list consumed)
    (l : list (Token * string)) (v : obj) (sc' : Scanner) : Prop :=
  exists l', stream sc' l' /\
    (ok v = true -> (pre ++ pending l = frontier v ++ pending l')%list).

(** [folds operand ops r sc v sc']: from [sc], the turns of a loop of
    [expression] or [term].  Each turn finds an operator of [ops] ahead,
    consumes it, parses an operand as [operand] says and makes the tree
    built so far the left operand of a new node; the loop ends at [sc'],
    where no operator of [ops] is ahead, with the tree [v]. *)
Inductive folds (operand : Scanner -> obj -> Scanner -> Prop)
    (ops : list Token) : obj -> Scanner -> obj -> Scanner -> Prop :=
| folds_stop r sc :
    token_in (lookahead sc) ops = false -> folds operand ops r sc r sc
| folds_turn r sc op sc1 tree sc2 sym v sc' :
    token_in (lookahead sc) ops = true ->
    consume ops sc = Ok op sc1 ->
    operand sc1 tree sc2 ->
    operator op = Val sym ->
    folds operand ops (Expression_AST r sym tree) sc2 v sc' ->
    folds operand ops r sc v sc'.

(** What [factor] and [term] parse, with some depth of recursion. *)
Definition parses_factor (sc : Scanner) (tree : obj) (sc' : Scanner) : Prop :=
  exists fuel, factor fuel sc = Ok tree sc'.

Definition parses_term (sc : Scanner) (tree : obj) (sc' : Scanner) : Prop :=
  exists fuel, term fuel sc = Ok tree sc'.

(** [error_ahead rest sc1 sc2]: the scanners [sc1] and [sc2] see the same
    tokens up to one after which the scan of [sc1] raises the lexical
    error at the text [rest]; what [sc2] sees after that token is
    free. *)
Inductive error_ahead (rest : string) : Scanner -> Scanner -> Prop :=
| error_next sc1 sc2 :
    lookahead sc1 <> None ->
    current_token sc1 = current_token sc2 ->
    get_token sc1 =
      Abort ("lexical error: no token found at the start of " ++
             rest ++ Py.nl) SystemExit ->
    error_ahead rest sc1 sc2
| error_later sc1 sc2 tok sc1' sc2' :
    lookahead sc1 <> None ->
    current_token sc1 = current_token sc2 ->
    get_token sc1 = Ok tok sc1' ->
    get_token sc2 = Ok tok sc2' ->
    error_ahead rest
      (mkScanner (input_string sc1') (current_char_index sc1') tok)
      (mkScanner (input_string sc2') (current_char_index sc2') tok) ->
    error_ahead rest sc1 sc2.

(** [fatal_or_same rest r1 r2]: of two outcomes, the first is the lexical
    error at [rest], or the two are the same: the same value with the
    error still ahead, or the same abort. *)
Definition fatal_or_same {A} (rest : string) (r1 r2 : Outcome A) : Prop :=
  match r1 with
  | Ok v sc1 => exists sc2, r2 = Ok v sc2 /\ error_ahead rest sc1 sc2
  | Abort printed e =>
      (printed = "lexical error: no token found at the start of " ++
                 rest ++ Py.nl /\ e = SystemExit) \/
      r2 = Abort printed e
  | OutOfFuel => True
  end.

(** The tokens [get_token] returns from [sc] on, the buffered one first,
    up to the end of the input or to a scan that raises the lexical
    error; with them, in that case, the text the scanner stands at when
    it raises it. *)
Fixpoint scanned_from (fuel : nat) (sc : Scanner)
    : list (Token * string) * option string :=
  match fuel with
  | 0 => ([], None)
  | S fuel =>
      match current_token sc with
      | (None, _) => ([], None)
      | (Some t, m) =>
          match get_token sc with
          | Ok tok sc' =>
              let (l, err) :=
                scanned_from fuel
                  (mkScanner (input_string sc') (current_char_index sc') tok) in
              ((t, m) :: l, err)
          | _ => ([(t, m)], Some (text_at_cursor sc))
          end
      end
  end.

(** The same for the whole of [text]. *)
Definition scanned (text : string) : list (Token * string) * option string :=
  match Scanner_init text with
  | Ok _ sc => scanned_from (S (String.length text)) sc
  | _ => ([], Some (text_at_cursor (mkScanner text 0 (None, ""))))
  end.

(** The height of an expression tree: the number of nested operations. *)
Fixpoint height (o : obj) : nat :=
  match o with
  | Expression_AST left_ _ right_ => S (Nat.max (height left_) (height right_))
  | _ => 0
  end.

(* ================================================================== *)
(** * Properties *)

(** ** Strings and regular expressions *)

Section StringFacts.

Lemma length_slice_from (n : nat) (s : string) :
  String.length (Py.slice_from n s) = String.length s - n.
Proof.
  revert s; induction n as [|n IH]; intros [|c s]; simpl; auto.
Qed.

Lemma slice_from_add (n m : nat) (s : string) :
  Py.slice_from m (Py.slice_from n s) = Py.slice_from (n + m) s.
Proof.
  revert s; induction n as [|n IH]; intros s; simpl; [reflexivity|].
  destruct s as [|c s]; simpl; [now destruct m | apply IH].
Qed.

Lemma append_assoc (a b c : string) : (a ++ b) ++ c = a ++ (b ++ c).
Proof. induction a as [|x a IH]; simpl; [reflexivity | now rewrite IH]. Qed.

Lemma prefix_length (p s : string) :
  String.prefix p s = true -> String.length p <= String.length s.
Proof.
  revert s; induction p as [|a p IH]; intros [|b s]; simpl; try lia; try discriminate.
  destruct (ascii_dec a b); [|discriminate].
  intros H; apply IH in H; lia.
Qed.

Lemma run_length (lo hi : ascii) (s : string) :
  String.length (run lo hi s) <= String.length s.
Proof.
  induction s as [|c s IH]; simpl; auto.
  destruct (in_range lo hi c); simpl; lia.
Qed.

Lemma re_match_length (r : regexp) (s m : string) :
  re_match r s = Some m -> String.length m <= String.length s.
Proof.
  destruct r as [text|lo hi]; simpl.
  - destruct (String.prefix text s) eqn:E; [|discriminate].
    intros [= <-]; now apply prefix_length.
  - pose proof (run_length lo hi s) as H.
    destruct (run lo hi s); [discriminate|]; now intros [= <-].
Qed.

Lemma string_length_0 (s : string) : String.length s = 0 -> s = "".
Proof. destruct s; [reflexivity | discriminate]. Qed.

Lemma skip_loop_bounds (rest : string) (i : nat) :
  i <= skip_loop rest i <= i + String.length rest.
Proof.
  revert i; induction rest as [|c rest IH]; intros i; simpl; [lia|].
  destruct (Py.isspace c); [|lia].
  specialize (IH (i + 1)); lia.
Qed.

(** After the loop the index stands at the end of the input or at a
    character that is no white space: running the loop again moves
    nothing. *)
Lemma skip_loop_rest (rest : string) (j k : nat) :
  skip_loop (Py.slice_from (skip_loop rest j - j) rest) k = k.
Proof.
  revert j; induction rest as [|c rest IH]; intros j; simpl.
  - replace (j - j) with 0 by lia; reflexivity.
  - destruct (Py.isspace c) eqn:E.
    + pose proof (skip_loop_bounds rest (j + 1)).
      replace (skip_loop rest (j + 1) - j)
        with (S (skip_loop rest (j + 1) - (j + 1))) by lia.
      simpl; apply IH.
    + replace (j - j) with 0 by lia; simpl; now rewrite E.
Qed.

Lemma skip_loop_idem (s : string) (i : nat) :
  skip_loop (Py.slice_from (skip_loop (Py.slice_from i s) i) s)
            (skip_loop (Py.slice_from i s) i)
  = skip_loop (Py.slice_from i s) i.
Proof.
  pose proof (skip_loop_bounds (Py.slice_from i s) i) as B.
  pose proof (skip_loop_rest (Py.slice_from i s) i
                (skip_loop (Py.slice_from i s) i)) as G.
  rewrite slice_from_add in G.
  replace (i + (skip_loop (Py.slice_from i s) i - i))
    with (skip_loop (Py.slice_from i s) i) in G by lia.
  exact G.
Qed.

End StringFacts.

(** ** The scan over the token table *)

Section ScanTable.

Variable table : list (Token * regexp).
Variable rest : string.

Lemma scan_table_acc (tbl : list (Token * regexp)) (acc : option Token * string) :
  let sel := scan_table tbl rest acc in
  String.length (snd acc) <= String.length (snd sel) /\
  (forall j t r m, nth_error tbl j = Some (t, r) -> re_match r rest = Some m ->
     String.length m <= String.length (snd sel)) /\
  (sel = acc \/
   exists i t r,
     nth_error tbl i = Some (t, r) /\ fst sel = Some t /\
     re_match r rest = Some (snd sel) /\
     String.length (snd acc) < String.length (snd sel) /\
     forall j t' r' m', j < i -> nth_error tbl j = Some (t', r') ->
       re_match r' rest = Some m' ->
       String.length m' < String.length (snd sel)).
Proof.
  revert acc; induction tbl as [|[t r] tbl IH]; intros acc; simpl.
  - split; [lia|]. split; [|now left].
    intros [|j] ? ? ? H; discriminate H.
  - set (acc' := match re_match r rest with
                 | Some m => if (String.length (snd acc) <? String.length m)%nat
                             then (Some t, m) else acc
                 | None => acc
                 end).
    destruct (IH acc') as (Hle & Hall & Hsel).
    assert (Hacc : String.length (snd acc) <= String.length (snd acc') /\
                   (forall m, re_match r rest = Some m ->
                      String.length m <= String.length (snd acc')) /\
                   (acc' = acc \/
                    (exists m, re_match r rest = Some m /\ acc' = (Some t, m) /\
                       String.length (snd acc) < String.length m))).
    { subst acc'. destruct (re_match r rest) as [m|].
      - destruct (Nat.ltb_spec (String.length (snd acc)) (String.length m)); simpl.
        + split; [lia|]. split; [now intros ? [= <-]|]. right; now exists m.
        + split; [lia|]. split; [now intros ? [= <-]|]. now left.
      - split; [lia|]. split; [discriminate|]. now left. }
    destruct Hacc as (Hle' & Hhead & Hupd).
    split; [lia|]. split.
    + intros [|j] t' r' m' Hn Hm; simpl in Hn.
      * injection Hn as <- <-. specialize (Hhead _ Hm). lia.
      * eapply Hall; eauto.
    + destruct Hsel as [Heq | (i & ti & ri & Hn & Hf & Hm & Hlt & Hearlier)].
      * destruct Hupd as [Hsame | (m & Hm & Hnew & Hlt)].
        -- left. congruence.
        -- right. exists 0, t, r. rewrite Heq, Hnew. simpl.
           repeat split; auto. intros j ? ? ? Hj. lia.
      * right. exists (S i), ti, ri. simpl.
        repeat split; auto; [lia|].
        intros [|j] t' r' m' Hj Hnj Hmj; simpl in Hnj.
        -- injection Hnj as <- <-. specialize (Hhead _ Hmj). lia.
        -- eapply Hearlier; eauto. lia.
Qed.

(** The loop of [get_token], started as the source starts it, selects by
    maximal munch with ties going to the earliest entry. *)
Lemma scan_table_maximal_munch :
  maximal_munch table rest (scan_table table rest (None, "")).
Proof.
  destruct (scan_table_acc table (None, "")) as (_ & Hall & Hsel).
  unfold maximal_munch.
  destruct Hsel as [Heq | (i & t & r & Hn & Hf & Hm & Hlt & Hearlier)].
  - rewrite Heq; simpl. split; [reflexivity|].
    intros j t' r' m' Hj Hmj. specialize (Hall _ _ _ _ Hj Hmj).
    rewrite Heq in Hall; simpl in Hall. apply string_length_0; lia.
  - rewrite Hf. exists i, r. repeat split; auto.
    + eapply Hall; eauto.
    + intros Hlen. destruct (Nat.le_gt_cases i j) as [|Hji]; [assumption|].
      specialize (Hearlier _ _ _ _ Hji H H0). lia.
Qed.

(** A token is never returned with an empty text, and the text is no
    longer than what was scanned. *)
Lemma scan_table_lengths :
  let sel := scan_table table rest (None, "") in
  String.length (snd sel) <= String.length rest /\
  (fst sel = None -> snd sel = "") /\
  (fst sel <> None -> 0 < String.length (snd sel)).
Proof.
  destruct (scan_table_acc table (None, "")) as (_ & _ & Hsel).
  destruct Hsel as [Heq | (i & t & r & Hn & Hf & Hm & Hlt & _)]; simpl.
  - rewrite Heq; simpl. repeat split; auto; [lia | congruence].
  - apply re_match_length in Hm. repeat split; [lia | congruence | lia].
Qed.

End ScanTable.

(** ** The scanner *)

#[local] Arguments scan_table : simpl never.
#[local] Arguments get_token : simpl never.
#[local] Arguments skip_white_space : simpl never.
#[local] Arguments Py.slice_from : simpl never.

Lemma token_in_Some (found : option Token) (expected : list Token) :
  token_in found expected = true -> exists t, found = Some t /\ In t expected.
Proof.
  unfold token_in. rewrite existsb_exists. intros (t & Hin & Ht).
  destruct found as [f|]; [|discriminate]. simpl in Ht.
  unfold Token_eqb in Ht. destruct (Token_eq_dec f t); [|discriminate].
  subst; eauto.
Qed.

Lemma is_token_true (found : option Token) (t : Token) :
  is_token found t = true <-> found = Some t.
Proof.
  destruct found as [f|]; simpl; [|split; discriminate].
  unfold Token_eqb. destruct (Token_eq_dec f t); split; congruence.
Qed.

(** [get_token] in one piece: the lexical error is raised exactly when
    nothing was selected before the end of the input. *)
Lemma get_token_unfold (sc : Scanner) :
  get_token sc =
  let sc1 := skip_white_space sc in
  let sel := scan_table token_regexp (text_at_cursor sc) (None, "") in
  if is_None (fst sel) &&
     (current_char_index sc1 <? String.length (input_string sc))%nat
  then Abort ("lexical error: no token found at the start of " ++
              text_at_cursor sc ++ Py.nl) SystemExit
  else Ok sel (mkScanner (input_string sc)
                 (current_char_index sc1 + String.length (snd sel))
                 (current_token sc)).
Proof.
  unfold get_token, text_at_cursor. cbv zeta.
  pose proof (scan_table_lengths token_regexp
                (Py.slice_from (current_char_index (skip_white_space sc))
                   (input_string sc))) as (_ & Hnone & Hsome).
  simpl input_string in *.
  destruct (scan_table token_regexp _ (None, "")) as [tok longest].
  simpl fst in *; simpl snd in *.
  destruct tok as [t|]; simpl is_None.
  - reflexivity.
  - rewrite (Hnone eq_refl). simpl.
    rewrite Nat.sub_0_r.
    destruct (_ <? _)%nat; reflexivity.
Qed.

#[local] Opaque get_token scan_table.

Lemma skip_white_space_bounds (sc : Scanner) :
  in_bounds sc ->
  current_char_index sc <= current_char_index (skip_white_space sc) /\
  current_char_index (skip_white_space sc) <= String.length (input_string sc).
Proof.
  unfold in_bounds, skip_white_space; simpl. intros H.
  pose proof (skip_loop_bounds
                (Py.slice_from (current_char_index sc) (input_string sc))
                (current_char_index sc)) as B.
  rewrite length_slice_from in B. lia.
Qed.

Lemma get_token_bounds (sc : Scanner) (sel : option Token * string)
    (sc' : Scanner) :
  in_bounds sc -> get_token sc = Ok sel sc' ->
  in_bounds sc' /\
  input_string sc' = input_string sc /\
  current_char_index sc <= current_char_index sc' /\
  (fst sel <> None -> current_char_index sc < current_char_index sc').
Proof.
  intros Hb. rewrite get_token_unfold. cbv zeta.
  pose proof (scan_table_lengths token_regexp (text_at_cursor sc))
    as (Hlen & _ & Hsome).
  pose proof (skip_white_space_bounds sc Hb) as (Hle & Hb1).
  unfold text_at_cursor in *. rewrite length_slice_from in Hlen.
  remember (scan_table token_regexp
    (Py.slice_from (current_char_index (skip_white_space sc))
       (input_string sc)) (None, "")) as sel0 eqn:E0; clear E0.
  remember (skip_white_space sc) as sc1 eqn:E1; clear E1.
  destruct (_ && _); [discriminate|].
  intros [= <- <-]. unfold in_bounds in *. cbn [input_string current_char_index].
  repeat split; try lia.
  intros Hne. specialize (Hsome Hne). lia.
Qed.

Lemma consume_unfold (expected_tokens : list Token) (sc : Scanner) :
  consume expected_tokens sc =
  if token_in (lookahead sc) expected_tokens then
    match get_token sc with
    | Ok tok sc' =>
        Ok match lookahead sc with
           | Some ID => TokVal ID (snd (current_token sc))
           | Some NUM => TokVal NUM (snd (current_token sc))
           | _ => Tok (lookahead sc)
           end
           (mkScanner (input_string sc') (current_char_index sc') tok)
    | Abort printed e => Abort printed e
    | OutOfFuel => OutOfFuel
    end
  else call_unexpected_token (lookahead sc) expected_tokens sc.
Proof.
  unfold consume, lookahead, bind.
  destruct (current_token sc) as [token longest]; cbn [fst snd].
  destruct (token_in token expected_tokens); [|reflexivity].
  destruct (get_token sc) as [tok sc'| |]; try reflexivity.
  destruct token as [[]|]; reflexivity.
Qed.

Lemma get_token_fuel (sc : Scanner) : get_token sc <> OutOfFuel.
Proof.
  rewrite get_token_unfold; cbv zeta. destruct (_ && _); discriminate.
Qed.

Lemma consume_fuel (expected_tokens : list Token) (sc : Scanner) :
  consume expected_tokens sc <> OutOfFuel.
Proof.
  rewrite consume_unfold.
  destruct (token_in _ _).
  - pose proof (get_token_fuel sc). destruct (get_token sc); congruence.
  - unfold call_unexpected_token. destruct expected_tokens as [|e [|]];
      discriminate.
Qed.

(** A call of [consume] that returns has taken the buffered token, which
    was one of the expected ones, and has moved on in the input. *)
Lemma consume_Ok (expected_tokens : list Token) (sc : Scanner)
    (v : consumed) (sc' : Scanner) :
  consume expected_tokens sc = Ok v sc' ->
  (exists t, lookahead sc = Some t /\ In t expected_tokens) /\
  exists sc1, get_token sc = Ok (current_token sc') sc1 /\
    input_string sc' = input_string sc1 /\
    current_char_index sc' = current_char_index sc1.
Proof.
  rewrite consume_unfold.
  destruct (token_in _ _) eqn:Hin.
  - destruct (get_token sc) as [tok sc1| |] eqn:Hg;
      [ | intros H; discriminate H | intros H; discriminate H ].
    intros [= _ <-]. split; [now apply token_in_Some|].
    exists sc1. simpl. auto.
  - unfold call_unexpected_token. destruct expected_tokens as [|e [|]];
      discriminate.
Qed.

Lemma consume_progress (expected_tokens : list Token) (sc : Scanner)
    (v : consumed) (sc' : Scanner) :
  in_bounds sc -> consume expected_tokens sc = Ok v sc' ->
  in_bounds sc' /\ remaining sc' < remaining sc /\
  input_string sc' = input_string sc.
Proof.
  intros Hb Hc. apply consume_Ok in Hc.
  destruct Hc as ((t & Hla & _) & sc1 & Hg & Hi & Hc).
  destruct (get_token_bounds sc _ _ Hb Hg) as (Hb1 & Hi1 & Hle & Hlt).
  unfold in_bounds in Hb, Hb1.
  rewrite Hi1 in Hb1, Hi. clear Hg Hi1.
  unfold in_bounds, remaining. rewrite Hla, Hi, Hc. simpl is_None.
  split; [lia|]. split; [|reflexivity].
  unfold lookahead. destruct (fst (current_token sc')) eqn:E; simpl.
  - assert (current_char_index sc < current_char_index sc1)
      by (apply Hlt; discriminate). lia.
  - lia.
Qed.

Lemma Scanner_init_bounds (text : string) (sc : Scanner) :
  Scanner_init text = Ok tt sc ->
  in_bounds sc /\ input_string sc = text /\ remaining sc <= String.length text.
Proof.
  unfold Scanner_init, bind.
  destruct (get_token (mkScanner text 0 (None, ""))) as [tok sc1| |] eqn:Hg;
    [ | intros H; discriminate H | intros H; discriminate H ].
  intros [= <-].
  assert (Hb : in_bounds (mkScanner text 0 (None, "")))
    by (unfold in_bounds; simpl; lia).
  destruct (get_token_bounds _ _ _ Hb Hg) as (Hb1 & Hi1 & Hle & Hlt).
  clear Hg Hb.
  unfold in_bounds, remaining, lookahead in *;
    cbn [input_string current_char_index current_token] in *.
  rewrite Hi1 in *. repeat split; auto.
  destruct (fst tok) eqn:E; simpl; [|lia].
  assert (0 < current_char_index sc1) by (apply Hlt; discriminate). lia.
Qed.


(** ** Reasoning about computations *)

Section Computations.

Context {A B : Type}.

Lemma wp_bind (oof : Prop) (c : M A) (k : A -> M B) (sc : Scanner)
    (P : A -> Scanner -> Prop) (Q : B -> Scanner -> Prop) :
  wp oof c sc P ->
  (forall v sc', P v sc' -> wp oof (k v) sc' Q) ->
  wp oof (bind c k) sc Q.
Proof.
  intros HP Hk. unfold wp, holds in HP. unfold wp at 1. unfold holds, bind.
  destruct (c sc) as [v sc'| |]; [apply Hk, HP | exact I | exact HP].
Qed.

Lemma wp_conseq (oof : Prop) (c : M A) (sc : Scanner)
    (P Q : A -> Scanner -> Prop) :
  wp oof c sc P -> (forall v sc', P v sc' -> Q v sc') -> wp oof c sc Q.
Proof.
  unfold wp, holds. destruct (c sc) as [v sc'| |]; auto.
Qed.

Lemma wp_ret (oof : Prop) (v : A) (sc : Scanner) (Q : A -> Scanner -> Prop) :
  Q v sc -> wp oof (ret v) sc Q.
Proof. exact (fun H => H). Qed.

Lemma wp_lift (oof : Prop) (r : res A) (sc : Scanner)
    (Q : A -> Scanner -> Prop) :
  (forall v, r = Val v -> Q v sc) -> wp oof (lift r) sc Q.
Proof.
  unfold wp, holds, lift. destruct r; simpl; auto.
Qed.

Lemma wp_Ok (oof : Prop) (c : M A) (sc : Scanner) (Q : A -> Scanner -> Prop)
    (v : A) (sc' : Scanner) :
  wp oof c sc Q -> c sc = Ok v sc' -> Q v sc'.
Proof. unfold wp, holds. intros H E. rewrite E in H. exact H. Qed.

Lemma wp_total (c : M A) (sc : Scanner) (Q : A -> Scanner -> Prop) :
  wp False c sc Q -> c sc <> OutOfFuel.
Proof. unfold wp, holds. intros H E. rewrite E in H. exact H. Qed.

Lemma refines_refl (r : Outcome A) : refines r r.
Proof. now right. Qed.

Lemma refines_trans (r1 r2 r3 : Outcome A) :
  refines r1 r2 -> refines r2 r3 -> refines r1 r3.
Proof.
  intros [H1|H1] H2; [now left|]. now rewrite H1.
Qed.

Lemma refines_bind (c1 c2 : M A) (k1 k2 : A -> M B) (sc : Scanner) :
  refines (c1 sc) (c2 sc) ->
  (forall v sc', refines (k1 v sc') (k2 v sc')) ->
  refines (bind c1 k1 sc) (bind c2 k2 sc).
Proof.
  unfold bind. intros [H|H] Hk; rewrite H; [now left|].
  destruct (c2 sc); [apply Hk | now right | now left].
Qed.

Lemma refines_eq (r1 r2 : Outcome A) :
  refines r1 r2 -> r1 <> OutOfFuel -> r1 = r2.
Proof. intros [H|H] Hn; [contradiction | assumption]. Qed.

End Computations.

(** ** One step of each grammar procedure *)

Section Unfolding.

Variable fuel : nat.

Lemma expression_S :
  expression (S fuel) = (result <- term fuel ;; expression_loop fuel result).
Proof. reflexivity. Qed.

Lemma expression_loop_S (result : obj) (sc : Scanner) :
  expression_loop (S fuel) result sc =
  if token_in (lookahead sc) [ADD; SUB] then
    (op <- consume [ADD; SUB] ;;
     tree <- term fuel ;;
     sym <- lift (operator op) ;;
     expression_loop fuel (Expression_AST result sym tree)) sc
  else ret result sc.
Proof. reflexivity. Qed.

Lemma term_S :
  term (S fuel) = (result <- factor fuel ;; term_loop fuel result).
Proof. reflexivity. Qed.

Lemma term_loop_S (result : obj) (sc : Scanner) :
  term_loop (S fuel) result sc =
  if token_in (lookahead sc) [MUL; DIV] then
    (op <- consume [MUL; DIV] ;;
     tree <- factor fuel ;;
     sym <- lift (operator op) ;;
     term_loop fuel (Expression_AST result sym tree)) sc
  else ret result sc.
Proof. reflexivity. Qed.

Lemma factor_S (sc : Scanner) :
  factor (S fuel) sc =
  if is_token (lookahead sc) LPAR then
    (consume [LPAR] ;;;
     result <- expression fuel ;;
     consume [RPAR] ;;;
     ret result) sc
  else if is_token (lookahead sc) NUM then
    (c <- consume [NUM] ;;
     value <- lift (getitem1 c) ;;
     ret (Number_AST value)) sc
  else if is_token (lookahead sc) ID then
    identifier sc
  else
    (c <- consume [LPAR; NUM; ID] ;;
     ret (obj_of_consumed c)) sc.
Proof. reflexivity. Qed.

Lemma statements_S :
  statements (S fuel) = (st <- statement fuel ;; statements_loop fuel [st]).
Proof. reflexivity. Qed.

Lemma statements_loop_S (result : list obj) (sc : Scanner) :
  statements_loop (S fuel) result sc =
  if is_token (lookahead sc) SEM then
    (consume [SEM] ;;;
     st <- statement fuel ;;
     statements_loop fuel (result ++ [st])) sc
  else ret (Statements_AST result) sc.
Proof. reflexivity. Qed.

Lemma statement_S (sc : Scanner) :
  statement (S fuel) sc =
  if is_token (lookahead sc) IF then if_statement fuel sc
  else if is_token (lookahead sc) WHILE then while_statement fuel sc
  else if is_token (lookahead sc) ID then assignment fuel sc
  else if is_token (lookahead sc) READ then read sc
  else if is_token (lookahead sc) WRITE then write fuel sc
  else
    (c <- consume [IF; WHILE; ID] ;;
     ret (obj_of_consumed c)) sc.
Proof. reflexivity. Qed.

Lemma if_statement_S :
  if_statement (S fuel) =
  (consume [IF] ;;;
   condition <- comparison fuel ;;
   consume [THEN] ;;;
   then_ <- statements fuel ;;
   fun sc =>
     if is_token (lookahead sc) ELSE then
       (consume [ELSE] ;;;
        again <- statements fuel ;;
        consume [END] ;;;
        ret (If_Else_AST condition then_ again)) sc
     else if is_token (lookahead sc) END then
       (consume [END] ;;;
        ret (If_AST condition then_)) sc
     else ret PyNone sc).
Proof. reflexivity. Qed.

Lemma while_statement_S :
  while_statement (S fuel) =
  (consume [WHILE] ;;;
   condition <- comparison fuel ;;
   consume [DO] ;;;
   body <- statements fuel ;;
   consume [END] ;;;
   ret (While_AST condition body)).
Proof. reflexivity. Qed.

End Unfolding.

#[local] Opaque expression expression_loop term term_loop factor
  statements statements_loop statement if_statement while_statement consume.

(** ** More fuel never changes a result *)

Section FuelMonotone.

Ltac refines_steps :=
  repeat first
    [ apply refines_refl
    | solve [auto]
    | apply refines_bind; [ | intros ? ? ] ].

Lemma expression_fuel_S (n : nat) :
  (forall sc, refines (expression n sc) (expression (S n) sc)) /\
  (forall r sc, refines (expression_loop n r sc) (expression_loop (S n) r sc)) /\
  (forall sc, refines (term n sc) (term (S n) sc)) /\
  (forall r sc, refines (term_loop n r sc) (term_loop (S n) r sc)) /\
  (forall sc, refines (factor n sc) (factor (S n) sc)).
Proof.
  induction n as [|n (IHe & IHel & IHt & IHtl & IHf)].
  - repeat split; intros; now left.
  - repeat split; intros.
    + rewrite !expression_S. refines_steps.
    + rewrite !expression_loop_S. destruct (token_in _ _); refines_steps.
    + rewrite !term_S. refines_steps.
    + rewrite !term_loop_S. destruct (token_in _ _); refines_steps.
    + rewrite !factor_S. repeat (destruct (is_token _ _); [refines_steps|]).
      refines_steps.
Qed.

Lemma expression_fuel (n m : nat) (sc : Scanner) :
  n <= m -> refines (expression n sc) (expression m sc).
Proof.
  induction 1 as [|m _ IH]; [apply refines_refl|].
  eapply refines_trans; [exact IH | apply expression_fuel_S].
Qed.

Lemma term_fuel (n m : nat) (sc : Scanner) :
  n <= m -> refines (term n sc) (term m sc).
Proof.
  induction 1 as [|m _ IH]; [apply refines_refl|].
  eapply refines_trans; [exact IH | apply expression_fuel_S].
Qed.

Lemma expression_loop_fuel (n m : nat) (r : obj) (sc : Scanner) :
  n <= m -> refines (expression_loop n r sc) (expression_loop m r sc).
Proof.
  induction 1 as [|m _ IH]; [apply refines_refl|].
  eapply refines_trans; [exact IH | apply expression_fuel_S].
Qed.

Lemma term_loop_fuel (n m : nat) (r : obj) (sc : Scanner) :
  n <= m -> refines (term_loop n r sc) (term_loop m r sc).
Proof.
  induction 1 as [|m _ IH]; [apply refines_refl|].
  eapply refines_trans; [exact IH | apply expression_fuel_S].
Qed.

Lemma comparison_fuel (n m : nat) (sc : Scanner) :
  n <= m -> refines (comparison n sc) (comparison m sc).
Proof.
  intros H. unfold comparison.
  repeat first [ apply refines_refl
               | apply refines_bind; [ | intros ? ? ]
               | now apply expression_fuel ].
Qed.

Lemma assignment_fuel (n m : nat) (sc : Scanner) :
  n <= m -> refines (assignment n sc) (assignment m sc).
Proof.
  intros H. unfold assignment.
  repeat first [ apply refines_refl
               | apply refines_bind; [ | intros ? ? ]
               | now apply expression_fuel ].
Qed.

Lemma write_fuel (n m : nat) (sc : Scanner) :
  n <= m -> refines (write n sc) (write m sc).
Proof.
  intros H. unfold write.
  repeat first [ apply refines_refl
               | apply refines_bind; [ | intros ? ? ]
               | now apply expression_fuel ].
Qed.

Lemma statements_fuel_S (n : nat) :
  (forall sc, refines (statements n sc) (statements (S n) sc)) /\
  (forall r sc, refines (statements_loop n r sc) (statements_loop (S n) r sc)) /\
  (forall sc, refines (statement n sc) (statement (S n) sc)) /\
  (forall sc, refines (if_statement n sc) (if_statement (S n) sc)) /\
  (forall sc, refines (while_statement n sc) (while_statement (S n) sc)).
Proof.
  induction n as [|n (IHs & IHsl & IHst & IHif & IHwh)].
  - repeat split; intros; now left.
  - assert (Hc : forall sc, refines (comparison n sc) (comparison (S n) sc))
      by (intros; apply comparison_fuel; lia).
    assert (Ha : forall sc, refines (assignment n sc) (assignment (S n) sc))
      by (intros; apply assignment_fuel; lia).
    assert (Hw : forall sc, refines (write n sc) (write (S n) sc))
      by (intros; apply write_fuel; lia).
    repeat split; intros.
    + rewrite !statements_S. refines_steps.
    + rewrite !statements_loop_S. destruct (is_token _ _); refines_steps.
    + rewrite !statement_S. repeat (destruct (is_token _ _); [refines_steps|]).
      refines_steps.
    + rewrite !if_statement_S. refines_steps.
      repeat (destruct (is_token _ _); [refines_steps|]). refines_steps.
    + rewrite !while_statement_S. refines_steps.
Qed.

Lemma statements_fuel (n m : nat) (sc : Scanner) :
  n <= m -> refines (statements n sc) (statements m sc).
Proof.
  induction 1 as [|m _ IH]; [apply refines_refl|].
  eapply refines_trans; [exact IH | apply statements_fuel_S].
Qed.

Lemma if_statement_fuel (n m : nat) (sc : Scanner) :
  n <= m -> refines (if_statement n sc) (if_statement m sc).
Proof.
  induction 1 as [|m _ IH]; [apply refines_refl|].
  eapply refines_trans; [exact IH | apply statements_fuel_S].
Qed.

Lemma factor_fuel (n m : nat) (sc : Scanner) :
  n <= m -> refines (factor n sc) (factor m sc).
Proof.
  induction 1 as [|m _ IH]; [apply refines_refl|].
  eapply refines_trans; [exact IH | apply expression_fuel_S].
Qed.

Lemma program_fuel (n m : nat) (sc : Scanner) :
  n <= m -> refines (program n sc) (program m sc).
Proof.
  intros H. unfold program. apply refines_bind;
    [now apply statements_fuel | intros; apply refines_refl].
Qed.

End FuelMonotone.

(** ** The fuel the driver provides is enough *)

(** Turns a goal about an outcome back into one about a computation. *)
Ltac to_wp :=
  match goal with
  | |- holds ?o (?c ?s) ?Q => change (wp o c s Q)
  end.

(** Unfolds one step of a procedure with equation [E] and splits on the
    tests of the lookahead. *)
Ltac by_lookahead E :=
  unfold wp; rewrite E;
  repeat match goal with
         | |- holds _ (if ?b then _ else _) _ => destruct b eqn:?
         end;
  to_wp.

Lemma wp_consume (oof : Prop) (expected_tokens : list Token) (sc : Scanner) :
  in_bounds sc -> wp oof (consume expected_tokens) sc (advanced 1 sc).
Proof.
  intros Hb. unfold wp, holds.
  destruct (consume expected_tokens sc) as [v sc'| |] eqn:E.
  - destruct (consume_progress _ _ _ _ Hb E) as (Hb' & Hr & Hi).
    unfold advanced. repeat split; auto. lia.
  - exact I.
  - now apply consume_fuel in E.
Qed.

Lemma advanced_trans {A B} (j k : nat) (sc sc1 sc2 : Scanner) (v : A) (w : B) :
  advanced j sc v sc1 -> advanced k sc1 w sc2 -> advanced (j + k) sc w sc2.
Proof.
  unfold advanced. intros (H1 & H2 & H3) (H4 & H5 & H6).
  repeat split; [assumption | congruence | lia].
Qed.

Lemma advanced_weaken {A} (j k : nat) (sc sc1 : Scanner) (v : A) :
  k <= j -> advanced j sc v sc1 -> advanced k sc v sc1.
Proof.
  unfold advanced. intros Hle (H1 & H2 & H3). repeat split; auto. lia.
Qed.

Lemma wp_identifier (oof : Prop) (sc : Scanner) :
  in_bounds sc -> wp oof identifier sc (advanced 1 sc).
Proof.
  intros Hb. unfold identifier.
  eapply wp_bind; [now apply wp_consume|].
  intros c sc1 H1. eapply wp_bind with (P := fun _ sc' => sc' = sc1).
  - apply wp_lift. reflexivity.
  - intros value sc2 ->. apply wp_ret. exact H1.
Qed.

(** Chains one call whose postcondition is [advanced]. *)
Ltac advance H :=
  eapply wp_bind;
  [ first [ apply wp_consume | apply wp_identifier | apply H ]
  | let v := fresh "v" in let sc := fresh "sc" in
    let Hb := fresh "Hb" in let Hi := fresh "Hi" in let Hr := fresh "Hr" in
    intros v sc (Hb & Hi & Hr) ].

Ltac pure_step :=
  match goal with
  | |- wp _ (bind (lift _) _) ?sc0 _ =>
      eapply wp_bind with (P := fun _ sc' => sc' = sc0);
      [ apply wp_lift; reflexivity
      | let v := fresh "v" in let sc := fresh "sc" in intros v sc -> ]
  end.

Ltac chain :=
  unfold advanced; split; [assumption | split; [congruence | lia]].

Ltac finish := apply wp_ret; chain.

Lemma expression_total (n : nat) :
  (forall sc, in_bounds sc -> 16 * remaining sc + 3 <= n ->
     wp False (expression n) sc (advanced 1 sc)) /\
  (forall r sc, in_bounds sc -> 16 * remaining sc + 1 <= n ->
     wp False (expression_loop n r) sc (advanced 0 sc)) /\
  (forall sc, in_bounds sc -> 16 * remaining sc + 2 <= n ->
     wp False (term n) sc (advanced 1 sc)) /\
  (forall r sc, in_bounds sc -> 16 * remaining sc + 1 <= n ->
     wp False (term_loop n r) sc (advanced 0 sc)) /\
  (forall sc, in_bounds sc -> 16 * remaining sc + 1 <= n ->
     wp False (factor n) sc (advanced 1 sc)).
Proof.
  induction n as [|n (IHe & IHel & IHt & IHtl & IHf)].
  - repeat split; intros; lia.
  - repeat split; intros.
    + rewrite expression_S.
      advance IHt; [assumption | lia |].
      eapply wp_conseq; [apply IHel; [assumption | lia]|].
      intros ? ? (? & ? & ?). chain.
    + by_lookahead expression_loop_S.
      * advance IHt; [assumption|].
        advance IHt; [assumption | lia |].
        pure_step.
        eapply wp_conseq; [apply IHel; [assumption | lia]|].
        intros ? ? (? & ? & ?). chain.
      * finish.
    + rewrite term_S.
      advance IHf; [assumption | lia |].
      eapply wp_conseq; [apply IHtl; [assumption | lia]|].
      intros ? ? (? & ? & ?). chain.
    + by_lookahead term_loop_S.
      * advance IHf; [assumption|].
        advance IHf; [assumption | lia |].
        pure_step.
        eapply wp_conseq; [apply IHtl; [assumption | lia]|].
        intros ? ? (? & ? & ?). chain.
      * finish.
    + by_lookahead factor_S.
      * advance IHe; [assumption|].
        advance IHe; [assumption | lia |].
        advance IHe; [assumption|].
        finish.
      * advance IHe; [assumption|]. pure_step. finish.
      * now apply wp_identifier.
      * advance IHe; [assumption|]. finish.
Qed.

Lemma comparison_total (n : nat) (sc : Scanner) :
  in_bounds sc -> 16 * remaining sc + 3 <= n ->
  wp False (comparison n) sc (advanced 1 sc).
Proof.
  intros Hb Hn. destruct (expression_total n) as (He & _). unfold comparison.
  advance He; [assumption | lia |].
  advance He; [assumption|].
  advance He; [assumption | lia |].
  pure_step. finish.
Qed.

Lemma assignment_total (n : nat) (sc : Scanner) :
  in_bounds sc -> 16 * remaining sc + 3 <= n ->
  wp False (assignment n) sc (advanced 1 sc).
Proof.
  intros Hb Hn. destruct (expression_total n) as (He & _). unfold assignment.
  advance He; [assumption|].
  advance He; [assumption|].
  advance He; [assumption | lia |].
  finish.
Qed.

Lemma read_total (sc : Scanner) :
  in_bounds sc -> wp False read sc (advanced 1 sc).
Proof.
  intros Hb. unfold read.
  advance Hb; [assumption|].
  advance Hb; [assumption|].
  finish.
Qed.

Lemma write_total (n : nat) (sc : Scanner) :
  in_bounds sc -> 16 * remaining sc + 3 <= n ->
  wp False (write n) sc (advanced 1 sc).
Proof.
  intros Hb Hn. destruct (expression_total n) as (He & _). unfold write.
  advance He; [assumption|].
  advance He; [assumption | lia |].
  finish.
Qed.

Lemma statements_total (n : nat) :
  (forall sc, in_bounds sc -> 16 * remaining sc + 6 <= n ->
     wp False (statements n) sc (advanced 1 sc)) /\
  (forall r sc, in_bounds sc -> 16 * remaining sc + 1 <= n ->
     wp False (statements_loop n r) sc (advanced 0 sc)) /\
  (forall sc, in_bounds sc -> 16 * remaining sc + 5 <= n ->
     wp False (statement n) sc (advanced 1 sc)) /\
  (forall sc, in_bounds sc -> 16 * remaining sc + 4 <= n ->
     wp False (if_statement n) sc (advanced 1 sc)) /\
  (forall sc, in_bounds sc -> 16 * remaining sc + 4 <= n ->
     wp False (while_statement n) sc (advanced 1 sc)).
Proof.
  induction n as [|n (IHs & IHsl & IHst & IHif & IHwh)].
  - repeat split; intros; lia.
  - pose proof (comparison_total n) as Hc.
    repeat split; intros.
    + rewrite statements_S.
      advance IHst; [assumption | lia |].
      eapply wp_conseq; [apply IHsl; [assumption | lia]|].
      intros ? ? (? & ? & ?). chain.
    + by_lookahead statements_loop_S.
      * advance IHst; [assumption|].
        advance IHst; [assumption | lia |].
        eapply wp_conseq; [apply IHsl; [assumption | lia]|].
        intros ? ? (? & ? & ?). chain.
      * finish.
    + by_lookahead statement_S.
      * apply IHif; [assumption | lia].
      * apply IHwh; [assumption | lia].
      * apply assignment_total; [assumption | lia].
      * now apply read_total.
      * apply write_total; [assumption | lia].
      * advance IHst; [assumption|]. finish.
    + rewrite if_statement_S.
      advance Hc; [assumption|].
      advance Hc; [assumption | lia |].
      advance Hc; [assumption|].
      advance IHs; [assumption | lia |].
      unfold wp; cbv beta.
      repeat match goal with
             | |- holds _ (if ?b then _ else _) _ => destruct b eqn:?
             end; to_wp.
      * advance IHs; [assumption|].
        advance IHs; [assumption | lia |].
        advance IHs; [assumption|].
        finish.
      * advance IHs; [assumption|]. finish.
      * finish.
    + rewrite while_statement_S.
      advance Hc; [assumption|].
      advance Hc; [assumption | lia |].
      advance Hc; [assumption|].
      advance IHs; [assumption | lia |].
      advance IHs; [assumption|].
      finish.
Qed.

Lemma program_total (n : nat) (sc : Scanner) :
  in_bounds sc -> 16 * remaining sc + 6 <= n ->
  wp False (program n) sc (advanced 1 sc).
Proof.
  intros Hb Hn. destruct (statements_total n) as (Hs & _). unfold program.
  advance Hs; [assumption | lia |]. finish.
Qed.

(** On every input the bound [fuel_for] suffices: the parser returns or
    aborts, it never runs out of fuel. *)
Lemma program_fuel_enough (text : string) (sc : Scanner) :
  Scanner_init text = Ok tt sc -> program (fuel_for text) sc <> OutOfFuel.
Proof.
  intros Hi. apply Scanner_init_bounds in Hi. destruct Hi as (Hb & _ & Hr).
  eapply wp_total, program_total; [assumption|].
  unfold fuel_for. lia.
Qed.

(** Whatever the parser returns or reports with some fuel, it returns or
    reports with the fuel of the driver. *)
Lemma program_fuel_for (text : string) (sc : Scanner) (n : nat)
    (r : Outcome obj) :
  Scanner_init text = Ok tt sc -> program n sc = r -> r <> OutOfFuel ->
  program (fuel_for text) sc = r.
Proof.
  intros Hi Hr Hn. pose proof (program_fuel_enough text sc Hi) as He.
  pose proof (program_fuel n (Nat.max n (fuel_for text)) sc
                (Nat.le_max_l _ _)) as H1.
  pose proof (program_fuel (fuel_for text) (Nat.max n (fuel_for text)) sc
                (Nat.le_max_r _ _)) as H2.
  apply refines_eq in H1; [|now rewrite Hr].
  apply refines_eq in H2; [|assumption].
  now rewrite H2, <- H1.
Qed.

Lemma main_total (text : string) : main text <> Diverged.
Proof.
  unfold main.
  destruct (Scanner_init text) as [[] sc| |] eqn:Hi;
    [ | intros H; discriminate H | ].
  - pose proof (program_fuel_enough text sc Hi) as He.
    unfold run_parser.
    destruct (program (fuel_for text) sc) as [ast sc'| |];
      [ | intros H; discriminate H | now elim He ].
    destruct (negb _); [intros H; discriminate H|].
    destruct (indented ast 0); intros H; discriminate H.
  - exfalso. revert Hi. unfold Scanner_init, bind.
    pose proof (get_token_fuel (mkScanner text 0 (None, ""))) as Hg.
    destruct (get_token _); [intros H; discriminate H
                            | intros H; discriminate H | now elim Hg].
Qed.


(* ================================================================== *)
(** * The claims *)

(** ** Lexical analysis *)

Section Lexing.

Lemma scan_table_none (table : list (Token * regexp)) (rest : string)
    (acc : option Token * string) :
  (forall t r, In (t, r) table -> re_match r rest = None) ->
  scan_table table rest acc = acc.
Proof.
  intros Hnone.
  destruct (scan_table_acc rest table acc)
    as (_ & _ & [Heq | (i & t & r & Hn & _ & Hm & _)]); [exact Heq|].
  apply nth_error_In in Hn. rewrite (Hnone _ _ Hn) in Hm. discriminate Hm.
Qed.

Lemma Ok_inj {A} (v v' : A) (sc sc' : Scanner) :
  Ok v sc = Ok v' sc' -> v = v' /\ sc = sc'.
Proof. intros [= -> ->]. split; reflexivity. Qed.

Lemma get_token_selects (sc : Scanner) (sel : option Token * string)
    (sc' : Scanner) :
  get_token sc = Ok sel sc' ->
  sel = scan_table token_regexp (text_at_cursor sc) (None, "") /\
  sc' = mkScanner (input_string sc)
          (current_char_index (skip_white_space sc) + String.length (snd sel))
          (current_token sc).
Proof.
  rewrite get_token_unfold. cbv zeta.
  destruct (_ && _); [intros H; discriminate H|].
  intros H. apply Ok_inj in H. destruct H as (H1 & H2).
  rewrite H1 in H2. split; symmetry; assumption.
Qed.

(** No expression of the token table matches the empty text. *)
Lemma token_regexp_nonempty (t : Token) (r : regexp) (rest m : string) :
  In (t, r) token_regexp -> re_match r rest = Some m -> 0 < String.length m.
Proof.
  intros Hin Hm.
  assert (Hr : r <> Lit "").
  { intros ->. vm_compute in Hin.
    repeat (destruct Hin as [Hin | Hin]; [discriminate Hin|]). exact Hin. }
  destruct r as [text|lo hi]; simpl in Hm.
  - destruct (String.prefix text rest); [|discriminate Hm].
    injection Hm as <-. destruct text; [now elim Hr | simpl; lia].
  - destruct (run lo hi rest); [discriminate Hm|].
    injection Hm as <-. simpl; lia.
Qed.

(** Where an entry of the table matches, [get_token] returns a token,
    with a text at least as long as the match. *)
Lemma get_token_some (sc : Scanner) (t : Token) (r : regexp) (m : string) :
  In (t, r) token_regexp -> re_match r (text_at_cursor sc) = Some m ->
  exists t' longest sc',
    get_token sc = Ok (Some t', longest) sc' /\
    String.length m <= String.length longest.
Proof.
  intros Hin Hm. pose proof (token_regexp_nonempty _ _ _ _ Hin Hm) as Hpos.
  destruct (In_nth_error _ _ Hin) as (j & Hj).
  destruct (scan_table_acc (text_at_cursor sc) token_regexp (None, ""))
    as (_ & Hall & _).
  specialize (Hall _ _ _ _ Hj Hm).
  destruct (scan_table_lengths token_regexp (text_at_cursor sc))
    as (_ & Hnone & _).
  rewrite get_token_unfold. cbv zeta.
  remember (scan_table token_regexp (text_at_cursor sc) (None, ""))
    as sel eqn:E. clear E.
  destruct sel as [[t'|] longest]; cbn [fst snd is_None andb] in *.
  - eauto.
  - rewrite (Hnone eq_refl) in Hall. simpl in Hall. lia.
Qed.

Lemma get_token_no_match (sc : Scanner) :
  current_char_index (skip_white_space sc) < String.length (input_string sc) ->
  no_entry_matches (text_at_cursor sc) ->
  get_token sc =
  Abort ("lexical error: no token found at the start of " ++
         text_at_cursor sc ++ Py.nl) SystemExit.
Proof.
  intros Hlt Hnone. rewrite get_token_unfold. cbv zeta.
  rewrite (scan_table_none token_regexp _ (None, "") Hnone).
  apply Nat.ltb_lt in Hlt. rewrite Hlt. reflexivity.
Qed.

(** C2.  At every cursor position [get_token] returns, among the entries
    of the token table that match the text at the cursor (after the white
    space), the one with the longest match, and among those of that
    length the earliest in the table; it returns a token wherever an
    entry matches.  So ['whilex'] is the single token
    [ID] with the text ['whilex'] and nothing follows it, ['while'] is
    the keyword [WHILE], and ['<='] is the single token [LEQ] and nothing
    follows it. *)
Theorem get_token_maximal_munch :
  (forall sc tok longest sc',
     get_token sc = Ok (tok, longest) sc' ->
     maximal_munch token_regexp (text_at_cursor sc) (tok, longest)) /\
  (forall sc t r m,
     In (t, r) token_regexp -> re_match r (text_at_cursor sc) = Some m ->
     exists t' longest sc',
       get_token sc = Ok (Some t', longest) sc' /\
       String.length m <= String.length longest) /\
  (Scanner_init "whilex" = Ok tt (mkScanner "whilex" 6 (Some ID, "whilex")) /\
   consume [ID] (mkScanner "whilex" 6 (Some ID, "whilex")) =
     Ok (TokVal ID "whilex") (mkScanner "whilex" 6 (None, ""))) /\
  Scanner_init "while" = Ok tt (mkScanner "while" 5 (Some WHILE, "while")) /\
  (Scanner_init "<=" = Ok tt (mkScanner "<=" 2 (Some LEQ, "<=")) /\
   consume [LEQ] (mkScanner "<=" 2 (Some LEQ, "<=")) =
     Ok (Tok (Some LEQ)) (mkScanner "<=" 2 (None, ""))).
Proof.
  split.
  - intros sc tok longest sc' Hg.
    apply get_token_selects in Hg. destruct Hg as (-> & _).
    apply scan_table_maximal_munch.
  - split; [exact get_token_some|].
    repeat split; vm_compute; reflexivity.
Qed.

Lemma get_token_maximal_munch_witness :
  maximal_munch token_regexp
    (text_at_cursor (mkScanner "a<=b" 1 (Some ID, "a"))) (Some LEQ, "<=").
Proof.
  apply (proj1 get_token_maximal_munch)
    with (sc' := mkScanner "a<=b" 3 (Some ID, "a")).
  vm_compute. reflexivity.
Defined.

End Lexing.

(** ** The buffered token *)

Section Lookahead.

(** Scanning again from where the returned token starts returns the same
    token and leaves the index where it was. *)
Lemma get_token_rewind (sc0 : Scanner) (tok : option Token * string)
    (sc1 : Scanner) (buffered : option Token * string) :
  get_token sc0 = Ok tok sc1 ->
  get_token (mkScanner (input_string sc1)
               (current_char_index sc1 - String.length (snd tok)) buffered) =
  Ok tok (mkScanner (input_string sc1) (current_char_index sc1) buffered).
Proof.
  intros Hg. pose proof Hg as Hsel. apply get_token_selects in Hsel.
  destruct Hsel as (Hsel & Hsc1).
  rewrite get_token_unfold in Hg. cbv zeta in Hg. rewrite <- Hsel in Hg.
  destruct (is_None (fst tok) && _) eqn:Hcond in Hg; [discriminate Hg|].
  clear Hg. subst sc1. cbn [input_string current_char_index].
  rewrite Nat.add_sub.
  set (rw := mkScanner (input_string sc0)
               (current_char_index (skip_white_space sc0)) buffered).
  assert (Hskip : current_char_index (skip_white_space rw) =
                  current_char_index (skip_white_space sc0)).
  { unfold rw, skip_white_space. cbn [input_string current_char_index].
    apply skip_loop_idem. }
  assert (Htext : text_at_cursor rw = text_at_cursor sc0).
  { unfold text_at_cursor. rewrite Hskip. reflexivity. }
  rewrite get_token_unfold. cbv zeta.
  rewrite Htext, Hskip, <- Hsel. subst rw.
  cbn [input_string current_token]. rewrite Hcond. reflexivity.
Qed.

(** The buffered token of a reachable scanner was returned by a scan
    that ended at the index of the scanner. *)
Lemma reachable_scanned (text : string) (sc : Scanner) :
  reachable text sc ->
  exists sc0 sc1,
    get_token sc0 = Ok (current_token sc) sc1 /\
    input_string sc = input_string sc1 /\
    current_char_index sc = current_char_index sc1.
Proof.
  intros [sc' Hi | sc0 expected_tokens v sc' _ Hc].
  - unfold Scanner_init, bind in Hi.
    destruct (get_token (mkScanner text 0 (None, ""))) as [tok sc1| |] eqn:Hg;
      [ | discriminate Hi | discriminate Hi ].
    apply Ok_inj in Hi. destruct Hi as (_ & <-).
    exists (mkScanner text 0 (None, "")), sc1. auto.
  - apply consume_Ok in Hc. destruct Hc as (_ & sc1 & Hg & Hi & Hc).
    exists sc0, sc1. auto.
Qed.

(** C8, as stated, fails: the index of a scanner stands behind its
    buffered token, so a scan from it gives the token after the buffered
    one.  After construction on ['x := 1'] the buffered token is [ID]
    with the text ['x'], and a scan from the index, which is [1], returns
    [BEC]. *)
Lemma scan_at_index_gives_next_token :
  let sc := mkScanner "x := 1" 1 (Some ID, "x") in
  reachable "x := 1" sc /\
  get_token sc = Ok (Some BEC, ":=") (mkScanner "x := 1" 4 (Some ID, "x")) /\
  ~ (exists sc', get_token sc = Ok (current_token sc) sc').
Proof.
  cbv zeta. split; [|split].
  - apply reach_init. vm_compute. reflexivity.
  - vm_compute. reflexivity.
  - intros (sc' & H). vm_compute in H. discriminate H.
Qed.

(** C8, amended.  In every reachable scanner state the buffered token is
    the one a scan returns that starts where the buffered token starts,
    that is at the index less the length of the buffered text; that scan
    ends at the index.  The buffer is filled by such a scan on
    construction and refilled by one in every [consume] that returns. *)
Theorem lookahead_is_scan_at_token_start :
  (forall text sc,
     reachable text sc ->
     get_token (rewind sc) = Ok (current_token sc) sc) /\
  (forall text sc,
     Scanner_init text = Ok tt sc ->
     exists sc1,
       get_token (mkScanner text 0 (None, "")) = Ok (current_token sc) sc1 /\
       input_string sc = input_string sc1 /\
       current_char_index sc = current_char_index sc1) /\
  (forall expected_tokens sc v sc',
     consume expected_tokens sc = Ok v sc' ->
     exists sc1,
       get_token sc = Ok (current_token sc') sc1 /\
       input_string sc' = input_string sc1 /\
       current_char_index sc' = current_char_index sc1).
Proof.
  split; [|split].
  - intros text sc Hr.
    destruct (reachable_scanned text sc Hr) as (sc0 & sc1 & Hg & Hi & Hc).
    unfold rewind. rewrite Hi, Hc.
    rewrite (get_token_rewind sc0 _ sc1 (current_token sc) Hg).
    rewrite <- Hi, <- Hc. destruct sc; reflexivity.
  - intros text sc Hi. unfold Scanner_init, bind in Hi.
    destruct (get_token (mkScanner text 0 (None, ""))) as [tok sc1| |] eqn:Hg;
      [ | discriminate Hi | discriminate Hi ].
    apply Ok_inj in Hi. destruct Hi as (_ & <-).
    exists sc1. auto.
  - intros expected_tokens sc v sc' Hc.
    apply consume_Ok in Hc. exact (proj2 Hc).
Qed.

Lemma lookahead_is_scan_at_token_start_witness :
  get_token (rewind (mkScanner "x := 1" 4 (Some BEC, ":="))) =
  Ok (Some BEC, ":=") (mkScanner "x := 1" 4 (Some BEC, ":=")).
Proof.
  apply (proj1 lookahead_is_scan_at_token_start "x := 1").
  apply reach_consume
    with (sc := mkScanner "x := 1" 1 (Some ID, "x"))
         (expected_tokens := [ID]) (v := TokVal ID "x").
  - apply reach_init. vm_compute. reflexivity.
  - vm_compute. reflexivity.
Defined.

(** C1 fails on the code.  In [consume] the expected tokens are unpacked
    into the call of [unexpected_token], which takes one argument for
    them.  With three expected tokens, as in [factor] on ['x := '], the
    call itself raises [TypeError] and nothing is printed; with one, as
    in [consume(Token.THEN)] on ['if x<1 x'], the letters of its name are
    sorted and printed in place of the expected tokens. *)
Theorem unexpected_token_call_misuses_arguments :
  lookahead (mkScanner "x := " 5 (None, "")) = None /\
  consume [LPAR; NUM; ID] (mkScanner "x := " 5 (None, "")) =
    Abort "" TypeError /\
  main "x := " = Died "" TypeError /\
  main "if x<1 x" =
    Died ("syntax error: token in ['E', 'H', 'N', 'T'] expected but 'ID' found"
          ++ Py.nl) SystemExit.
Proof.
  repeat split; vm_compute; reflexivity.
Qed.

End Lookahead.

(** ** Expressions *)

Section Expressions.

Lemma refines_Ok {A} (r1 r2 : Outcome A) (v : A) (sc : Scanner) :
  refines r1 r2 -> r1 = Ok v sc -> r2 = Ok v sc.
Proof.
  intros [H|H] E; [rewrite E in H; discriminate H | now rewrite <- H].
Qed.

Lemma bind_Ok {A B} (c : M A) (k : A -> M B) (sc sc' : Scanner) (v : A) :
  c sc = Ok v sc' -> bind c k sc = k v sc'.
Proof. intros H. unfold bind. now rewrite H. Qed.

Lemma lift_Val {A} (r : res A) (v : A) (sc : Scanner) :
  r = Val v -> lift r sc = Ok v sc.
Proof. intros ->. reflexivity. Qed.

Lemma bind_Ok_inv {A B} (c : M A) (k : A -> M B) (sc sc' : Scanner) (v : B) :
  bind c k sc = Ok v sc' ->
  exists a sc1, c sc = Ok a sc1 /\ k a sc1 = Ok v sc'.
Proof.
  unfold bind. destruct (c sc) as [a sc1| |];
    [ | intros H; discriminate H | intros H; discriminate H ].
  intros H. exists a, sc1. split; [reflexivity | exact H].
Qed.

Lemma lift_Ok_inv {A} (r : res A) (v : A) (sc sc' : Scanner) :
  lift r sc = Ok v sc' -> r = Val v /\ sc' = sc.
Proof.
  destruct r as [a|e]; simpl; [|intros H; discriminate H].
  intros H. apply Ok_inj in H. destruct H as (-> & ->). split; reflexivity.
Qed.

(** The loop of [term] runs the turns of a chain, whatever its length,
    and only those. *)
Lemma term_loop_folds (r : obj) (sc : Scanner) (v : obj) (sc' : Scanner) :
  folds parses_factor [MUL; DIV] r sc v sc' ->
  exists n, forall fuel, n <= fuel -> term_loop fuel r sc = Ok v sc'.
Proof.
  induction 1 as [r sc Hla
                 | r sc op sc1 tree sc2 sym v sc' Hla Hc (m & Hf) Ho _ (n & IH)].
  - exists 1. intros [|fuel] Hle; [lia|].
    rewrite term_loop_S, Hla. reflexivity.
  - exists (S (Nat.max n m)). intros [|fuel] Hle; [lia|].
    rewrite term_loop_S, Hla.
    rewrite (bind_Ok _ _ _ _ _ Hc).
    rewrite (bind_Ok _ _ _ _ _
               (refines_Ok _ _ _ _ (factor_fuel m fuel _ ltac:(lia)) Hf)).
    rewrite (bind_Ok _ _ _ _ _ (lift_Val _ _ _ Ho)).
    apply IH. lia.
Qed.

Lemma folds_term_loop (fuel : nat) :
  forall r sc v sc',
    term_loop fuel r sc = Ok v sc' ->
    folds parses_factor [MUL; DIV] r sc v sc'.
Proof.
  induction fuel as [|fuel IH]; intros r sc v sc' H; [discriminate H|].
  rewrite term_loop_S in H.
  destruct (token_in (lookahead sc) [MUL; DIV]) eqn:Hla.
  - apply bind_Ok_inv in H. destruct H as (op & sc1 & Hc & H).
    apply bind_Ok_inv in H. destruct H as (tree & sc2 & Hf & H).
    apply bind_Ok_inv in H. destruct H as (sym & sc3 & Ho & H).
    apply lift_Ok_inv in Ho. destruct Ho as (Ho & ->).
    eapply folds_turn; eauto. now exists fuel.
  - apply Ok_inj in H. destruct H as (<- & <-). now apply folds_stop.
Qed.

Lemma expression_loop_folds (r : obj) (sc : Scanner) (v : obj)
    (sc' : Scanner) :
  folds parses_term [ADD; SUB] r sc v sc' ->
  exists n, forall fuel, n <= fuel -> expression_loop fuel r sc = Ok v sc'.
Proof.
  induction 1 as [r sc Hla
                 | r sc op sc1 tree sc2 sym v sc' Hla Hc (m & Hf) Ho _ (n & IH)].
  - exists 1. intros [|fuel] Hle; [lia|].
    rewrite expression_loop_S, Hla. reflexivity.
  - exists (S (Nat.max n m)). intros [|fuel] Hle; [lia|].
    rewrite expression_loop_S, Hla.
    rewrite (bind_Ok _ _ _ _ _ Hc).
    rewrite (bind_Ok _ _ _ _ _
               (refines_Ok _ _ _ _ (term_fuel m fuel _ ltac:(lia)) Hf)).
    rewrite (bind_Ok _ _ _ _ _ (lift_Val _ _ _ Ho)).
    apply IH. lia.
Qed.

Lemma folds_expression_loop (fuel : nat) :
  forall r sc v sc',
    expression_loop fuel r sc = Ok v sc' ->
    folds parses_term [ADD; SUB] r sc v sc'.
Proof.
  induction fuel as [|fuel IH]; intros r sc v sc' H; [discriminate H|].
  rewrite expression_loop_S in H.
  destruct (token_in (lookahead sc) [ADD; SUB]) eqn:Hla.
  - apply bind_Ok_inv in H. destruct H as (op & sc1 & Hc & H).
    apply bind_Ok_inv in H. destruct H as (tree & sc2 & Hf & H).
    apply bind_Ok_inv in H. destruct H as (sym & sc3 & Ho & H).
    apply lift_Ok_inv in Ho. destruct Ho as (Ho & ->).
    eapply folds_turn; eauto. now exists fuel.
  - apply Ok_inj in H. destruct H as (<- & <-). now apply folds_stop.
Qed.

(** C3.  Chains of binary operators are folded to the left, and the
    operands of [+] and [-] are terms, in which [*] and [/] are folded
    first.  Each turn of the loop of [expression] (of [term]) makes the
    tree built so far the left operand of a new node whose right operand
    is the next term (factor); the loop stops where no operator of its
    level is ahead; [expression] is a term followed by its loop and
    [term] a factor followed by its loop.  So what [expression] returns
    is exactly a first term folded to the left with the terms of a chain
    of [+] and [-] of any length, and what [term] returns a first factor
    folded with the factors of a chain of [*] and [/].  Parsing
    ['1-2-3'] gives the tree that is rendered ['((1-2)-3)'], parsing
    ['1+2*3'] the one rendered ['(1+(2*3))'], and parsing ['2*3*4'] the
    one rendered ['((2*3)*4)']. *)
Theorem expression_left_assoc_precedence :
  (forall fuel result sc op sc1 tree sc2 sym,
     token_in (lookahead sc) [ADD; SUB] = true ->
     consume [ADD; SUB] sc = Ok op sc1 ->
     term fuel sc1 = Ok tree sc2 ->
     operator op = Val sym ->
     expression_loop (S fuel) result sc =
     expression_loop fuel (Expression_AST result sym tree) sc2) /\
  (forall fuel result sc op sc1 tree sc2 sym,
     token_in (lookahead sc) [MUL; DIV] = true ->
     consume [MUL; DIV] sc = Ok op sc1 ->
     factor fuel sc1 = Ok tree sc2 ->
     operator op = Val sym ->
     term_loop (S fuel) result sc =
     term_loop fuel (Expression_AST result sym tree) sc2) /\
  (forall fuel result sc,
     token_in (lookahead sc) [ADD; SUB] = false ->
     expression_loop (S fuel) result sc = Ok result sc) /\
  (forall fuel sc result sc1,
     term fuel sc = Ok result sc1 ->
     expression (S fuel) sc = expression_loop fuel result sc1) /\
  (forall fuel,
     8 <= fuel ->
     expression fuel (scanner_on "1-2-3") =
     Ok (Expression_AST
           (Expression_AST (Number_AST "1") "-" (Number_AST "2"))
           "-" (Number_AST "3"))
        (mkScanner "1-2-3" 5 (None, ""))) /\
  repr (Expression_AST
          (Expression_AST (Number_AST "1") "-" (Number_AST "2"))
          "-" (Number_AST "3")) = Val "((1-2)-3)" /\
  (forall fuel,
     8 <= fuel ->
     expression fuel (scanner_on "1+2*3") =
     Ok (Expression_AST (Number_AST "1") "+"
           (Expression_AST (Number_AST "2") "*" (Number_AST "3")))
        (mkScanner "1+2*3" 5 (None, ""))) /\
  repr (Expression_AST (Number_AST "1") "+"
          (Expression_AST (Number_AST "2") "*" (Number_AST "3")))
  = Val "(1+(2*3))" /\
  (forall fuel result sc,
     token_in (lookahead sc) [MUL; DIV] = false ->
     term_loop (S fuel) result sc = Ok result sc) /\
  (forall fuel sc result sc1,
     factor fuel sc = Ok result sc1 ->
     term (S fuel) sc = term_loop fuel result sc1) /\
  (forall r sc v sc',
     folds parses_term [ADD; SUB] r sc v sc' <->
     exists n, forall fuel, n <= fuel -> expression_loop fuel r sc = Ok v sc') /\
  (forall r sc v sc',
     folds parses_factor [MUL; DIV] r sc v sc' <->
     exists n, forall fuel, n <= fuel -> term_loop fuel r sc = Ok v sc') /\
  (forall sc v sc',
     (exists r sc1,
        parses_term sc r sc1 /\ folds parses_term [ADD; SUB] r sc1 v sc') <->
     exists n, forall fuel, n <= fuel -> expression fuel sc = Ok v sc') /\
  (forall sc v sc',
     (exists r sc1,
        parses_factor sc r sc1 /\
        folds parses_factor [MUL; DIV] r sc1 v sc') <->
     exists n, forall fuel, n <= fuel -> term fuel sc = Ok v sc') /\
  (forall fuel,
     8 <= fuel ->
     expression fuel (scanner_on "2*3*4") =
     Ok (Expression_AST
           (Expression_AST (Number_AST "2") "*" (Number_AST "3"))
           "*" (Number_AST "4"))
        (mkScanner "2*3*4" 5 (None, ""))) /\
  repr (Expression_AST
          (Expression_AST (Number_AST "2") "*" (Number_AST "3"))
          "*" (Number_AST "4")) = Val "((2*3)*4)".
Proof.
  split.
  { intros fuel result sc op sc1 tree sc2 sym Hla Hc Ht Ho.
    rewrite expression_loop_S, Hla.
    rewrite (bind_Ok _ _ _ _ _ Hc), (bind_Ok _ _ _ _ _ Ht).
    rewrite (bind_Ok _ _ _ _ _ (lift_Val _ _ _ Ho)). reflexivity. }
  split.
  { intros fuel result sc op sc1 tree sc2 sym Hla Hc Ht Ho.
    rewrite term_loop_S, Hla.
    rewrite (bind_Ok _ _ _ _ _ Hc), (bind_Ok _ _ _ _ _ Ht).
    rewrite (bind_Ok _ _ _ _ _ (lift_Val _ _ _ Ho)). reflexivity. }
  split.
  { intros fuel result sc Hla. rewrite expression_loop_S, Hla. reflexivity. }
  split.
  { intros fuel sc result sc1 Ht. rewrite expression_S.
    apply (bind_Ok _ _ _ _ _ Ht). }
  split.
  { intros fuel Hf.
    apply (refines_Ok _ _ _ _ (expression_fuel 8 fuel _ Hf)).
    vm_compute. reflexivity. }
  split; [vm_compute; reflexivity|].
  split.
  { intros fuel Hf.
    apply (refines_Ok _ _ _ _ (expression_fuel 8 fuel _ Hf)).
    vm_compute. reflexivity. }
  split; [vm_compute; reflexivity|].
  split.
  { intros fuel result sc Hla. rewrite term_loop_S, Hla. reflexivity. }
  split.
  { intros fuel sc result sc1 Hf. rewrite term_S.
    apply (bind_Ok _ _ _ _ _ Hf). }
  split.
  { intros r sc v sc'. split; [apply expression_loop_folds|].
    intros (n & H). exact (folds_expression_loop n _ _ _ _ (H n (le_n n))). }
  split.
  { intros r sc v sc'. split; [apply term_loop_folds|].
    intros (n & H). exact (folds_term_loop n _ _ _ _ (H n (le_n n))). }
  split.
  { intros sc v sc'. split.
    - intros (r & sc1 & (m & Ht) & Hfold).
      destruct (expression_loop_folds _ _ _ _ Hfold) as (n & Hn).
      exists (S (Nat.max n m)). intros [|fuel] Hle; [lia|].
      rewrite expression_S.
      rewrite (bind_Ok _ _ _ _ _
                 (refines_Ok _ _ _ _ (term_fuel m fuel _ ltac:(lia)) Ht)).
      apply Hn. lia.
    - intros ([|n] & H).
      + specialize (H 0 (le_n 0)). discriminate H.
      + specialize (H (S n) (le_n _)). rewrite expression_S in H.
        apply bind_Ok_inv in H. destruct H as (r & sc1 & Ht & H).
        exists r, sc1. split; [now exists n|].
        exact (folds_expression_loop n _ _ _ _ H). }
  split.
  { intros sc v sc'. split.
    - intros (r & sc1 & (m & Ht) & Hfold).
      destruct (term_loop_folds _ _ _ _ Hfold) as (n & Hn).
      exists (S (Nat.max n m)). intros [|fuel] Hle; [lia|].
      rewrite term_S.
      rewrite (bind_Ok _ _ _ _ _
                 (refines_Ok _ _ _ _ (factor_fuel m fuel _ ltac:(lia)) Ht)).
      apply Hn. lia.
    - intros ([|n] & H).
      + specialize (H 0 (le_n 0)). discriminate H.
      + specialize (H (S n) (le_n _)). rewrite term_S in H.
        apply bind_Ok_inv in H. destruct H as (r & sc1 & Ht & H).
        exists r, sc1. split; [now exists n|].
        exact (folds_term_loop n _ _ _ _ H). }
  split; [|vm_compute; reflexivity].
  intros fuel Hf.
  apply (refines_Ok _ _ _ _ (expression_fuel 8 fuel _ Hf)).
  vm_compute. reflexivity.
Qed.

Lemma expression_left_assoc_precedence_witness :
  expression_loop 3 (Number_AST "1") (mkScanner "1-2" 2 (Some SUB, "-")) =
  expression_loop 2 (Expression_AST (Number_AST "1") "-" (Number_AST "2"))
    (mkScanner "1-2" 3 (None, "")).
Proof.
  apply (proj1 expression_left_assoc_precedence)
    with (op := Tok (Some SUB)) (sc1 := mkScanner "1-2" 3 (Some NUM, "2"));
    vm_compute; reflexivity.
Defined.

(** C10.  A parenthesised expression is parsed to the tree of the
    expression inside: when [factor] finds [LPAR], what it returns is
    what [expression] returned between the parentheses, so ['(x)'] and
    ['x'] give the same tree.  In the other direction the single-line
    rendering puts every [Expression_AST] node between parentheses,
    whether the source had them or not: ['1+2'] is rendered ['(1+2)']. *)
Theorem parentheses_not_in_tree :
  (forall fuel sc c1 sc1 e sc2 c2 sc3,
     consume [LPAR] sc = Ok c1 sc1 ->
     expression fuel sc1 = Ok e sc2 ->
     consume [RPAR] sc2 = Ok c2 sc3 ->
     factor (S fuel) sc = Ok e sc3) /\
  (forall fuel,
     6 <= fuel ->
     factor fuel (scanner_on "(x)") =
       Ok (Identifier_AST "x") (mkScanner "(x)" 3 (None, "")) /\
     factor fuel (scanner_on "x") =
       Ok (Identifier_AST "x") (mkScanner "x" 1 (None, ""))) /\
  (forall left_ op right_ l r,
     repr left_ = Val l -> repr right_ = Val r ->
     repr (Expression_AST left_ op right_) = Val ("(" ++ l ++ op ++ r ++ ")")) /\
  (forall fuel,
     6 <= fuel ->
     (tree <- expression fuel ;; lift (repr tree)) (scanner_on "1+2") =
     Ok "(1+2)" (mkScanner "1+2" 3 (None, ""))).
Proof.
  split.
  { intros fuel sc c1 sc1 e sc2 c2 sc3 H1 He H2.
    rewrite factor_S.
    apply consume_Ok in H1 as Hla. destruct Hla as ((t & Hla & Hin) & _).
    destruct Hin as [<- | []].
    rewrite Hla. simpl is_token.
    replace (Token_eqb LPAR LPAR) with true by reflexivity.
    rewrite (bind_Ok _ _ _ _ _ H1), (bind_Ok _ _ _ _ _ He).
    rewrite (bind_Ok _ _ _ _ _ H2). reflexivity. }
  split.
  { intros fuel Hf. split.
    - apply (refines_Ok _ _ _ _ (factor_fuel 6 fuel _ Hf)).
      vm_compute. reflexivity.
    - apply (refines_Ok _ _ _ _ (factor_fuel 6 fuel _ Hf)).
      vm_compute. reflexivity. }
  split.
  { intros left_ op right_ l r Hl Hr. simpl. rewrite Hl, Hr. reflexivity. }
  intros fuel Hf.
  rewrite (bind_Ok _ _ _ (mkScanner "1+2" 3 (None, ""))
             (Expression_AST (Number_AST "1") "+" (Number_AST "2"))).
  - reflexivity.
  - apply (refines_Ok _ _ _ _ (expression_fuel 6 fuel _ Hf)).
    vm_compute. reflexivity.
Qed.

Lemma parentheses_not_in_tree_witness :
  factor 6 (mkScanner "(x)" 1 (Some LPAR, "(")) =
  Ok (Identifier_AST "x") (mkScanner "(x)" 3 (None, "")).
Proof.
  apply (proj1 parentheses_not_in_tree)
    with (c1 := Tok (Some LPAR)) (sc1 := mkScanner "(x)" 2 (Some ID, "x"))
         (sc2 := mkScanner "(x)" 3 (Some RPAR, ")")) (c2 := Tok (Some RPAR));
    vm_compute; reflexivity.
Defined.

End Expressions.

(** ** Statements *)

Section Statements.

Lemma wp_any {A} (c : M A) (sc : Scanner) : wp True c sc (fun _ _ => True).
Proof. unfold wp, holds. destruct (c sc); exact I. Qed.

(** What the procedures return is checked with these two steps: one for
    a call whose value is a tree, one for any other call. *)
Ltac tree_step H :=
  eapply wp_bind; [ apply H | intros ? ? ? ].

Ltac other_step :=
  eapply wp_bind; [ apply wp_any | intros ? ? _ ].

Lemma identifier_tree (sc : Scanner) :
  wp True identifier sc (fun v _ => statements_nonempty v = true).
Proof.
  unfold identifier. other_step. other_step. apply wp_ret. reflexivity.
Qed.

Lemma expression_trees (n : nat) :
  (forall sc,
     wp True (expression n) sc (fun v _ => statements_nonempty v = true)) /\
  (forall r sc, statements_nonempty r = true ->
     wp True (expression_loop n r) sc
       (fun v _ => statements_nonempty v = true)) /\
  (forall sc,
     wp True (term n) sc (fun v _ => statements_nonempty v = true)) /\
  (forall r sc, statements_nonempty r = true ->
     wp True (term_loop n r) sc (fun v _ => statements_nonempty v = true)) /\
  (forall sc,
     wp True (factor n) sc (fun v _ => statements_nonempty v = true)).
Proof.
  induction n as [|n (IHe & IHel & IHt & IHtl & IHf)].
  - repeat split; intros; exact I.
  - repeat split; intros.
    + rewrite expression_S. tree_step IHt. now apply IHel.
    + by_lookahead expression_loop_S.
      * other_step. tree_step IHt. other_step.
        apply IHel. simpl. now rewrite H, H0.
      * now apply wp_ret.
    + rewrite term_S. tree_step IHf. now apply IHtl.
    + by_lookahead term_loop_S.
      * other_step. tree_step IHf. other_step.
        apply IHtl. simpl. now rewrite H, H0.
      * now apply wp_ret.
    + by_lookahead factor_S.
      * other_step. tree_step IHe. other_step. now apply wp_ret.
      * other_step. other_step. now apply wp_ret.
      * apply identifier_tree.
      * eapply wp_bind; [apply wp_any | intros c ? _].
        apply wp_ret. destruct c as [[t|]|]; reflexivity.
Qed.

Lemma comparison_tree (n : nat) (sc : Scanner) :
  wp True (comparison n) sc (fun v _ => statements_nonempty v = true).
Proof.
  destruct (expression_trees n) as (He & _). unfold comparison.
  tree_step He. other_step. tree_step He. other_step.
  apply wp_ret. simpl. now rewrite H, H0.
Qed.

Lemma assignment_tree (n : nat) (sc : Scanner) :
  wp True (assignment n) sc (fun v _ => statements_nonempty v = true).
Proof.
  destruct (expression_trees n) as (He & _). unfold assignment.
  tree_step identifier_tree. other_step. tree_step He.
  apply wp_ret. simpl. now rewrite H, H0.
Qed.

Lemma read_tree (sc : Scanner) :
  wp True read sc (fun v _ => statements_nonempty v = true).
Proof.
  unfold read. other_step. tree_step identifier_tree. now apply wp_ret.
Qed.

Lemma write_tree (n : nat) (sc : Scanner) :
  wp True (write n) sc (fun v _ => statements_nonempty v = true).
Proof.
  destruct (expression_trees n) as (He & _). unfold write.
  other_step. tree_step He. now apply wp_ret.
Qed.

Lemma statements_trees (n : nat) :
  (forall sc, wp True (statements n) sc (fun v _ => nonempty_node v)) /\
  (forall r sc,
     r <> [] -> forallb statements_nonempty r = true ->
     wp True (statements_loop n r) sc (fun v _ => nonempty_node v)) /\
  (forall sc,
     wp True (statement n) sc (fun v _ => statements_nonempty v = true)) /\
  (forall sc,
     wp True (if_statement n) sc (fun v _ => statements_nonempty v = true)) /\
  (forall sc,
     wp True (while_statement n) sc
       (fun v _ => statements_nonempty v = true)).
Proof.
  induction n as [|n (IHs & IHsl & IHst & IHif & IHwh)].
  - repeat split; intros; exact I.
  - assert (IHs' : forall sc, wp True (statements n) sc
                     (fun v _ => statements_nonempty v = true)).
    { intros sc. eapply wp_conseq; [apply IHs|]. now intros ? ? (_ & ?). }
    repeat split; intros.
    + rewrite statements_S. tree_step IHst.
      apply IHsl; [discriminate|]. simpl. now rewrite H.
    + by_lookahead statements_loop_S.
      * other_step. tree_step IHst. apply IHsl.
        -- destruct r; discriminate.
        -- rewrite forallb_app, H0. simpl. now rewrite H1.
      * apply wp_ret. split.
        -- destruct r as [|st rest]; [contradiction|]. now exists st, rest.
        -- simpl. rewrite H0. destruct r; [contradiction|]. reflexivity.
    + by_lookahead statement_S.
      * apply IHif.
      * apply IHwh.
      * apply assignment_tree.
      * apply read_tree.
      * apply write_tree.
      * eapply wp_bind; [apply wp_any | intros c ? _].
        apply wp_ret. destruct c as [[t|]|]; reflexivity.
    + rewrite if_statement_S.
      other_step. tree_step comparison_tree. other_step. tree_step IHs'.
      unfold wp; cbv beta.
      repeat match goal with
             | |- holds _ (if ?b then _ else _) _ => destruct b eqn:?
             end; to_wp.
      * other_step. tree_step IHs'. other_step.
        apply wp_ret. simpl. now rewrite H, H0, H1.
      * other_step. apply wp_ret. simpl. now rewrite H, H0.
      * now apply wp_ret.
    + rewrite while_statement_S.
      other_step. tree_step comparison_tree. other_step. tree_step IHs'.
      other_step. apply wp_ret. simpl. now rewrite H, H0.
Qed.

(** C7.  Every [Statements_AST] node in what a successful parse returns
    holds at least one entry: what [statements] returns is such a node
    with a first entry, and all such nodes below it, and in the tree that
    [program] returns, have one. *)
Theorem statements_never_empty :
  (forall fuel sc v sc',
     statements fuel sc = Ok v sc' ->
     (exists st rest, v = Statements_AST (st :: rest)) /\
     statements_nonempty v = true) /\
  (forall fuel sc ast sc',
     program fuel sc = Ok ast sc' -> statements_nonempty ast = true) /\
  (forall fuel,
     10 <= fuel ->
     statements fuel (scanner_on "read x; write x") =
     Ok (Statements_AST [Read_AST (Identifier_AST "x");
                         Write_AST (Identifier_AST "x")])
        (mkScanner "read x; write x" 15 (None, ""))).
Proof.
  split; [|split].
  - intros fuel sc v sc' H.
    destruct (statements_trees fuel) as (Hs & _).
    exact (wp_Ok _ _ _ _ _ _ (Hs sc) H).
  - intros fuel sc ast sc' H.
    assert (Hp : wp True (program fuel) sc
                   (fun v _ => statements_nonempty v = true)).
    { unfold program. destruct (statements_trees fuel) as (Hs & _).
      eapply wp_bind; [apply Hs | intros v ? (_ & Hv)]. now apply wp_ret. }
    exact (wp_Ok _ _ _ _ _ _ Hp H).
  - intros fuel Hf.
    apply (refines_Ok _ _ _ _ (statements_fuel 10 fuel _ Hf)).
    vm_compute. reflexivity.
Qed.

Lemma statements_never_empty_witness :
  (exists st rest,
     Statements_AST [Write_AST (Identifier_AST "x")] =
     Statements_AST (st :: rest)) /\
  statements_nonempty (Statements_AST [Write_AST (Identifier_AST "x")]) = true.
Proof.
  apply (proj1 statements_never_empty 10
           (mkScanner "write x" 5 (Some WRITE, "write")) _
           (mkScanner "write x" 7 (None, ""))).
  vm_compute. reflexivity.
Defined.

End Statements.

(** ** The two forms of [if] *)

Section IfStatement.

Variables (fuel : nat) (sc sc1 sc2 sc3 sc4 : Scanner).
Variables (c1 c2 : consumed) (condition then_ : obj).

Hypothesis H_if : consume [IF] sc = Ok c1 sc1.
Hypothesis H_condition : comparison fuel sc1 = Ok condition sc2.
Hypothesis H_then : consume [THEN] sc2 = Ok c2 sc3.
Hypothesis H_branch : statements fuel sc3 = Ok then_ sc4.

(** After [IF Comparison THEN Statements] only the lookahead decides how
    [if_statement] goes on. *)
Lemma if_statement_decision :
  if_statement (S fuel) sc =
  if is_token (lookahead sc4) ELSE then
    (consume [ELSE] ;;;
     again <- statements fuel ;;
     consume [END] ;;;
     ret (If_Else_AST condition then_ again)) sc4
  else if is_token (lookahead sc4) END then
    (consume [END] ;;;
     ret (If_AST condition then_)) sc4
  else Ok PyNone sc4.
Proof.
  rewrite if_statement_S.
  rewrite (bind_Ok _ _ _ _ _ H_if), (bind_Ok _ _ _ _ _ H_condition).
  rewrite (bind_Ok _ _ _ _ _ H_then), (bind_Ok _ _ _ _ _ H_branch).
  reflexivity.
Qed.

End IfStatement.

Lemma is_token_false (found : option Token) (t : Token) :
  found <> Some t -> is_token found t = false.
Proof.
  intros H. destruct (is_token found t) eqn:E; [|reflexivity].
  apply is_token_true in E. contradiction.
Qed.

Lemma consume_unexpected (found : option Token) (e : Token) (sc : Scanner) :
  lookahead sc = found -> found <> Some e ->
  consume [e] sc =
  Abort ("syntax error: token in " ++
         Py.repr_list (Py.sorted_str (token_name e)) ++
         " expected but " ++ repr_token found ++ " found" ++ Py.nl)
    SystemExit.
Proof.
  intros Hla Hne. rewrite consume_unfold, Hla.
  unfold token_in. cbn [existsb]. rewrite (is_token_false _ _ Hne).
  cbn [orb]. unfold call_unexpected_token, unexpected_token, print_and_exit.
  rewrite !append_assoc. reflexivity.
Qed.

(** C4.  After [IF Comparison THEN Statements] the parser chooses by the
    lookahead alone: on [ELSE] it parses the else-branch and [END] and
    builds [If_Else_AST], on [END] it builds [If_AST].  So
    ['if x<1 then write x end'] gives an [If_AST] and
    ['if x<1 then write x else write x end'] an [If_Else_AST]. *)
Theorem if_form_by_lookahead :
  (forall fuel sc c1 sc1 condition sc2 c2 sc3 then_ sc4,
     consume [IF] sc = Ok c1 sc1 ->
     comparison fuel sc1 = Ok condition sc2 ->
     consume [THEN] sc2 = Ok c2 sc3 ->
     statements fuel sc3 = Ok then_ sc4 ->
     (lookahead sc4 = Some ELSE ->
      if_statement (S fuel) sc =
      (consume [ELSE] ;;;
       again <- statements fuel ;;
       consume [END] ;;;
       ret (If_Else_AST condition then_ again)) sc4) /\
     (lookahead sc4 = Some END ->
      if_statement (S fuel) sc =
      (consume [END] ;;;
       ret (If_AST condition then_)) sc4)) /\
  (forall fuel,
     12 <= fuel ->
     if_statement fuel (scanner_on "if x<1 then write x end") =
     Ok (If_AST (Comparison_AST (Identifier_AST "x") "<" (Number_AST "1"))
           (Statements_AST [Write_AST (Identifier_AST "x")]))
        (mkScanner "if x<1 then write x end" 23 (None, ""))) /\
  (forall fuel,
     12 <= fuel ->
     if_statement fuel (scanner_on "if x<1 then write x else write x end") =
     Ok (If_Else_AST
           (Comparison_AST (Identifier_AST "x") "<" (Number_AST "1"))
           (Statements_AST [Write_AST (Identifier_AST "x")])
           (Statements_AST [Write_AST (Identifier_AST "x")]))
        (mkScanner "if x<1 then write x else write x end" 36 (None, ""))).
Proof.
  split; [|split].
  - intros fuel sc c1 sc1 condition sc2 c2 sc3 then_ sc4 H1 H2 H3 H4.
    rewrite (if_statement_decision fuel sc sc1 sc2 sc3 sc4 c1 c2
               condition then_ H1 H2 H3 H4).
    split; intros Hla; rewrite Hla; reflexivity.
  - intros fuel Hf.
    apply (refines_Ok _ _ _ _ (if_statement_fuel 12 fuel _ Hf)).
    vm_compute. reflexivity.
  - intros fuel Hf.
    apply (refines_Ok _ _ _ _ (if_statement_fuel 12 fuel _ Hf)).
    vm_compute. reflexivity.
Qed.

Lemma if_form_by_lookahead_witness :
  if_statement 13 (mkScanner "if x<1 then write x end" 2 (Some IF, "if")) =
  (consume [END] ;;;
   ret (If_AST (Comparison_AST (Identifier_AST "x") "<" (Number_AST "1"))
          (Statements_AST [Write_AST (Identifier_AST "x")])))
    (mkScanner "if x<1 then write x end" 23 (Some END, "end")).
Proof.
  refine (proj2 (proj1 if_form_by_lookahead 12
    (mkScanner "if x<1 then write x end" 2 (Some IF, "if"))
    (Tok (Some IF))
    (mkScanner "if x<1 then write x end" 4 (Some ID, "x"))
    (Comparison_AST (Identifier_AST "x") "<" (Number_AST "1"))
    (mkScanner "if x<1 then write x end" 11 (Some THEN, "then"))
    (Tok (Some THEN))
    (mkScanner "if x<1 then write x end" 17 (Some WRITE, "write"))
    (Statements_AST [Write_AST (Identifier_AST "x")])
    (mkScanner "if x<1 then write x end" 23 (Some END, "end"))
    _ _ _ _) _); vm_compute; reflexivity.
Defined.

(** C9, as stated, fails where an else-branch was parsed: after it a
    lookahead that is not [END] is refused by [consume(Token.END)].  On
    ['if x<1 then write x else write x'] the lookahead after the
    else-branch is the end of the input, and [if_statement] does not
    return [None]: a syntax error is printed and the run exits. *)
Lemma if_else_without_end_exits :
  (consume [IF] ;;; comparison 12 ;;; consume [THEN] ;;; statements 12 ;;;
   consume [ELSE] ;;; statements 12)
    (scanner_on "if x<1 then write x else write x") =
  Ok (Statements_AST [Write_AST (Identifier_AST "x")])
     (mkScanner "if x<1 then write x else write x" 32 (None, "")) /\
  if_statement 13 (scanner_on "if x<1 then write x else write x") =
  Abort ("syntax error: token in ['D', 'E', 'N'] expected but None found"
         ++ Py.nl) SystemExit /\
  if_statement 13 (scanner_on "if x<1 then write x else write x") <>
  Ok PyNone (mkScanner "if x<1 then write x else write x" 32 (None, "")).
Proof.
  repeat split; try (vm_compute; reflexivity).
  vm_compute. intros H. discriminate H.
Qed.

(** C9, amended.  When, after [IF Comparison THEN Statements], the
    lookahead is neither [ELSE] nor [END], [if_statement] returns [None]
    and reports nothing, so the list of the enclosing [Statements_AST]
    holds [None]; on ['if x<1 then write x'] the parser returns such a
    tree, no syntax error is printed, and the run ends only when the
    tree is rendered.  When an else-branch was parsed, a lookahead other
    than [END] after it ends the run in [consume]. *)
Theorem if_statement_returns_None :
  (forall fuel sc c1 sc1 condition sc2 c2 sc3 then_ sc4,
     consume [IF] sc = Ok c1 sc1 ->
     comparison fuel sc1 = Ok condition sc2 ->
     consume [THEN] sc2 = Ok c2 sc3 ->
     statements fuel sc3 = Ok then_ sc4 ->
     lookahead sc4 <> Some ELSE -> lookahead sc4 <> Some END ->
     if_statement (S fuel) sc = Ok PyNone sc4) /\
  (forall fuel sc c1 sc1 condition sc2 c2 sc3 then_ sc4 c3 sc5 again sc6,
     consume [IF] sc = Ok c1 sc1 ->
     comparison fuel sc1 = Ok condition sc2 ->
     consume [THEN] sc2 = Ok c2 sc3 ->
     statements fuel sc3 = Ok then_ sc4 ->
     lookahead sc4 = Some ELSE ->
     consume [ELSE] sc4 = Ok c3 sc5 ->
     statements fuel sc5 = Ok again sc6 ->
     lookahead sc6 <> Some END ->
     exists printed e, if_statement (S fuel) sc = Abort printed e) /\
  (forall fuel,
     14 <= fuel ->
     program fuel (scanner_on "if x<1 then write x") =
     Ok (Program_AST (Statements_AST [PyNone]))
        (mkScanner "if x<1 then write x" 19 (None, ""))) /\
  main "if x<1 then write x" = Died "" AttributeError.
Proof.
  split; [|split; [|split]].
  - intros fuel sc c1 sc1 condition sc2 c2 sc3 then_ sc4 H1 H2 H3 H4 He Hn.
    rewrite (if_statement_decision fuel sc sc1 sc2 sc3 sc4 c1 c2
               condition then_ H1 H2 H3 H4).
    now rewrite (is_token_false _ _ He), (is_token_false _ _ Hn).
  - intros fuel sc c1 sc1 condition sc2 c2 sc3 then_ sc4 c3 sc5 again sc6
      H1 H2 H3 H4 Hla H5 H6 Hne.
    rewrite (if_statement_decision fuel sc sc1 sc2 sc3 sc4 c1 c2
               condition then_ H1 H2 H3 H4).
    rewrite Hla. simpl is_token.
    replace (Token_eqb ELSE ELSE) with true by reflexivity.
    rewrite (bind_Ok _ _ _ _ _ H5), (bind_Ok _ _ _ _ _ H6).
    unfold bind at 1.
    rewrite (consume_unexpected (lookahead sc6) END sc6 eq_refl Hne).
    eauto.
  - intros fuel Hf.
    apply (refines_Ok _ _ _ _ (program_fuel 14 fuel _ Hf)).
    vm_compute. reflexivity.
  - vm_compute. reflexivity.
Qed.

Lemma if_statement_returns_None_witness :
  if_statement 13 (mkScanner "if x<1 then write x" 2 (Some IF, "if")) =
  Ok PyNone (mkScanner "if x<1 then write x" 19 (None, "")).
Proof.
  refine (proj1 if_statement_returns_None 12
    (mkScanner "if x<1 then write x" 2 (Some IF, "if"))
    (Tok (Some IF))
    (mkScanner "if x<1 then write x" 4 (Some ID, "x"))
    (Comparison_AST (Identifier_AST "x") "<" (Number_AST "1"))
    (mkScanner "if x<1 then write x" 11 (Some THEN, "then"))
    (Tok (Some THEN))
    (mkScanner "if x<1 then write x" 17 (Some WRITE, "write"))
    (Statements_AST [Write_AST (Identifier_AST "x")])
    (mkScanner "if x<1 then write x" 19 (None, ""))
    _ _ _ _ _ _); try (vm_compute; reflexivity);
  vm_compute; intros H; discriminate H.
Defined.

(** ** The driver *)

(** C5.  When [program] has returned and the lookahead is a token, the
    driver prints that the end of the input was expected and that this
    token was found, and exits; nothing else is printed, in particular no
    rendering of the tree.  On ['x:=1 end'] the parser returns the tree
    of ['x:=1'] with [END] left as the lookahead, and the run ends so. *)
Theorem trailing_input_rejected :
  (forall text sc fuel ast sc' t,
     Scanner_init text = Ok tt sc ->
     program fuel sc = Ok ast sc' ->
     lookahead sc' = Some t ->
     main text =
     Died ("syntax error: end of input expected but token " ++
           Py.repr_str (token_name t) ++ " found" ++ Py.nl) SystemExit) /\
  (forall fuel,
     10 <= fuel ->
     program fuel (scanner_on "x:=1 end") =
     Ok (Program_AST
           (Statements_AST [Assign_AST (Identifier_AST "x") (Number_AST "1")]))
        (mkScanner "x:=1 end" 8 (Some END, "end"))) /\
  main "x:=1 end" =
  Died ("syntax error: end of input expected but token 'END' found" ++ Py.nl)
    SystemExit.
Proof.
  split; [|split].
  - intros text sc fuel ast sc' t Hi Hp Hla.
    unfold main. rewrite Hi. unfold run_parser.
    rewrite (program_fuel_for text sc fuel _ Hi Hp);
      [|intros H; discriminate H].
    rewrite Hla. cbn [is_None negb]. unfold repr_token.
    rewrite !append_assoc. reflexivity.
  - intros fuel Hf.
    apply (refines_Ok _ _ _ _ (program_fuel 10 fuel _ Hf)).
    vm_compute. reflexivity.
  - vm_compute. reflexivity.
Qed.

Lemma trailing_input_rejected_witness :
  main "x:=1 end" =
  Died ("syntax error: end of input expected but token " ++
        Py.repr_str (token_name END) ++ " found" ++ Py.nl) SystemExit.
Proof.
  apply (proj1 trailing_input_rejected "x:=1 end"
           (mkScanner "x:=1 end" 1 (Some ID, "x")) 10
           (Program_AST
              (Statements_AST
                 [Assign_AST (Identifier_AST "x") (Number_AST "1")]))
           (mkScanner "x:=1 end" 8 (Some END, "end")) END);
    vm_compute; reflexivity.
Defined.

(* ================================================================== *)
(** ** A lexical error inside the program *)

Section LexicalErrorInside.

Lemma error_ahead_lookahead (rest : string) (sc1 sc2 : Scanner) :
  error_ahead rest sc1 sc2 -> lookahead sc1 = lookahead sc2.
Proof.
  intros [s1 s2 _ Hc _ | s1 s2 tok s1' s2' _ Hc _ _ _];
    unfold lookahead; now rewrite Hc.
Qed.

Lemma error_ahead_buffered (rest : string) (sc1 sc2 : Scanner) :
  error_ahead rest sc1 sc2 -> lookahead sc1 <> None.
Proof. intros [s1 s2 H _ _ | s1 s2 tok s1' s2' H _ _ _ _]; exact H. Qed.

Lemma fatal_bind {A B} (rest : string) (c1 c2 : M A) (k1 k2 : A -> M B)
    (sc1 sc2 : Scanner) :
  fatal_or_same rest (c1 sc1) (c2 sc2) ->
  (forall v s1 s2, error_ahead rest s1 s2 ->
     fatal_or_same rest (k1 v s1) (k2 v s2)) ->
  fatal_or_same rest (bind c1 k1 sc1) (bind c2 k2 sc2).
Proof.
  unfold bind. intros H Hk.
  destruct (c1 sc1) as [v1 s1| |]; cbn [fatal_or_same] in H |- *.
  - destruct H as (s2 & -> & Hs). now apply Hk.
  - destruct H as [H | ->]; [now left | now right].
  - exact I.
Qed.

Lemma fatal_ret {A} (rest : string) (v : A) (sc1 sc2 : Scanner) :
  error_ahead rest sc1 sc2 -> fatal_or_same rest (ret v sc1) (ret v sc2).
Proof. intros H. exists sc2. split; [reflexivity | exact H]. Qed.

Lemma fatal_lift {A} (rest : string) (r : res A) (sc1 sc2 : Scanner) :
  error_ahead rest sc1 sc2 -> fatal_or_same rest (lift r sc1) (lift r sc2).
Proof.
  intros H. destruct r; simpl.
  - exists sc2. split; [reflexivity | exact H].
  - now right.
Qed.

(** [consume] with the error ahead: the token is refused on both sides
    alike, or it is consumed on both sides and the error is still ahead,
    or the scan after it raises the error. *)
Lemma fatal_consume (rest : string) (expected_tokens : list Token)
    (sc1 sc2 : Scanner) :
  error_ahead rest sc1 sc2 ->
  fatal_or_same rest (consume expected_tokens sc1) (consume expected_tokens sc2).
Proof.
  intros H. pose proof (error_ahead_lookahead _ _ _ H) as Hla.
  rewrite !consume_unfold, <- Hla.
  destruct (token_in (lookahead sc1) expected_tokens) eqn:Hin.
  - destruct H as [s1 s2 _ Hc Hg1 | s1 s2 tok s1' s2' _ Hc Hg1 Hg2 Hnext].
    + rewrite Hg1. left. split; reflexivity.
    + rewrite Hg1, Hg2, <- Hc. eexists. split; [reflexivity | exact Hnext].
  - unfold call_unexpected_token.
    destruct expected_tokens as [|e [|]]; right; reflexivity.
Qed.

Lemma fatal_identifier (rest : string) (sc1 sc2 : Scanner) :
  error_ahead rest sc1 sc2 ->
  fatal_or_same rest (identifier sc1) (identifier sc2).
Proof.
  intros H. unfold identifier.
  apply fatal_bind; [now apply fatal_consume | intros c s1 s2 Hs].
  apply fatal_bind; [now apply fatal_lift | intros v s1' s2' Hs'].
  now apply fatal_ret.
Qed.

(** One step for each shape a grammar procedure is made of. *)
Ltac fatal_steps :=
  repeat first
    [ solve [auto]
    | apply fatal_ret
    | apply fatal_lift
    | apply fatal_consume
    | apply fatal_identifier
    | apply fatal_bind; [ | intros ? ? ? ? ] ].

Lemma expression_fatal (rest : string) (n : nat) :
  (forall s1 s2, error_ahead rest s1 s2 ->
     fatal_or_same rest (expression n s1) (expression n s2)) /\
  (forall r s1 s2, error_ahead rest s1 s2 ->
     fatal_or_same rest (expression_loop n r s1) (expression_loop n r s2)) /\
  (forall s1 s2, error_ahead rest s1 s2 ->
     fatal_or_same rest (term n s1) (term n s2)) /\
  (forall r s1 s2, error_ahead rest s1 s2 ->
     fatal_or_same rest (term_loop n r s1) (term_loop n r s2)) /\
  (forall s1 s2, error_ahead rest s1 s2 ->
     fatal_or_same rest (factor n s1) (factor n s2)).
Proof.
  induction n as [|n (IHe & IHel & IHt & IHtl & IHf)].
  - repeat split; intros; exact I.
  - repeat split; intros.
    + rewrite !expression_S. fatal_steps.
    + rewrite !expression_loop_S, <- (error_ahead_lookahead _ _ _ H).
      destruct (token_in _ _); fatal_steps.
    + rewrite !term_S. fatal_steps.
    + rewrite !term_loop_S, <- (error_ahead_lookahead _ _ _ H).
      destruct (token_in _ _); fatal_steps.
    + rewrite !factor_S, <- (error_ahead_lookahead _ _ _ H).
      repeat (destruct (is_token _ _); [fatal_steps|]). fatal_steps.
Qed.

Lemma comparison_fatal (rest : string) (n : nat) (s1 s2 : Scanner) :
  error_ahead rest s1 s2 ->
  fatal_or_same rest (comparison n s1) (comparison n s2).
Proof.
  intros H. destruct (expression_fatal rest n) as (He & _).
  unfold comparison. fatal_steps.
Qed.

Lemma assignment_fatal (rest : string) (n : nat) (s1 s2 : Scanner) :
  error_ahead rest s1 s2 ->
  fatal_or_same rest (assignment n s1) (assignment n s2).
Proof.
  intros H. destruct (expression_fatal rest n) as (He & _).
  unfold assignment. fatal_steps.
Qed.

Lemma read_fatal (rest : string) (s1 s2 : Scanner) :
  error_ahead rest s1 s2 -> fatal_or_same rest (read s1) (read s2).
Proof. intros H. unfold read. fatal_steps. Qed.

Lemma write_fatal (rest : string) (n : nat) (s1 s2 : Scanner) :
  error_ahead rest s1 s2 -> fatal_or_same rest (write n s1) (write n s2).
Proof.
  intros H. destruct (expression_fatal rest n) as (He & _).
  unfold write. fatal_steps.
Qed.

Lemma statements_fatal (rest : string) (n : nat) :
  (forall s1 s2, error_ahead rest s1 s2 ->
     fatal_or_same rest (statements n s1) (statements n s2)) /\
  (forall r s1 s2, error_ahead rest s1 s2 ->
     fatal_or_same rest (statements_loop n r s1) (statements_loop n r s2)) /\
  (forall s1 s2, error_ahead rest s1 s2 ->
     fatal_or_same rest (statement n s1) (statement n s2)) /\
  (forall s1 s2, error_ahead rest s1 s2 ->
     fatal_or_same rest (if_statement n s1) (if_statement n s2)) /\
  (forall s1 s2, error_ahead rest s1 s2 ->
     fatal_or_same rest (while_statement n s1) (while_statement n s2)).
Proof.
  induction n as [|n (IHs & IHsl & IHst & IHif & IHwh)].
  - repeat split; intros; exact I.
  - pose proof (comparison_fatal rest n) as Hc.
    pose proof (assignment_fatal rest n) as Ha.
    pose proof (write_fatal rest n) as Hw.
    pose proof (read_fatal rest) as Hr.
    repeat split; intros.
    + rewrite !statements_S. fatal_steps.
    + rewrite !statements_loop_S, <- (error_ahead_lookahead _ _ _ H).
      destruct (is_token _ _); fatal_steps.
    + rewrite !statement_S, <- (error_ahead_lookahead _ _ _ H).
      repeat (destruct (is_token _ _); [fatal_steps|]). fatal_steps.
    + rewrite !if_statement_S. fatal_steps.
      rewrite <- (error_ahead_lookahead _ _ _ H3).
      repeat (destruct (is_token _ _); [fatal_steps|]). fatal_steps.
    + rewrite !while_statement_S. fatal_steps.
Qed.

Lemma program_fatal (rest : string) (n : nat) (s1 s2 : Scanner) :
  error_ahead rest s1 s2 -> fatal_or_same rest (program n s1) (program n s2).
Proof.
  intros H. destruct (statements_fatal rest n) as (Hs & _).
  unfold program. fatal_steps.
Qed.

(** With a lexical error ahead, the run reports it, or it dies as the run
    on any input with the same tokens before the error dies. *)
Lemma main_fatal (text1 text2 rest : string) (sc1 sc2 : Scanner) :
  Scanner_init text1 = Ok tt sc1 ->
  Scanner_init text2 = Ok tt sc2 ->
  error_ahead rest sc1 sc2 ->
  main text1 =
    Died ("lexical error: no token found at the start of " ++ rest ++ Py.nl)
      SystemExit \/
  exists printed e,
    main text1 = Died printed e /\ main text2 = Died printed e.
Proof.
  intros Hi1 Hi2 H. unfold main. rewrite Hi1, Hi2. unfold run_parser.
  pose proof (program_fatal rest (fuel_for text1) sc1 sc2 H) as Hf.
  pose proof (program_fuel_enough text1 sc1 Hi1) as Hfuel.
  destruct (program (fuel_for text1) sc1) as [ast s1| |] eqn:Hp1;
    cbn [fatal_or_same] in Hf.
  - destruct Hf as (s2 & Hp2 & Hs). right.
    rewrite (program_fuel_for text2 sc2 _ _ Hi2 Hp2)
      by (intros E; discriminate E).
    rewrite <- (error_ahead_lookahead _ _ _ Hs).
    pose proof (error_ahead_buffered _ _ _ Hs) as Hb.
    destruct (lookahead s1) as [t|]; [|now elim Hb]. cbn [is_None negb].
    eexists _, _. split; reflexivity.
  - destruct Hf as [(-> & ->) | Hp2]; [now left|]. right.
    rewrite (program_fuel_for text2 sc2 _ _ Hi2 Hp2)
      by (intros E; discriminate E).
    eexists _, _. split; reflexivity.
  - now elim Hfuel.
Qed.

(** C6.  When, after the white space is skipped, the cursor stands before
    the end of the input and no entry of the token table matches there,
    [get_token] prints the lexical error with the rest of the input and
    exits.  Nothing recovers from it: a [consume] that scans there ends
    the same way, an abort passes through every continuation, and the
    driver ends with what was printed, which holds no rendering of a
    tree.  This holds wherever in the program the error is met.  On an
    input with a lexical error ahead the run prints no tree; it reports
    that error, unless it dies before it scans there, and then it dies
    exactly as on any other input with the same tokens up to there.  So
    whenever an input with other text in the place of the one that
    cannot be scanned is parsed to the end, the run on the input with
    the error reports the lexical error.  ['x := #'] and
    ['x := 1; y := #'] end with the error at ['#'], and so does a
    ['while'] whose body holds the error inside parentheses. *)
Theorem lexical_error_is_fatal :
  (forall sc,
     current_char_index (skip_white_space sc) < String.length (input_string sc) ->
     no_entry_matches (text_at_cursor sc) ->
     get_token sc =
     Abort ("lexical error: no token found at the start of " ++
            text_at_cursor sc ++ Py.nl) SystemExit) /\
  (forall expected_tokens sc,
     token_in (lookahead sc) expected_tokens = true ->
     current_char_index (skip_white_space sc) < String.length (input_string sc) ->
     no_entry_matches (text_at_cursor sc) ->
     consume expected_tokens sc =
     Abort ("lexical error: no token found at the start of " ++
            text_at_cursor sc ++ Py.nl) SystemExit) /\
  (forall (A B : Type) (c : M A) (k : A -> M B) sc printed e,
     c sc = Abort printed e -> bind c k sc = Abort printed e) /\
  (forall text,
     let sc := mkScanner text 0 (None, "") in
     current_char_index (skip_white_space sc) < String.length text ->
     no_entry_matches (text_at_cursor sc) ->
     main text =
     Died ("lexical error: no token found at the start of " ++
           text_at_cursor sc ++ Py.nl) SystemExit) /\
  (forall text sc fuel printed e,
     Scanner_init text = Ok tt sc ->
     program fuel sc = Abort printed e ->
     main text = Died printed e) /\
  main "x := #" =
    Died ("lexical error: no token found at the start of #" ++ Py.nl)
      SystemExit /\
  (forall text1 text2 rest sc1 sc2,
     Scanner_init text1 = Ok tt sc1 ->
     Scanner_init text2 = Ok tt sc2 ->
     error_ahead rest sc1 sc2 ->
     main text1 =
       Died ("lexical error: no token found at the start of " ++
             rest ++ Py.nl) SystemExit \/
     exists printed e,
       main text1 = Died printed e /\ main text2 = Died printed e) /\
  (forall text1 text2 rest sc1 sc2 out,
     Scanner_init text1 = Ok tt sc1 ->
     Scanner_init text2 = Ok tt sc2 ->
     error_ahead rest sc1 sc2 ->
     main text2 = Finished out ->
     main text1 =
       Died ("lexical error: no token found at the start of " ++
             rest ++ Py.nl) SystemExit) /\
  (forall text1 text2 rest sc1 sc2 out,
     Scanner_init text1 = Ok tt sc1 ->
     Scanner_init text2 = Ok tt sc2 ->
     error_ahead rest sc1 sc2 ->
     main text1 <> Finished out) /\
  (forall rest fuel sc1 sc2 ast sc1',
     error_ahead rest sc1 sc2 ->
     program fuel sc1 = Ok ast sc1' ->
     lookahead sc1' <> None) /\
  main "x := 1; y := #" =
    Died ("lexical error: no token found at the start of #" ++ Py.nl)
      SystemExit /\
  main "while x < 1 do y := (2 * #) end" =
    Died ("lexical error: no token found at the start of #) end" ++ Py.nl)
      SystemExit.
Proof.
  split; [exact get_token_no_match|].
  split.
  { intros expected_tokens sc Hin Hlt Hnone.
    rewrite consume_unfold, Hin, (get_token_no_match sc Hlt Hnone).
    reflexivity. }
  split.
  { intros A B c k sc printed e H. unfold bind. rewrite H. reflexivity. }
  split.
  { intros text sc Hlt Hnone. unfold main, Scanner_init, bind.
    fold sc. rewrite (get_token_no_match sc Hlt Hnone). reflexivity. }
  split.
  { intros text sc fuel printed e Hi Hp. unfold main. rewrite Hi.
    unfold run_parser.
    rewrite (program_fuel_for text sc fuel _ Hi Hp); [reflexivity|].
    intros H; discriminate H. }
  split; [vm_compute; reflexivity|].
  split; [exact main_fatal|].
  split.
  { intros text1 text2 rest sc1 sc2 out Hi1 Hi2 H Hfin.
    destruct (main_fatal _ _ _ _ _ Hi1 Hi2 H) as [E | (p & e & _ & E)];
      [exact E|].
    rewrite Hfin in E. discriminate E. }
  split.
  { intros text1 text2 rest sc1 sc2 out Hi1 Hi2 H Hfin.
    destruct (main_fatal _ _ _ _ _ Hi1 Hi2 H) as [E | (p & e & E & _)];
      rewrite Hfin in E; discriminate E. }
  split.
  { intros rest fuel sc1 sc2 ast sc1' H Hp.
    pose proof (program_fatal rest fuel sc1 sc2 H) as Hf.
    rewrite Hp in Hf. destruct Hf as (s2 & _ & Hs).
    exact (error_ahead_buffered _ _ _ Hs). }
  split; vm_compute; reflexivity.
Qed.

Lemma lexical_error_is_fatal_witness :
  get_token (mkScanner "x := #" 4 (Some BEC, ":=")) =
  Abort ("lexical error: no token found at the start of #" ++ Py.nl)
    SystemExit.
Proof.
  apply (proj1 lexical_error_is_fatal (mkScanner "x := #" 4 (Some BEC, ":="))).
  - vm_compute. lia.
  - intros t r Hin. vm_compute in Hin.
    repeat (destruct Hin as [Hin | Hin];
            [injection Hin as <- <-; reflexivity|]).
    destruct Hin.
Defined.

(** An error inside the second statement: the inputs ['x := 1; y := #']
    and ['x := 1; y := 2'], once the scanner is built on them, have the
    same tokens up to the second [:=], after which the scan of the first
    raises the error at ['#']. *)
Example error_ahead_second_statement :
  Scanner_init "x := 1; y := #" =
    Ok tt (mkScanner "x := 1; y := #" 1 (Some ID, "x")) /\
  Scanner_init "x := 1; y := 2" =
    Ok tt (mkScanner "x := 1; y := 2" 1 (Some ID, "x")) /\
  error_ahead "#"
    (mkScanner "x := 1; y := #" 1 (Some ID, "x"))
    (mkScanner "x := 1; y := 2" 1 (Some ID, "x")).
Proof.
  split; [vm_compute; reflexivity|]. split; [vm_compute; reflexivity|].
  apply error_later
    with (tok := (Some BEC, ":="))
         (sc1' := mkScanner "x := 1; y := #" 4 (Some ID, "x"))
         (sc2' := mkScanner "x := 1; y := 2" 4 (Some ID, "x"));
    [ intros H; discriminate H | reflexivity
    | vm_compute; reflexivity | vm_compute; reflexivity
    | cbn [input_string current_char_index] ].
  apply error_later
    with (tok := (Some NUM, "1"))
         (sc1' := mkScanner "x := 1; y := #" 6 (Some BEC, ":="))
         (sc2' := mkScanner "x := 1; y := 2" 6 (Some BEC, ":="));
    [ intros H; discriminate H | reflexivity
    | vm_compute; reflexivity | vm_compute; reflexivity
    | cbn [input_string current_char_index] ].
  apply error_later
    with (tok := (Some SEM, ";"))
         (sc1' := mkScanner "x := 1; y := #" 7 (Some NUM, "1"))
         (sc2' := mkScanner "x := 1; y := 2" 7 (Some NUM, "1"));
    [ intros H; discriminate H | reflexivity
    | vm_compute; reflexivity | vm_compute; reflexivity
    | cbn [input_string current_char_index] ].
  apply error_later
    with (tok := (Some ID, "y"))
         (sc1' := mkScanner "x := 1; y := #" 9 (Some SEM, ";"))
         (sc2' := mkScanner "x := 1; y := 2" 9 (Some SEM, ";"));
    [ intros H; discriminate H | reflexivity
    | vm_compute; reflexivity | vm_compute; reflexivity
    | cbn [input_string current_char_index] ].
  apply error_later
    with (tok := (Some BEC, ":="))
         (sc1' := mkScanner "x := 1; y := #" 12 (Some ID, "y"))
         (sc2' := mkScanner "x := 1; y := 2" 12 (Some ID, "y"));
    [ intros H; discriminate H | reflexivity
    | vm_compute; reflexivity | vm_compute; reflexivity
    | cbn [input_string current_char_index] ].
  apply error_next;
    [ intros H; discriminate H | reflexivity | vm_compute; reflexivity ].
Qed.

End LexicalErrorInside.

(** * Further properties of the code *)

(** ** The texts of the tokens *)

Section TokenTexts.

Lemma prefix_append (p s : string) : String.prefix p (p ++ s) = true.
Proof.
  induction p as [|c p IH]; simpl; [now destruct s|].
  destruct (ascii_dec c c); [exact IH | contradiction].
Qed.

Lemma slice_from_S (n : nat) (c : ascii) (s : string) :
  Py.slice_from (S n) (String c s) = Py.slice_from n s.
Proof. reflexivity. Qed.

Lemma slice_from_O (s : string) : Py.slice_from 0 s = s.
Proof. reflexivity. Qed.

Lemma prefix_split (p s : string) :
  String.prefix p s = true -> s = p ++ Py.slice_from (String.length p) s.
Proof.
  revert s; induction p as [|a p IH]; intros [|b s]; simpl;
    try reflexivity; try discriminate.
  destruct (ascii_dec a b) as [->|]; [|discriminate].
  intros H. rewrite slice_from_S. f_equal. now apply IH.
Qed.

Lemma run_split (lo hi : ascii) (s : string) :
  s = run lo hi s ++ Py.slice_from (String.length (run lo hi s)) s.
Proof.
  induction s as [|c s IH]; simpl; [reflexivity|].
  destruct (in_range lo hi c); simpl.
  - rewrite slice_from_S. f_equal. exact IH.
  - reflexivity.
Qed.

Lemma run_all_in_range (lo hi : ascii) (s : string) :
  all_in_range lo hi (run lo hi s) = true.
Proof.
  induction s as [|c s IH]; simpl; [reflexivity|].
  destruct (in_range lo hi c) eqn:E; simpl; [now rewrite E | reflexivity].
Qed.

(** What [re.match] returns is a prefix of the text it was given. *)
Lemma re_match_split (r : regexp) (s m : string) :
  re_match r s = Some m -> s = m ++ Py.slice_from (String.length m) s.
Proof.
  destruct r as [text|lo hi]; simpl.
  - destruct (String.prefix text s) eqn:E; [|discriminate].
    intros [= <-]. now apply prefix_split.
  - pose proof (run_split lo hi s) as H.
    destruct (run lo hi s); [discriminate|]. now intros [= <-].
Qed.

(** No token occurs twice in the token table. *)
Lemma token_regexp_functional (t : Token) (r1 r2 : regexp) :
  In (t, r1) token_regexp -> In (t, r2) token_regexp -> r1 = r2.
Proof.
  intros H1 H2. vm_compute in H1, H2.
  repeat (destruct H1 as [H1 | H1];
          [ injection H1 as <- <-;
            repeat (destruct H2 as [H2 | H2];
                    [ first [ discriminate H2
                            | injection H2 as <-; reflexivity ] | ]);
            destruct H2 | ]).
  destruct H1.
Qed.

(** The selection of [get_token], stated for the returned pair. *)
Lemma get_token_munch (sc : Scanner) (t : Token) (m : string)
    (sc' : Scanner) :
  get_token sc = Ok (Some t, m) sc' ->
  exists i r,
    nth_error token_regexp i = Some (t, r) /\
    re_match r (text_at_cursor sc) = Some m /\
    forall j t' r' m',
      nth_error token_regexp j = Some (t', r') ->
      re_match r' (text_at_cursor sc) = Some m' ->
      String.length m' <= String.length m /\
      (String.length m' = String.length m -> i <= j).
Proof.
  intros Hg. apply get_token_selects in Hg. destruct Hg as (Hsel & _).
  pose proof (scan_table_maximal_munch token_regexp (text_at_cursor sc)) as H.
  rewrite <- Hsel in H. exact H.
Qed.

(** The text returned with a token of a literal entry is the literal. *)
Lemma token_text_literal (sc : Scanner) (t : Token) (m : string)
    (sc' : Scanner) (text : string) :
  get_token sc = Ok (Some t, m) sc' ->
  In (t, Lit text) token_regexp -> m = text.
Proof.
  intros Hg Ht. destruct (get_token_munch sc t m sc' Hg)
    as (i & r & Hi & Hm & _).
  pose proof (nth_error_In _ _ Hi) as Hin.
  rewrite (token_regexp_functional _ _ _ Hin Ht) in Hm.
  simpl in Hm. destruct (String.prefix _ _); [|discriminate Hm].
  now injection Hm.
Qed.

(** The text returned with a token of a range entry is a non-empty run
    of characters of the range. *)
Lemma token_text_plus (sc : Scanner) (t : Token) (m : string)
    (sc' : Scanner) (lo hi : ascii) :
  get_token sc = Ok (Some t, m) sc' ->
  In (t, Plus lo hi) token_regexp ->
  m <> "" /\ all_in_range lo hi m = true.
Proof.
  intros Hg Ht. destruct (get_token_munch sc t m sc' Hg)
    as (i & r & Hi & Hm & _).
  pose proof (nth_error_In _ _ Hi) as Hin.
  rewrite (token_regexp_functional _ _ _ Hin Ht) in Hm.
  simpl in Hm.
  pose proof (run_all_in_range lo hi (text_at_cursor sc)) as Hall.
  destruct (run lo hi (text_at_cursor sc)); [discriminate Hm|].
  injection Hm as <-. split; [discriminate | exact Hall].
Qed.

(** The text returned with [ID] is the literal of no entry: a keyword of
    that length would have been selected, being earlier in the table. *)
Lemma id_text_not_literal (sc : Scanner) (m : string) (sc' : Scanner) :
  get_token sc = Ok (Some ID, m) sc' -> ~ is_literal m.
Proof.
  intros Hg (t' & Ht'). destruct (get_token_munch sc ID m sc' Hg)
    as (i & r & Hi & Hm & Hmax).
  destruct (In_nth_error _ _ Ht') as (j & Hj).
  assert (Hmj : re_match (Lit m) (text_at_cursor sc) = Some m).
  { simpl. rewrite (re_match_split _ _ _ Hm) at 1.
    now rewrite prefix_append. }
  destruct (Hmax _ _ _ _ Hj Hmj) as (_ & Hle).
  specialize (Hle eq_refl).
  assert (i = 23).
  { clear - Hi. do 24 (destruct i as [|i]; [try discriminate Hi; reflexivity|]).
    destruct i; discriminate Hi. }
  subst i.
  clear - Hj Hle. do 23 (destruct j as [|j]; [lia|]).
  destruct j as [|j]; [discriminate Hj|]. destruct j; discriminate Hj.
Qed.

(** X1.  The text returned with a token is the text its own entry of the
    table describes: for a keyword or a symbol the literal of the entry,
    for [NUM] a non-empty run of digits, for [ID] a non-empty run of
    lower-case letters; and the text of an [ID] is never a keyword. *)
Theorem token_text_of_its_kind (sc : Scanner) (t : Token) (m : string)
    (sc' : Scanner) :
  get_token sc = Ok (Some t, m) sc' ->
  (forall text, In (t, Lit text) token_regexp -> m = text) /\
  (t = NUM -> m <> "" /\ all_in_range "0" "9" m = true) /\
  (t = ID -> m <> "" /\ all_in_range "a" "z" m = true /\ ~ is_literal m).
Proof.
  intros Hg. split; [|split].
  - intros text Ht. exact (token_text_literal sc t m sc' text Hg Ht).
  - intros ->. apply (token_text_plus sc NUM m sc' "0" "9" Hg).
    vm_compute. tauto.
  - intros ->.
    destruct (token_text_plus sc ID m sc' "a" "z" Hg) as (Hne & Hall);
      [vm_compute; tauto|].
    split; [exact Hne|]. split; [exact Hall|].
    exact (id_text_not_literal sc m sc' Hg).
Qed.

Lemma token_text_of_its_kind_witness :
  (forall text, In (ID, Lit text) token_regexp -> "whilex" = text) /\
  (ID = NUM -> "whilex" <> "" /\ all_in_range "0" "9" "whilex" = true) /\
  (ID = ID ->
   "whilex" <> "" /\ all_in_range "a" "z" "whilex" = true /\
   ~ is_literal "whilex").
Proof.
  apply (token_text_of_its_kind (mkScanner "whilex" 0 (None, "")) ID "whilex"
           (mkScanner "whilex" 6 (None, ""))).
  vm_compute. reflexivity.
Defined.

(** The text returned by [get_token] is the input from the index reached
    by skipping white space to the new index. *)
Lemma get_token_slice (sc : Scanner) (tok : option Token) (longest : string)
    (sc' : Scanner) :
  get_token sc = Ok (tok, longest) sc' ->
  current_char_index sc' =
    current_char_index (skip_white_space sc) + String.length longest /\
  text_at_cursor sc =
    longest ++ Py.slice_from (current_char_index sc') (input_string sc).
Proof.
  intros Hg. apply get_token_selects in Hg.
  destruct Hg as (Hsel & ->). cbn [input_string current_char_index snd].
  split; [reflexivity|].
  destruct (scan_table_acc (text_at_cursor sc) token_regexp (None, ""))
    as (_ & _ & Hacc).
  rewrite <- Hsel in Hacc. cbn [fst snd] in Hacc. clear Hsel.
  destruct Hacc as [Heq | (i & t & r & _ & _ & Hm & _)].
  - injection Heq as _ ->. unfold text_at_cursor. simpl.
    now rewrite Nat.add_0_r.
  - apply re_match_split in Hm. rewrite Hm at 1.
    unfold text_at_cursor. now rewrite slice_from_add.
Qed.

(** No token is returned exactly when the text is empty, and only at the
    end of the input. *)
Lemma get_token_None (sc : Scanner) (tok : option Token) (longest : string)
    (sc' : Scanner) :
  get_token sc = Ok (tok, longest) sc' ->
  (tok = None <-> longest = "") /\
  (tok = None ->
   String.length (input_string sc) <=
   current_char_index (skip_white_space sc)).
Proof.
  intros Hg. pose proof Hg as Hsel. apply get_token_selects in Hsel.
  destruct Hsel as (Hsel & _).
  destruct (scan_table_lengths token_regexp (text_at_cursor sc))
    as (_ & Hnone & Hsome).
  rewrite get_token_unfold in Hg. cbv zeta in Hg.
  rewrite <- Hsel in *. cbn [fst snd] in *. clear Hsel.
  split.
  - split; [exact Hnone|].
    intros ->. destruct tok; [|reflexivity].
    assert (0 < String.length "") by (apply Hsome; discriminate).
    simpl in *; lia.
  - intros ->. cbn [is_None andb] in Hg.
    destruct (Nat.ltb_spec (current_char_index (skip_white_space sc))
                (String.length (input_string sc))); [discriminate Hg | lia].
Qed.

(** X2.  What [get_token] returns is cut out of the input: the text is
    the part of the input between the index reached by skipping white
    space and the new index, it is empty exactly when no token is
    returned, and no token is returned only when nothing but white space
    was left. *)
Theorem get_token_text (sc : Scanner) (tok : option Token) (longest : string)
    (sc' : Scanner) :
  get_token sc = Ok (tok, longest) sc' ->
  input_string sc' = input_string sc /\
  current_char_index sc' =
    current_char_index (skip_white_space sc) + String.length longest /\
  text_at_cursor sc =
    longest ++ Py.slice_from (current_char_index sc') (input_string sc) /\
  (tok = None <-> longest = "") /\
  (tok = None ->
   String.length (input_string sc) <=
   current_char_index (skip_white_space sc)).
Proof.
  intros Hg.
  destruct (get_token_slice sc tok longest sc' Hg) as (Hc & Ht).
  destruct (get_token_None sc tok longest sc' Hg) as (Hn & He).
  split.
  - apply get_token_selects in Hg. destruct Hg as (_ & ->). reflexivity.
  - repeat split; try assumption; apply Hn.
Qed.

Lemma get_token_text_witness :
  input_string (mkScanner "a <= b" 4 (Some ID, "a")) = "a <= b" /\
  4 = current_char_index (skip_white_space (mkScanner "a <= b" 1 (Some ID, "a")))
      + String.length "<=" /\
  text_at_cursor (mkScanner "a <= b" 1 (Some ID, "a")) =
    "<=" ++ Py.slice_from 4 "a <= b" /\
  (Some LEQ = None <-> "<=" = "") /\
  (Some LEQ = None ->
   String.length "a <= b" <=
   current_char_index (skip_white_space (mkScanner "a <= b" 1 (Some ID, "a")))).
Proof.
  apply (get_token_text (mkScanner "a <= b" 1 (Some ID, "a")) (Some LEQ) "<="
           (mkScanner "a <= b" 4 (Some ID, "a"))).
  vm_compute. reflexivity.
Defined.

End TokenTexts.

(** ** Invariants of the scanner *)

Section ScannerInvariants.

(** X3.  In every scanner state a client can observe, the input is the
    text the scanner was built on, the index lies inside it, and the
    buffered text is the part of the input that ends at the index; no
    token is buffered exactly when that text is empty. *)
Theorem reachable_invariant (text : string) (sc : Scanner) :
  reachable text sc ->
  input_string sc = text /\
  current_char_index sc <= String.length text /\
  String.length (snd (current_token sc)) <= current_char_index sc /\
  Py.slice_from
    (current_char_index sc - String.length (snd (current_token sc))) text =
    snd (current_token sc) ++ Py.slice_from (current_char_index sc) text /\
  (lookahead sc = None <-> snd (current_token sc) = "").
Proof.
  assert (Hscan : forall sc0 tok sc1,
            in_bounds sc0 -> input_string sc0 = text ->
            get_token sc0 = Ok tok sc1 ->
            let sc' := mkScanner (input_string sc1)
                         (current_char_index sc1) tok in
            input_string sc' = text /\
            current_char_index sc' <= String.length text /\
            String.length (snd (current_token sc')) <= current_char_index sc' /\
            Py.slice_from
              (current_char_index sc'
               - String.length (snd (current_token sc'))) text =
              snd (current_token sc') ++
              Py.slice_from (current_char_index sc') text /\
            (lookahead sc' = None <-> snd (current_token sc') = "")).
  { intros sc0 [tok longest] sc1 Hb Hi Hg. cbv zeta.
    unfold lookahead. cbn [input_string current_char_index current_token fst snd].
    destruct (get_token_bounds sc0 _ _ Hb Hg) as (Hb1 & Hi1 & _ & _).
    destruct (get_token_slice sc0 _ _ _ Hg) as (Hc & Ht).
    destruct (get_token_None sc0 _ _ _ Hg) as (Hnone & _).
    unfold in_bounds in Hb1. rewrite Hi1, Hi in *.
    split; [reflexivity|]. split; [exact Hb1|]. split; [lia|].
    split; [|exact Hnone].
    rewrite <- Ht. unfold text_at_cursor. rewrite Hi. f_equal. lia. }
  induction 1 as [sc Hinit | sc expected_tokens v sc' Hr IH Hc].
  - unfold Scanner_init, bind in Hinit.
    destruct (get_token (mkScanner text 0 (None, ""))) as [tok sc1| |] eqn:Hg;
      [ | discriminate Hinit | discriminate Hinit ].
    apply Ok_inj in Hinit. destruct Hinit as (_ & <-).
    apply (Hscan (mkScanner text 0 (None, ""))); auto.
    unfold in_bounds; simpl; lia.
  - destruct IH as (Hi & Hb & _).
    apply consume_Ok in Hc. destruct Hc as (_ & sc1 & Hg & Hi1 & Hc1).
    assert (Hsc' : sc' = mkScanner (input_string sc1)
                           (current_char_index sc1) (current_token sc'))
      by (destruct sc'; simpl in *; now subst).
    rewrite Hsc'. apply (Hscan sc); auto.
    unfold in_bounds. now rewrite Hi.
Qed.

Lemma reachable_invariant_witness :
  input_string (mkScanner "x := 1" 4 (Some BEC, ":=")) = "x := 1" /\
  4 <= String.length "x := 1" /\
  String.length ":=" <= 4 /\
  Py.slice_from (4 - String.length ":=") "x := 1" =
    ":=" ++ Py.slice_from 4 "x := 1" /\
  (lookahead (mkScanner "x := 1" 4 (Some BEC, ":=")) = None <-> ":=" = "").
Proof.
  apply (reachable_invariant "x := 1" (mkScanner "x := 1" 4 (Some BEC, ":="))).
  apply reach_consume
    with (sc := mkScanner "x := 1" 1 (Some ID, "x"))
         (expected_tokens := [ID]) (v := TokVal ID "x").
  - apply reach_init. vm_compute. reflexivity.
  - vm_compute. reflexivity.
Defined.

(** X4.  The token sequence is finite: every [consume] that returns
    leaves less to parse, so after construction on [text] at most as many
    calls of [consume] can return as [text] has characters. *)
Theorem consumes_bounded (text : string) (sc sc' : Scanner) (n : nat) :
  Scanner_init text = Ok tt sc ->
  consumes n sc sc' ->
  n + remaining sc' <= String.length text.
Proof.
  intros Hinit Hn.
  destruct (Scanner_init_bounds text sc Hinit) as (Hb & _ & Hr).
  enough (H : in_bounds sc -> n + remaining sc' <= remaining sc)
    by (specialize (H Hb); lia).
  clear Hinit Hr Hb.
  induction Hn as [sc | n sc expected_tokens v sc1 sc2 Hc _ IH]; [lia|].
  intros Hb.
  destruct (consume_progress _ _ _ _ Hb Hc) as (Hb1 & Hlt & _).
  specialize (IH Hb1). lia.
Qed.

Lemma consumes_bounded_witness :
  2 + remaining (mkScanner "x := 1" 6 (Some NUM, "1")) <=
  String.length "x := 1".
Proof.
  apply (consumes_bounded "x := 1" (mkScanner "x := 1" 1 (Some ID, "x"))).
  - vm_compute. reflexivity.
  - apply consumes_S with (expected_tokens := [ID]) (v := TokVal ID "x")
      (sc1 := mkScanner "x := 1" 4 (Some BEC, ":="));
      [vm_compute; reflexivity|].
    apply consumes_S with (expected_tokens := [BEC]) (v := Tok (Some BEC))
      (sc1 := mkScanner "x := 1" 6 (Some NUM, "1"));
      [vm_compute; reflexivity|].
    apply consumes_O.
Defined.

End ScannerInvariants.

(** ** White space *)

Section WhiteSpace.

Lemma skip_loop_split (rest : string) (i : nat) :
  exists ws,
    rest = ws ++ Py.slice_from (skip_loop rest i - i) rest /\
    all_space ws = true /\
    skip_loop rest i = i + String.length ws /\
    starts_with_space (Py.slice_from (skip_loop rest i - i) rest) = false.
Proof.
  revert i; induction rest as [|c rest IH]; intros i; simpl.
  - exists "". rewrite Nat.sub_diag. repeat split; simpl; lia.
  - destruct (Py.isspace c) eqn:E.
    + destruct (IH (i + 1)) as (ws & Hr & Hall & Hlen & Hstop).
      pose proof (skip_loop_bounds rest (i + 1)) as B.
      replace (skip_loop rest (i + 1) - i)
        with (S (skip_loop rest (i + 1) - (i + 1))) by lia.
      rewrite slice_from_S.
      exists (String c ws). simpl. rewrite E, Hall, <- Hr.
      repeat split; [lia | exact Hstop].
    + exists "". rewrite Nat.sub_diag, slice_from_O. simpl.
      repeat split; [lia | exact E].
Qed.

(** X5.  [skip_white_space] moves the index over white space only and as
    far as it goes: the input from the old index is a run of white-space
    characters followed by the input from the new index, and that does
    not start with white space. *)
Theorem skip_white_space_spec (sc : Scanner) :
  input_string (skip_white_space sc) = input_string sc /\
  current_token (skip_white_space sc) = current_token sc /\
  exists ws,
    Py.slice_from (current_char_index sc) (input_string sc) =
      ws ++ text_at_cursor sc /\
    all_space ws = true /\
    current_char_index (skip_white_space sc) =
      current_char_index sc + String.length ws /\
    starts_with_space (text_at_cursor sc) = false.
Proof.
  split; [reflexivity|]. split; [reflexivity|].
  unfold text_at_cursor, skip_white_space.
  cbn [input_string current_char_index].
  set (rest := Py.slice_from (current_char_index sc) (input_string sc)).
  destruct (skip_loop_split rest (current_char_index sc))
    as (ws & Hr & Hall & Hlen & Hstop).
  assert (Hs : Py.slice_from (skip_loop rest (current_char_index sc))
                 (input_string sc) =
               Py.slice_from (skip_loop rest (current_char_index sc)
                              - current_char_index sc) rest).
  { pose proof (skip_loop_bounds rest (current_char_index sc)).
    unfold rest. rewrite slice_from_add. f_equal. fold rest. lia. }
  exists ws. rewrite Hs. auto.
Qed.

End WhiteSpace.

(** ** The parser sees tokens only *)

Section SameTokens.

Lemma same_tokens_lookahead (sc1 sc2 : Scanner) :
  same_tokens sc1 sc2 -> lookahead sc1 = lookahead sc2.
Proof.
  intros [s1 s2 H1 H2 | s1 s2 tok s1' s2' _ Hc _ _ _].
  - now rewrite H1, H2.
  - unfold lookahead. now rewrite Hc.
Qed.

Lemma agree_bind {A B} (c1 c2 : M A) (k1 k2 : A -> M B) (sc1 sc2 : Scanner) :
  agree (c1 sc1) (c2 sc2) ->
  (forall v s1 s2, same_tokens s1 s2 -> agree (k1 v s1) (k2 v s2)) ->
  agree (bind c1 k1 sc1) (bind c2 k2 sc2).
Proof.
  unfold bind. intros H Hk.
  destruct (c1 sc1) as [v1 s1| |], (c2 sc2) as [v2 s2| |];
    simpl in H; try contradiction; try exact H.
  destruct H as (<- & Hs). now apply Hk.
Qed.

Lemma agree_ret {A} (v : A) (sc1 sc2 : Scanner) :
  same_tokens sc1 sc2 -> agree (ret v sc1) (ret v sc2).
Proof. intros H. split; [reflexivity | exact H]. Qed.

Lemma agree_lift {A} (r : res A) (sc1 sc2 : Scanner) :
  same_tokens sc1 sc2 -> agree (lift r sc1) (lift r sc2).
Proof.
  intros H. destruct r; simpl; split; auto.
Qed.

Lemma call_unexpected_token_agree {A} (found : option Token)
    (expected_tokens : list Token) (sc1 sc2 : Scanner) :
  agree (call_unexpected_token (A := A) found expected_tokens sc1)
        (call_unexpected_token found expected_tokens sc2).
Proof.
  unfold call_unexpected_token.
  destruct expected_tokens as [|e [|]]; simpl; split; reflexivity.
Qed.

Lemma agree_consume (expected_tokens : list Token) (sc1 sc2 : Scanner) :
  same_tokens sc1 sc2 ->
  agree (consume expected_tokens sc1) (consume expected_tokens sc2).
Proof.
  intros H. pose proof (same_tokens_lookahead _ _ H) as Hla.
  rewrite !consume_unfold, <- Hla.
  destruct (token_in (lookahead sc1) expected_tokens) eqn:Hin;
    [|apply call_unexpected_token_agree].
  destruct H as [s1 s2 H1 H2 | s1 s2 tok s1' s2' _ Hc Hg1 Hg2 Hnext].
  - apply token_in_Some in Hin. destruct Hin as (t & Ht & _).
    rewrite H1 in Ht. discriminate Ht.
  - rewrite Hg1, Hg2, <- Hc. split; [reflexivity | exact Hnext].
Qed.

Lemma agree_identifier (sc1 sc2 : Scanner) :
  same_tokens sc1 sc2 -> agree (identifier sc1) (identifier sc2).
Proof.
  intros H. unfold identifier.
  apply agree_bind; [now apply agree_consume | intros c s1 s2 Hs].
  apply agree_bind; [now apply agree_lift | intros v s1' s2' Hs'].
  now apply agree_ret.
Qed.

(** One step for each shape a grammar procedure is made of. *)
Ltac agree_steps :=
  repeat first
    [ solve [auto]
    | apply agree_ret
    | apply agree_lift
    | apply agree_consume
    | apply agree_identifier
    | apply agree_bind; [ | intros ? ? ? ? ] ].

Lemma expression_agree (n : nat) :
  (forall s1 s2, same_tokens s1 s2 ->
     agree (expression n s1) (expression n s2)) /\
  (forall r s1 s2, same_tokens s1 s2 ->
     agree (expression_loop n r s1) (expression_loop n r s2)) /\
  (forall s1 s2, same_tokens s1 s2 -> agree (term n s1) (term n s2)) /\
  (forall r s1 s2, same_tokens s1 s2 ->
     agree (term_loop n r s1) (term_loop n r s2)) /\
  (forall s1 s2, same_tokens s1 s2 -> agree (factor n s1) (factor n s2)).
Proof.
  induction n as [|n (IHe & IHel & IHt & IHtl & IHf)].
  - repeat split; intros; exact I.
  - repeat split; intros.
    + rewrite !expression_S. agree_steps.
    + rewrite !expression_loop_S, <- (same_tokens_lookahead _ _ H).
      destruct (token_in _ _); agree_steps.
    + rewrite !term_S. agree_steps.
    + rewrite !term_loop_S, <- (same_tokens_lookahead _ _ H).
      destruct (token_in _ _); agree_steps.
    + rewrite !factor_S, <- (same_tokens_lookahead _ _ H).
      repeat (destruct (is_token _ _); [agree_steps|]). agree_steps.
Qed.

Lemma comparison_agree (n : nat) (s1 s2 : Scanner) :
  same_tokens s1 s2 -> agree (comparison n s1) (comparison n s2).
Proof.
  intros H. destruct (expression_agree n) as (He & _).
  unfold comparison. agree_steps.
Qed.

Lemma assignment_agree (n : nat) (s1 s2 : Scanner) :
  same_tokens s1 s2 -> agree (assignment n s1) (assignment n s2).
Proof.
  intros H. destruct (expression_agree n) as (He & _).
  unfold assignment. agree_steps.
Qed.

Lemma read_agree (s1 s2 : Scanner) :
  same_tokens s1 s2 -> agree (read s1) (read s2).
Proof. intros H. unfold read. agree_steps. Qed.

Lemma write_agree (n : nat) (s1 s2 : Scanner) :
  same_tokens s1 s2 -> agree (write n s1) (write n s2).
Proof.
  intros H. destruct (expression_agree n) as (He & _).
  unfold write. agree_steps.
Qed.

Lemma statements_agree (n : nat) :
  (forall s1 s2, same_tokens s1 s2 ->
     agree (statements n s1) (statements n s2)) /\
  (forall r s1 s2, same_tokens s1 s2 ->
     agree (statements_loop n r s1) (statements_loop n r s2)) /\
  (forall s1 s2, same_tokens s1 s2 ->
     agree (statement n s1) (statement n s2)) /\
  (forall s1 s2, same_tokens s1 s2 ->
     agree (if_statement n s1) (if_statement n s2)) /\
  (forall s1 s2, same_tokens s1 s2 ->
     agree (while_statement n s1) (while_statement n s2)).
Proof.
  induction n as [|n (IHs & IHsl & IHst & IHif & IHwh)].
  - repeat split; intros; exact I.
  - pose proof (comparison_agree n) as Hc.
    pose proof (assignment_agree n) as Ha.
    pose proof (write_agree n) as Hw.
    pose proof read_agree as Hr.
    repeat split; intros.
    + rewrite !statements_S. agree_steps.
    + rewrite !statements_loop_S, <- (same_tokens_lookahead _ _ H).
      destruct (is_token _ _); agree_steps.
    + rewrite !statement_S, <- (same_tokens_lookahead _ _ H).
      repeat (destruct (is_token _ _); [agree_steps|]). agree_steps.
    + rewrite !if_statement_S. agree_steps.
      rewrite <- (same_tokens_lookahead _ _ H3).
      repeat (destruct (is_token _ _); [agree_steps|]). agree_steps.
    + rewrite !while_statement_S. agree_steps.
Qed.

Lemma program_agree (n : nat) (s1 s2 : Scanner) :
  same_tokens s1 s2 -> agree (program n s1) (program n s2).
Proof.
  intros H. destruct (statements_agree n) as (Hs & _).
  unfold program. agree_steps.
Qed.

(** The token a scan returned is the first of the tokens from there. *)
Lemma tokens_from_S (fuel : nat) (sc : Scanner) :
  tokens_from (S fuel) sc =
  match current_token sc with
  | (None, _) => Some []
  | (Some t, m) =>
      match get_token sc with
      | Ok tok sc' =>
          option_map (cons (t, m))
            (tokens_from fuel
               (mkScanner (input_string sc') (current_char_index sc') tok))
      | _ => None
      end
  end.
Proof. reflexivity. Qed.

(** The tokens from a scanner with a buffered token: that token, then the
    tokens from the scanner after the next scan. *)
Lemma tokens_from_cons (fuel : nat) (sc : Scanner)
    (l : list (Token * string)) (t : Token) (m : string) :
  current_token sc = (Some t, m) ->
  tokens_from (S fuel) sc = Some l ->
  exists tok sc' l',
    get_token sc = Ok tok sc' /\
    tokens_from fuel
      (mkScanner (input_string sc') (current_char_index sc') tok) = Some l' /\
    l = (t, m) :: l'.
Proof.
  intros E. rewrite tokens_from_S, E.
  destruct (get_token sc) as [tok sc'| |];
    [ | intros H; discriminate H | intros H; discriminate H ].
  destruct (tokens_from fuel _) as [l'|] eqn:T;
    [ | intros H; discriminate H ].
  cbn [option_map]. intros H. injection H as <-.
  exists tok, sc', l'. auto.
Qed.

Lemma tokens_from_nil (fuel : nat) (sc : Scanner)
    (l : list (Token * string)) (m : string) :
  current_token sc = (None, m) ->
  tokens_from (S fuel) sc = Some l -> l = [].
Proof.
  intros E. rewrite tokens_from_S, E. intros H. now injection H.
Qed.

(** The token a scan returned is the first of the tokens from there. *)
Lemma tokens_from_head (fuel : nat) (sc0 sc1 : Scanner)
    (tok : option Token * string) (l : list (Token * string)) :
  get_token sc0 = Ok tok sc1 ->
  tokens_from fuel
    (mkScanner (input_string sc1) (current_char_index sc1) tok) = Some l ->
  tok = match l with
        | [] => (None, "")
        | (t, m) :: _ => (Some t, m)
        end.
Proof.
  intros Hg Hl. destruct fuel as [|fuel]; [discriminate Hl|].
  destruct tok as [[t|] m].
  - apply tokens_from_cons with (t := t) (m := m) in Hl; [|reflexivity].
    destruct Hl as (_ & _ & l' & _ & _ & ->). reflexivity.
  - apply tokens_from_nil with (m := m) in Hl; [|reflexivity]. subst l.
    destruct (get_token_None sc0 None m sc1 Hg) as (Hnone & _).
    now rewrite (proj1 Hnone eq_refl).
Qed.

Lemma tokens_from_same (l : list (Token * string)) :
  forall f1 f2 sc1 sc2,
    tokens_from f1 sc1 = Some l -> tokens_from f2 sc2 = Some l ->
    same_tokens sc1 sc2.
Proof.
  induction l as [|[t m] l IH]; intros [|f1] [|f2] sc1 sc2 H1 H2;
    try discriminate H1; try discriminate H2;
    destruct (current_token sc1) as [[t1|] m1] eqn:E1;
    destruct (current_token sc2) as [[t2|] m2] eqn:E2.
  - apply (tokens_from_cons _ _ _ _ _ E1) in H1.
    destruct H1 as (_ & _ & l' & _ & _ & H1). discriminate H1.
  - apply (tokens_from_cons _ _ _ _ _ E1) in H1.
    destruct H1 as (_ & _ & l' & _ & _ & H1). discriminate H1.
  - apply (tokens_from_cons _ _ _ _ _ E2) in H2.
    destruct H2 as (_ & _ & l' & _ & _ & H2). discriminate H2.
  - apply same_end; unfold lookahead; [now rewrite E1 | now rewrite E2].
  - apply (tokens_from_cons _ _ _ _ _ E1) in H1.
    destruct H1 as (tok1 & sc1' & l1 & Hg1 & T1 & H1).
    apply (tokens_from_cons _ _ _ _ _ E2) in H2.
    destruct H2 as (tok2 & sc2' & l2 & Hg2 & T2 & H2).
    injection H1 as <- <- <-. injection H2 as <- <- <-.
    pose proof (tokens_from_head _ _ _ _ _ Hg1 T1) as Ht1.
    pose proof (tokens_from_head _ _ _ _ _ Hg2 T2) as Ht2.
    rewrite <- Ht1 in Ht2. subst tok2.
    apply same_next with (tok := tok1) (sc1' := sc1') (sc2' := sc2').
    + unfold lookahead. rewrite E1. discriminate.
    + now rewrite E1, E2.
    + exact Hg1.
    + exact Hg2.
    + exact (IH _ _ _ _ T1 T2).
  - apply (tokens_from_nil _ _ _ _ E2) in H2. discriminate H2.
  - apply (tokens_from_nil _ _ _ _ E1) in H1. discriminate H1.
  - apply (tokens_from_nil _ _ _ _ E1) in H1. discriminate H1.
Qed.

(** With any fuel that is enough, the driver gives what it gives. *)
Lemma run_parser_fuel (n m : nat) (sc : Scanner) :
  n <= m -> program n sc <> OutOfFuel -> run_parser m sc = run_parser n sc.
Proof.
  intros Hle Hn. unfold run_parser.
  now rewrite <- (refines_eq _ _ (program_fuel n m sc Hle) Hn).
Qed.

Lemma run_parser_agree (n : nat) (sc1 sc2 : Scanner) :
  same_tokens sc1 sc2 -> run_parser n sc1 = run_parser n sc2.
Proof.
  intros H. pose proof (program_agree n sc1 sc2 H) as Ha.
  unfold run_parser.
  destruct (program n sc1) as [a1 s1| |], (program n sc2) as [a2 s2| |];
    simpl in Ha; try contradiction; try reflexivity.
  - destruct Ha as (<- & Hs).
    now rewrite (same_tokens_lookahead _ _ Hs).
  - destruct Ha as (<- & <-). reflexivity.
Qed.

(** X6.  The output of the program depends on the tokens of the input
    only: two inputs with the same tokens (so they differ in white space
    between tokens only) give the same run. *)
Theorem same_tokens_same_run (text1 text2 : string)
    (l : list (Token * string)) :
  tokens text1 = Some l -> tokens text2 = Some l -> main text1 = main text2.
Proof.
  unfold tokens, main. intros H1 H2.
  destruct (Scanner_init text1) as [[] sc1| |] eqn:Hi1; try discriminate H1.
  destruct (Scanner_init text2) as [[] sc2| |] eqn:Hi2; try discriminate H2.
  pose proof (tokens_from_same l _ _ _ _ H1 H2) as Hs.
  pose proof (program_fuel_enough text1 sc1 Hi1) as He1.
  pose proof (program_fuel_enough text2 sc2 Hi2) as He2.
  rewrite <- (run_parser_fuel (fuel_for text1)
                (Nat.max (fuel_for text1) (fuel_for text2)) sc1
                (Nat.le_max_l _ _) He1).
  rewrite <- (run_parser_fuel (fuel_for text2)
                (Nat.max (fuel_for text1) (fuel_for text2)) sc2
                (Nat.le_max_r _ _) He2).
  now apply run_parser_agree.
Qed.

Lemma same_tokens_same_run_witness :
  main "x:=1+2" = main (" x := 1" ++ Py.nl ++ "  + 2 ").
Proof.
  apply (same_tokens_same_run "x:=1+2" (" x := 1" ++ Py.nl ++ "  + 2 ")
           [(ID, "x"); (BEC, ":="); (NUM, "1"); (ADD, "+"); (NUM, "2")]);
    vm_compute; reflexivity.
Defined.

End SameTokens.

(** ** The token dump *)

Section TokenDump.

Lemma append_nil_r (s : string) : s ++ "" = s.
Proof. induction s as [|c s IH]; simpl; [reflexivity | now rewrite IH]. Qed.

Lemma show_tokens_S (fuel : nat) (printed : string) (scanner : Scanner) :
  show_tokens (S fuel) printed scanner =
  match lookahead scanner with
  | None => Dumped printed
  | Some token =>
      if token_in (Some token) [NUM; ID] then
        match consume [token] scanner with
        | Ok c scanner' =>
            match unpack_pair c with
            | inl (token', value) =>
                show_tokens fuel
                  (printed ++ token' ++ " " ++ value ++ Py.nl) scanner'
            | inr e => Stopped printed e
            end
        | Abort out e => Stopped (printed ++ out) (Raised e)
        | OutOfFuel => Unfinished
        end
      else
        match consume [token] scanner with
        | Ok c scanner' =>
            show_tokens fuel (printed ++ str_consumed c ++ Py.nl) scanner'
        | Abort out e => Stopped (printed ++ out) (Raised e)
        | OutOfFuel => Unfinished
        end
  end.
Proof. reflexivity. Qed.

(** The only abort of [get_token] is the lexical error. *)
Lemma get_token_Abort (sc : Scanner) (printed : string) (e : exn) :
  get_token sc = Abort printed e ->
  e = SystemExit /\
  printed = "lexical error: no token found at the start of " ++
            text_at_cursor sc ++ Py.nl.
Proof.
  rewrite get_token_unfold. cbv zeta.
  destruct (_ && _); intros H; [|discriminate H].
  injection H as <- <-. split; reflexivity.
Qed.

Lemma token_in_self (t : Token) : token_in (Some t) [t] = true.
Proof.
  unfold token_in. simpl. unfold Token_eqb.
  destruct (Token_eq_dec t t); [reflexivity | contradiction].
Qed.

(** One turn of the loop: the buffered token is consumed and its line
    printed, or the scan of the next token stops the run. *)
Lemma show_tokens_turn (fuel : nat) (printed : string) (sc : Scanner)
    (t : Token) (m : string) :
  current_token sc = (Some t, m) ->
  match get_token sc with
  | Ok tok sc' =>
      show_tokens (S fuel) printed sc =
      show_tokens fuel (printed ++ token_line (t, m))
        (mkScanner (input_string sc') (current_char_index sc') tok)
  | Abort out e =>
      show_tokens (S fuel) printed sc = Stopped (printed ++ out) (Raised e)
  | OutOfFuel => True
  end.
Proof.
  intros E. rewrite show_tokens_S.
  unfold lookahead. rewrite E. cbn [fst].
  rewrite !consume_unfold. unfold lookahead. rewrite E. cbn [fst snd].
  rewrite token_in_self.
  destruct (get_token sc) as [tok sc'| |]; [|now destruct (token_in _ _)|exact I].
  destruct t; reflexivity.
Qed.

End TokenDump.

(** ** The shape of the trees *)

Section TreeShapes.

Lemma literal_text_false (m : string) :
  ~ is_literal m -> literal_text m = false.
Proof.
  intros Hn. destruct (literal_text m) eqn:E; [|reflexivity].
  exfalso. apply Hn. unfold literal_text in E.
  apply existsb_exists in E. destruct E as ([t r] & Hin & Hr).
  simpl in Hr. destruct r as [text|]; [|discriminate Hr].
  apply String.eqb_eq in Hr. subst text. now exists t.
Qed.

Lemma nonempty_eqb (m : string) : m <> "" -> negb (String.eqb m "") = true.
Proof.
  intros H. destruct (String.eqb_spec m ""); [contradiction | reflexivity].
Qed.

(** Whatever [get_token] returns makes a good buffer. *)
Lemma get_token_buffer_ok (sc : Scanner) (tok : option Token * string)
    (sc' : Scanner) (input : string) (index : nat) :
  get_token sc = Ok tok sc' -> buffer_ok (mkScanner input index tok).
Proof.
  intros Hg. unfold buffer_ok. cbn [current_token].
  destruct tok as [[t|] m]; [|exact I].
  destruct t; try exact I.
  - destruct (token_text_plus sc NUM m sc' "0" "9" Hg) as (Hne & Hall);
      [vm_compute; tauto|].
    unfold is_number. now rewrite (nonempty_eqb _ Hne), Hall.
  - destruct (token_text_plus sc ID m sc' "a" "z" Hg) as (Hne & Hall);
      [vm_compute; tauto|].
    unfold is_name.
    rewrite (nonempty_eqb _ Hne), Hall.
    now rewrite (literal_text_false _ (id_text_not_literal sc m sc' Hg)).
Qed.

Lemma Scanner_init_buffer_ok (text : string) (sc : Scanner) :
  Scanner_init text = Ok tt sc -> buffer_ok sc.
Proof.
  unfold Scanner_init, bind.
  destruct (get_token (mkScanner text 0 (None, ""))) as [tok sc1| |] eqn:Hg;
    [ | intros H; discriminate H | intros H; discriminate H ].
  intros H. apply Ok_inj in H. destruct H as (_ & <-).
  exact (get_token_buffer_ok _ _ _ _ _ Hg).
Qed.

Lemma call_unexpected_token_expected {A} (found : option Token)
    (expected_tokens : list Token) (sc : Scanner) :
  ends (A := A) (fun _ _ => False)
    (call_unexpected_token found expected_tokens sc).
Proof.
  unfold call_unexpected_token.
  destruct expected_tokens as [|e [|]];
    try (unfold ends, raise; right; split; reflexivity).
  unfold ends, unexpected_token, print_and_exit. left.
  split; [reflexivity|]. right. left. exists found, e. reflexivity.
Qed.

Lemma ends_weaken {A} (P Q : A -> Scanner -> Prop) (r : Outcome A) :
  ends P r -> (forall v sc, P v sc -> Q v sc) -> ends Q r.
Proof. destruct r; simpl; auto. Qed.

Lemma ends_bind {A B} (P : A -> Scanner -> Prop) (Q : B -> Scanner -> Prop)
    (c : M A) (k : A -> M B) (sc : Scanner) :
  ends P (c sc) ->
  (forall v sc', P v sc' -> ends Q (k v sc')) ->
  ends Q (bind c k sc).
Proof.
  unfold bind. destruct (c sc) as [v sc'| |]; simpl; auto.
Qed.

Lemma bind_lift_Val {A B} (r : res A) (v : A) (k : A -> M B) (sc : Scanner) :
  r = Val v -> bind (lift r) k sc = k v sc.
Proof. intros ->. reflexivity. Qed.

(** [consume] returns the buffered token, of the expected ones, with a
    text of its kind when it is a number or an identifier, and leaves a
    good buffer; else the run ends in one of the expected ways. *)
Lemma ends_consume (expected_tokens : list Token) (sc : Scanner) :
  buffer_ok sc ->
  ends (fun v sc' => returned expected_tokens v /\ buffer_ok sc')
    (consume expected_tokens sc).
Proof.
  intros Hb. rewrite consume_unfold.
  destruct (token_in (lookahead sc) expected_tokens) eqn:Hin.
  - apply token_in_Some in Hin. destruct Hin as (t & Hla & Hin).
    destruct (get_token sc) as [tok sc'| |] eqn:Hg.
    + split; [|exact (get_token_buffer_ok _ _ _ _ _ Hg)].
      unfold buffer_ok in Hb. unfold lookahead in Hla. unfold lookahead.
      destruct (current_token sc) as [la m]. cbn [fst snd] in Hla |- *.
      subst la.
      destruct t; simpl; try (split; [exact Hin | split; discriminate]);
        (split; [exact Hin | exact Hb]).
    + apply get_token_Abort in Hg. destruct Hg as (-> & ->).
      cbv beta iota delta [ends]. left. split; [reflexivity|].
      left. eexists. reflexivity.
    + exact I.
  - eapply ends_weaken; [apply call_unexpected_token_expected|].
    intros ? ? [].
Qed.

(** A [consume] of tokens none of which is the lookahead never returns. *)
Lemma ends_refused {A} (expected_tokens : list Token) (k : consumed -> M A)
    (Q : A -> Scanner -> Prop) (sc : Scanner) :
  token_in (lookahead sc) expected_tokens = false ->
  ends Q (bind (consume expected_tokens) k sc).
Proof.
  intros Hin. unfold bind. rewrite consume_unfold, Hin.
  generalize (call_unexpected_token_expected (A := consumed)
                (lookahead sc) expected_tokens sc).
  destruct (call_unexpected_token _ _ _); simpl; intros H;
    [destruct H | exact H | exact I].
Qed.

Lemma ends_identifier (sc : Scanner) :
  buffer_ok sc ->
  ends (fun v sc' => is_identifier v = true /\ is_expression v = true /\
                     buffer_ok sc') (identifier sc).
Proof.
  intros Hb. unfold identifier.
  eapply ends_bind; [apply ends_consume; exact Hb|].
  intros c sc1 (Hret & Hb1).
  destruct c as [[t|]|t m]; simpl in Hret; try contradiction.
  - destruct Hret as ([<- | []] & _ & Hne). now elim Hne.
  - destruct t; try contradiction.
    + destruct Hret as ([H | []] & _). discriminate H.
    + destruct Hret as (_ & Hm).
      rewrite (bind_lift_Val _ m) by reflexivity.
      simpl. auto.
Qed.

(** What the operator table gives for the token that was consumed. *)
Lemma operator_arith (op : consumed) (expected_tokens : list Token) :
  returned expected_tokens op ->
  incl expected_tokens [ADD; SUB; MUL; DIV] ->
  exists sym, operator op = Val sym /\ is_arith sym = true.
Proof.
  intros Hret Hincl.
  destruct op as [[t|]|t m]; simpl in Hret; try contradiction.
  - destruct Hret as (Hin & _). apply Hincl in Hin. simpl in Hin.
    destruct Hin as [<- | [<- | [<- | [<- | []]]]];
      eexists; split; reflexivity.
  - destruct t; try contradiction; destruct Hret as (Hin & _);
      apply Hincl in Hin; simpl in Hin;
      repeat (destruct Hin as [Hin | Hin]; [discriminate Hin|]);
      destruct Hin.
Qed.

Lemma operator_relation (op : consumed) :
  returned [LESS; EQ; GRTR; LEQ; NEQ; GEQ] op ->
  exists sym, operator op = Val sym /\ is_relation sym = true.
Proof.
  intros Hret.
  destruct op as [[t|]|t m]; simpl in Hret; try contradiction.
  - destruct Hret as (Hin & _).
    destruct Hin as [<- | [<- | [<- | [<- | [<- | [<- | []]]]]]];
      eexists; split; reflexivity.
  - destruct t; try contradiction; destruct Hret as (Hin & _);
      repeat (destruct Hin as [Hin | Hin]; [discriminate Hin|]);
      destruct Hin.
Qed.

Lemma token_in_false (found : option Token) (expected_tokens : list Token) :
  Forall (fun t => is_token found t = false) expected_tokens ->
  token_in found expected_tokens = false.
Proof.
  unfold token_in. induction 1 as [|t l Ht _ IH]; simpl; [reflexivity|].
  now rewrite Ht, IH.
Qed.

Lemma expression_shape (n : nat) :
  (forall sc, buffer_ok sc ->
     ends (fun v sc' => is_expression v = true /\ buffer_ok sc')
       (expression n sc)) /\
  (forall r sc, is_expression r = true -> buffer_ok sc ->
     ends (fun v sc' => is_expression v = true /\ buffer_ok sc')
       (expression_loop n r sc)) /\
  (forall sc, buffer_ok sc ->
     ends (fun v sc' => is_expression v = true /\ buffer_ok sc')
       (term n sc)) /\
  (forall r sc, is_expression r = true -> buffer_ok sc ->
     ends (fun v sc' => is_expression v = true /\ buffer_ok sc')
       (term_loop n r sc)) /\
  (forall sc, buffer_ok sc ->
     ends (fun v sc' => is_expression v = true /\ buffer_ok sc')
       (factor n sc)).
Proof.
  induction n as [|n (IHe & IHel & IHt & IHtl & IHf)].
  - repeat split; intros; exact I.
  - repeat split.
    + intros sc Hb. rewrite expression_S.
      eapply ends_bind; [apply IHt; exact Hb|].
      intros r sc1 (Hr & Hb1). now apply IHel.
    + intros r sc Hr Hb. rewrite expression_loop_S.
      destruct (token_in _ _); [|split; assumption].
      eapply ends_bind; [apply ends_consume; exact Hb|].
      intros op sc1 (Hop & Hb1).
      eapply ends_bind; [apply IHt; exact Hb1|].
      intros tree sc2 (Htree & Hb2).
      destruct (operator_arith op _ Hop) as (sym & Hsym & Hs).
      { intros t [<- | [<- | []]]; simpl; tauto. }
      rewrite (bind_lift_Val _ sym) by exact Hsym.
      apply IHel; [|exact Hb2]. simpl. now rewrite Hs, Hr, Htree.
    + intros sc Hb. rewrite term_S.
      eapply ends_bind; [apply IHf; exact Hb|].
      intros r sc1 (Hr & Hb1). now apply IHtl.
    + intros r sc Hr Hb. rewrite term_loop_S.
      destruct (token_in _ _); [|split; assumption].
      eapply ends_bind; [apply ends_consume; exact Hb|].
      intros op sc1 (Hop & Hb1).
      eapply ends_bind; [apply IHf; exact Hb1|].
      intros tree sc2 (Htree & Hb2).
      destruct (operator_arith op _ Hop) as (sym & Hsym & Hs).
      { intros t [<- | [<- | []]]; simpl; tauto. }
      rewrite (bind_lift_Val _ sym) by exact Hsym.
      apply IHtl; [|exact Hb2]. simpl. now rewrite Hs, Hr, Htree.
    + intros sc Hb. rewrite factor_S.
      destruct (is_token (lookahead sc) LPAR) eqn:E1.
      { eapply ends_bind; [apply ends_consume; exact Hb|].
        intros c1 sc1 (_ & Hb1).
        eapply ends_bind; [apply IHe; exact Hb1|].
        intros e sc2 (He & Hb2).
        eapply ends_bind; [apply ends_consume; exact Hb2|].
        intros c2 sc3 (_ & Hb3). split; assumption. }
      destruct (is_token (lookahead sc) NUM) eqn:E2.
      { eapply ends_bind; [apply ends_consume; exact Hb|].
        intros c sc1 (Hret & Hb1).
        destruct c as [[t|]|t m]; simpl in Hret; try contradiction.
        - destruct Hret as ([<- | []] & Hne & _). now elim Hne.
        - destruct t; try contradiction.
          + destruct Hret as (_ & Hm).
            rewrite (bind_lift_Val _ m) by reflexivity. split; assumption.
          + destruct Hret as ([H | []] & _). discriminate H. }
      destruct (is_token (lookahead sc) ID) eqn:E3.
      { eapply ends_weaken; [apply ends_identifier; exact Hb|].
        intros v sc' (_ & Hv & Hb'). split; assumption. }
      apply ends_refused. apply token_in_false.
      repeat constructor; assumption.
Qed.

Lemma comparison_shape (n : nat) (sc : Scanner) :
  buffer_ok sc ->
  ends (fun v sc' => is_comparison v = true /\ buffer_ok sc')
    (comparison n sc).
Proof.
  intros Hb. destruct (expression_shape n) as (He & _). unfold comparison.
  eapply ends_bind; [apply He; exact Hb|].
  intros l sc1 (Hl & Hb1).
  eapply ends_bind; [apply ends_consume; exact Hb1|].
  intros op sc2 (Hop & Hb2).
  eapply ends_bind; [apply He; exact Hb2|].
  intros r sc3 (Hr & Hb3).
  destruct (operator_relation op Hop) as (sym & Hsym & Hs).
  rewrite (bind_lift_Val _ sym) by exact Hsym.
  split; [|exact Hb3]. simpl. now rewrite Hs, Hl, Hr.
Qed.

Lemma assignment_shape (n : nat) (sc : Scanner) :
  buffer_ok sc ->
  ends (fun v sc' => is_statement false v = true /\ buffer_ok sc')
    (assignment n sc).
Proof.
  intros Hb. destruct (expression_shape n) as (He & _). unfold assignment.
  eapply ends_bind; [apply ends_identifier; exact Hb|].
  intros i sc1 (Hi & _ & Hb1).
  eapply ends_bind; [apply ends_consume; exact Hb1|].
  intros c sc2 (_ & Hb2).
  eapply ends_bind; [apply He; exact Hb2|].
  intros e sc3 (Hexp & Hb3).
  split; [|exact Hb3]. simpl. now rewrite Hi, Hexp.
Qed.

Lemma read_shape (sc : Scanner) :
  buffer_ok sc ->
  ends (fun v sc' => is_statement false v = true /\ buffer_ok sc') (read sc).
Proof.
  intros Hb. unfold read.
  eapply ends_bind; [apply ends_consume; exact Hb|].
  intros c sc1 (_ & Hb1).
  eapply ends_bind; [apply ends_identifier; exact Hb1|].
  intros i sc2 (Hi & _ & Hb2).
  split; [|exact Hb2]. exact Hi.
Qed.

Lemma write_shape (n : nat) (sc : Scanner) :
  buffer_ok sc ->
  ends (fun v sc' => is_statement false v = true /\ buffer_ok sc')
    (write n sc).
Proof.
  intros Hb. destruct (expression_shape n) as (He & _). unfold write.
  eapply ends_bind; [apply ends_consume; exact Hb|].
  intros c sc1 (_ & Hb1).
  eapply ends_bind; [apply He; exact Hb1|].
  intros e sc2 (Hexp & Hb2).
  split; [|exact Hb2]. exact Hexp.
Qed.

Lemma statements_shape (n : nat) :
  (forall sc, buffer_ok sc ->
     ends (fun v sc' => is_statements false v = true /\ buffer_ok sc')
       (statements n sc)) /\
  (forall r sc,
     r <> [] -> forallb (is_statement false) r = true -> buffer_ok sc ->
     ends (fun v sc' => is_statements false v = true /\ buffer_ok sc')
       (statements_loop n r sc)) /\
  (forall sc, buffer_ok sc ->
     ends (fun v sc' => is_statement false v = true /\ buffer_ok sc')
       (statement n sc)) /\
  (forall sc, buffer_ok sc ->
     ends (fun v sc' => is_statement false v = true /\ buffer_ok sc')
       (if_statement n sc)) /\
  (forall sc, buffer_ok sc ->
     ends (fun v sc' => is_statement false v = true /\ buffer_ok sc')
       (while_statement n sc)).
Proof.
  induction n as [|n (IHs & IHsl & IHst & IHif & IHwh)].
  - repeat split; intros; exact I.
  - repeat split.
    + intros sc Hb. rewrite statements_S.
      eapply ends_bind; [apply IHst; exact Hb|].
      intros st sc1 (Hst & Hb1).
      apply IHsl; [discriminate | simpl; now rewrite Hst | exact Hb1].
    + intros r sc Hne Hr Hb. rewrite statements_loop_S.
      destruct (is_token _ _).
      * eapply ends_bind; [apply ends_consume; exact Hb|].
        intros c sc1 (_ & Hb1).
        eapply ends_bind; [apply IHst; exact Hb1|].
        intros st sc2 (Hst & Hb2).
        apply IHsl; [destruct r; discriminate | | exact Hb2].
        rewrite forallb_app, Hr. simpl. now rewrite Hst.
      * split; [|exact Hb]. simpl. rewrite Hr.
        destruct r; [contradiction | reflexivity].
    + intros sc Hb. rewrite statement_S.
      destruct (is_token (lookahead sc) IF) eqn:E1; [now apply IHif|].
      destruct (is_token (lookahead sc) WHILE) eqn:E2; [now apply IHwh|].
      destruct (is_token (lookahead sc) ID) eqn:E3;
        [now apply assignment_shape|].
      destruct (is_token (lookahead sc) READ) eqn:E4; [now apply read_shape|].
      destruct (is_token (lookahead sc) WRITE) eqn:E5;
        [now apply write_shape|].
      apply ends_refused. apply token_in_false.
      repeat constructor; assumption.
    + intros sc Hb. rewrite if_statement_S.
      eapply ends_bind; [apply ends_consume; exact Hb|].
      intros c1 sc1 (_ & Hb1).
      eapply ends_bind; [apply comparison_shape; exact Hb1|].
      intros condition sc2 (Hc & Hb2).
      eapply ends_bind; [apply ends_consume; exact Hb2|].
      intros c2 sc3 (_ & Hb3).
      eapply ends_bind; [apply IHs; exact Hb3|].
      intros then_ sc4 (Ht & Hb4).
      destruct (is_token (lookahead sc4) ELSE).
      * eapply ends_bind; [apply ends_consume; exact Hb4|].
        intros c3 sc5 (_ & Hb5).
        eapply ends_bind; [apply IHs; exact Hb5|].
        intros again sc6 (Ha & Hb6).
        eapply ends_bind; [apply ends_consume; exact Hb6|].
        intros c4 sc7 (_ & Hb7).
        split; [|exact Hb7]. simpl. rewrite Hc.
        unfold is_statements in Ht, Ha.
        destruct then_; try discriminate Ht.
        destruct again; try discriminate Ha.
        now rewrite Ht, Ha.
      * destruct (is_token (lookahead sc4) END).
        -- eapply ends_bind; [apply ends_consume; exact Hb4|].
           intros c3 sc5 (_ & Hb5).
           split; [|exact Hb5]. simpl. rewrite Hc.
           unfold is_statements in Ht.
           destruct then_; try discriminate Ht. now rewrite Ht.
        -- split; [reflexivity | exact Hb4].
    + intros sc Hb. rewrite while_statement_S.
      eapply ends_bind; [apply ends_consume; exact Hb|].
      intros c1 sc1 (_ & Hb1).
      eapply ends_bind; [apply comparison_shape; exact Hb1|].
      intros condition sc2 (Hc & Hb2).
      eapply ends_bind; [apply ends_consume; exact Hb2|].
      intros c2 sc3 (_ & Hb3).
      eapply ends_bind; [apply IHs; exact Hb3|].
      intros body sc4 (Ht & Hb4).
      eapply ends_bind; [apply ends_consume; exact Hb4|].
      intros c3 sc5 (_ & Hb5).
      split; [|exact Hb5]. simpl. rewrite Hc.
      unfold is_statements in Ht.
      destruct body; try discriminate Ht. now rewrite Ht.
Qed.

Lemma program_shape (n : nat) (sc : Scanner) :
  buffer_ok sc ->
  ends (fun v sc' => is_program false v = true /\ buffer_ok sc')
    (program n sc).
Proof.
  intros Hb. destruct (statements_shape n) as (Hs & _). unfold program.
  eapply ends_bind; [apply Hs; exact Hb|].
  intros sts sc1 (Hsts & Hb1). split; assumption.
Qed.

(** X8.  The tree the parser returns follows the data model: a program
    is a non-empty sequence of statements; an [if], a [while] hold one
    comparison and non-empty sequences of statements; a comparison holds
    one of the six relations between two expressions; an expression is
    built from the four operators over numbers (runs of digits) and
    identifiers (runs of lower-case letters that are no keywords).  The
    one node outside the model is [None] in the place of a statement. *)
Theorem parsed_tree_shape (text : string) (sc : Scanner) (fuel : nat)
    (ast : obj) (sc' : Scanner) :
  Scanner_init text = Ok tt sc ->
  program fuel sc = Ok ast sc' ->
  is_program false ast = true.
Proof.
  intros Hi Hp.
  pose proof (program_shape fuel sc (Scanner_init_buffer_ok text sc Hi)) as H.
  rewrite Hp in H. exact (proj1 H).
Qed.

Lemma parsed_tree_shape_witness :
  is_program false
    (Program_AST (Statements_AST
       [Assign_AST (Identifier_AST "x") (Number_AST "1")])) = true.
Proof.
  apply (parsed_tree_shape "x:=1 end"
           (mkScanner "x:=1 end" 1 (Some ID, "x")) 10 _
           (mkScanner "x:=1 end" 8 (Some END, "end")));
    vm_compute; reflexivity.
Defined.

End TreeShapes.

(** ** Rendering the trees *)

Section Rendering.

(** Induction on objects that reaches the entries of a
    [Statements_AST]. *)
Lemma obj_nested_ind (P : obj -> Prop) :
  P PyNone ->
  (forall s, P (PyStr s)) ->
  (forall a b, P (PyTuple a b)) ->
  (forall p, P p -> P (Program_AST p)) ->
  (forall l, Forall P l -> P (Statements_AST l)) ->
  (forall c t a, P c -> P t -> P a -> P (If_Else_AST c t a)) ->
  (forall c t, P c -> P t -> P (If_AST c t)) ->
  (forall c b, P c -> P b -> P (While_AST c b)) ->
  (forall i e, P i -> P e -> P (Assign_AST i e)) ->
  (forall e, P e -> P (Write_AST e)) ->
  (forall i, P i -> P (Read_AST i)) ->
  (forall l op r, P l -> P r -> P (Comparison_AST l op r)) ->
  (forall l op r, P l -> P r -> P (Expression_AST l op r)) ->
  (forall n, P (Number_AST n)) ->
  (forall w, P (Identifier_AST w)) ->
  forall o, P o.
Proof.
  intros HNone HStr HTuple HProgram HStatements HIfElse HIf HWhile HAssign
    HWrite HRead HComparison HExpression HNumber HIdentifier.
  fix IH 1. intros [ | s | a b | p | l | c t a | c t | c b | i e | e | i
                   | l op r | l op r | n | w ].
  - exact HNone.
  - apply HStr.
  - apply HTuple.
  - apply HProgram, IH.
  - apply HStatements. induction l as [|x l IHl]; constructor;
      [apply IH | exact IHl].
  - apply HIfElse; apply IH.
  - apply HIf; apply IH.
  - apply HWhile; apply IH.
  - apply HAssign; apply IH.
  - apply HWrite, IH.
  - apply HRead, IH.
  - apply HComparison; apply IH.
  - apply HExpression; apply IH.
  - apply HNumber.
  - apply HIdentifier.
Qed.

Lemma expression_indented (o : obj) :
  is_expression o = true ->
  forall level, exists out, indented o level = Val out.
Proof.
  induction o using obj_nested_ind; simpl; try discriminate; intros Ho level.
  - apply andb_prop in Ho. destruct Ho as (Ho & Hr).
    apply andb_prop in Ho. destruct Ho as (_ & Hl).
    destruct (IHo1 Hl (level + 1)) as (sl & ->).
    destruct (IHo2 Hr (level + 1)) as (sr & ->).
    simpl. eauto.
  - eauto.
  - eauto.
Qed.

Lemma identifier_indented (o : obj) :
  is_identifier o = true ->
  forall level, exists out, indented o level = Val out.
Proof.
  destruct o; simpl; try discriminate. eauto.
Qed.

Lemma comparison_indented (o : obj) :
  is_comparison o = true ->
  forall level, exists out, indented o level = Val out.
Proof.
  destruct o; simpl; try discriminate. intros Ho level.
  apply andb_prop in Ho. destruct Ho as (Ho & Hr).
  apply andb_prop in Ho. destruct Ho as (_ & Hl).
  destruct (expression_indented _ Hl (level + 1)) as (sl & ->).
  destruct (expression_indented _ Hr (level + 1)) as (sr & ->).
  simpl. eauto.
Qed.

Lemma renders_bind (b1 b2 : bool) (r : res string)
    (k : string -> res string) :
  renders b1 r ->
  (forall out, r = Val out -> renders b2 (k out)) ->
  renders (b1 && b2) (rbind r k).
Proof.
  intros [(-> & out & ->) | (-> & ->)] Hk; simpl.
  - now apply Hk.
  - now right.
Qed.

Lemma renders_Val (b : bool) (r : res string) :
  b = true -> (exists out, r = Val out) -> renders b r.
Proof. intros Hb Hr. left. split; assumption. Qed.

Lemma renders_last (b : bool) (r : res string) (k : string -> string) :
  renders b r -> renders b (rbind r (fun out => Val (k out))).
Proof.
  intros H. rewrite <- (andb_true_r b).
  apply renders_bind; [exact H|]. intros out _. left. eauto.
Qed.

Lemma statements_loop_indented (l : list obj) (level : nat) :
  Forall (fun o => forall level,
            is_statement false o = true ->
            renders (is_statement true o) (indented o level)) l ->
  forallb (is_statement false) l = true ->
  forall result,
    renders (forallb (is_statement true) l)
      ((fix loop (l : list obj) (result : string) : res string :=
          match l with
          | [] => Val result
          | st :: l' =>
              r <~ indented st (level + 1) ;; loop l' (result ++ r)
          end) l result).
Proof.
  induction 1 as [|o l Ho _ IH]; intros Hl result.
  - left. eauto.
  - cbn [forallb] in Hl |- *.
    apply andb_prop in Hl. destruct Hl as (Hst & Hl).
    apply renders_bind; [apply Ho, Hst|].
    intros out _. apply IH, Hl.
Qed.

(** [indented] on an object that is a statement, or a sequence of
    statements, but for [None] entries. *)
Lemma statement_indented (o : obj) :
  (forall level,
     is_statement false o = true ->
     renders (is_statement true o) (indented o level)) /\
  (forall level,
     is_statements false o = true ->
     renders (is_statements true o) (indented o level)).
Proof.
  induction o using obj_nested_ind; split; intros level Ho;
    try discriminate Ho.
  - now right.
  - cbn [is_statements] in Ho |- *.
    apply andb_prop in Ho. destruct Ho as (Hne & Hl). rewrite Hne.
    cbn [andb indented].
    apply statements_loop_indented; [|exact Hl].
    eapply Forall_impl; [|exact H]. intros o Hp. apply Hp.
  - cbn [is_statement] in Ho.
    apply andb_prop in Ho. destruct Ho as (Ho & Ha).
    apply andb_prop in Ho. destruct Ho as (Hc & Ht).
    cbn [is_statement indented]. rewrite <- andb_assoc.
    apply renders_bind;
      [apply renders_Val; [exact Hc | now apply comparison_indented]|].
    intros c _. apply renders_bind; [apply (proj2 IHo2), Ht|].
    intros t _. apply renders_last. apply (proj2 IHo3), Ha.
  - cbn [is_statement] in Ho.
    apply andb_prop in Ho. destruct Ho as (Hc & Ht).
    cbn [is_statement indented].
    apply renders_bind;
      [apply renders_Val; [exact Hc | now apply comparison_indented]|].
    intros c _. apply renders_last. apply (proj2 IHo2), Ht.
  - cbn [is_statement] in Ho.
    apply andb_prop in Ho. destruct Ho as (Hc & Ht).
    cbn [is_statement indented].
    apply renders_bind;
      [apply renders_Val; [exact Hc | now apply comparison_indented]|].
    intros c _. apply renders_last. apply (proj2 IHo2), Ht.
  - cbn [is_statement] in Ho |- *.
    apply andb_prop in Ho. destruct Ho as (Hi & He).
    cbn [indented].
    apply renders_bind;
      [apply renders_Val; [exact Hi | now apply identifier_indented]|].
    intros i _. apply renders_last.
    apply renders_Val; [exact He | now apply expression_indented].
  - cbn [is_statement] in Ho |- *. cbn [indented].
    apply renders_last.
    apply renders_Val; [exact Ho | now apply expression_indented].
  - cbn [is_statement] in Ho |- *. cbn [indented].
    apply renders_last.
    apply renders_Val; [exact Ho | now apply identifier_indented].
Qed.

Lemma program_indented (ast : obj) (level : nat) :
  is_program false ast = true ->
  renders (is_program true ast) (indented ast level).
Proof.
  destruct ast; try discriminate. simpl.
  apply (proj2 (statement_indented ast) level).
Qed.

(** X9.  Rendering and [None].  Of a tree the parser returned, the
    indented rendering gives a text, at whatever level, only when no
    statement of the tree is [None]; and when it raises
    [AttributeError], a statement of the tree is [None].  (Whether the
    rendering of a deep tree returns at all depends on the depth of
    recursion the interpreter allows, which is not part of the
    embedding.) *)
Theorem rendering_text_only_without_None (ast : obj) (level : nat) :
  is_program false ast = true ->
  (forall out, indented ast level = Val out -> is_program true ast = true) /\
  (indented ast level = Exc AttributeError -> is_program true ast = false).
Proof.
  intros H.
  destruct (program_indented ast level H) as [(Hs & o & Ho) | (Hs & Ho)];
    rewrite Ho; split; intros; first [assumption | discriminate].
Qed.

Lemma rendering_text_only_without_None_witness :
  (forall out,
     indented (Program_AST (Statements_AST [PyNone])) 0 = Val out ->
     is_program true (Program_AST (Statements_AST [PyNone])) = true) /\
  (indented (Program_AST (Statements_AST [PyNone])) 0 = Exc AttributeError ->
   is_program true (Program_AST (Statements_AST [PyNone])) = false).
Proof.
  apply (rendering_text_only_without_None
           (Program_AST (Statements_AST [PyNone])) 0).
  reflexivity.
Defined.

End Rendering.

(** ** How a run ends *)

Section RunEnds.


Lemma Scanner_init_fuel (text : string) : Scanner_init text <> OutOfFuel.
Proof.
  unfold Scanner_init, bind.
  pose proof (get_token_fuel (mkScanner text 0 (None, ""))) as Hg.
  destruct (get_token _); [intros H; discriminate H
                          | intros H; discriminate H | now elim Hg].
Qed.


Lemma skip_loop_all_space (ws : string) (i : nat) :
  all_space ws = true -> skip_loop ws i = i + String.length ws.
Proof.
  revert i; induction ws as [|c ws IH]; intros i; simpl; [lia|].
  intros H. apply andb_prop in H. destruct H as (Hc & Hws).
  rewrite Hc, (IH _ Hws). lia.
Qed.

Lemma slice_from_length (s : string) : Py.slice_from (String.length s) s = "".
Proof. induction s as [|c s IH]; [reflexivity | exact IH]. Qed.

(** On white space alone the scanner is built with nothing buffered. *)
Lemma Scanner_init_all_space (text : string) :
  all_space text = true ->
  Scanner_init text = Ok tt (mkScanner text (String.length text) (None, "")).
Proof.
  intros Hws. unfold Scanner_init, bind. rewrite get_token_unfold. cbv zeta.
  assert (Hidx : current_char_index
                   (skip_white_space (mkScanner text 0 (None, ""))) =
                 String.length text).
  { unfold skip_white_space. cbn [input_string current_char_index].
    rewrite slice_from_O. now rewrite skip_loop_all_space. }
  assert (Htext : text_at_cursor (mkScanner text 0 (None, "")) = "").
  { unfold text_at_cursor. rewrite Hidx. cbn [input_string].
    apply slice_from_length. }
  rewrite Htext, Hidx. cbn [input_string].
  replace (scan_table token_regexp "" (None, "")) with (@None Token, "")
    by (vm_compute; reflexivity).
  cbn [fst snd is_None andb]. rewrite Nat.ltb_irrefl.
  cbn [String.length current_token input_string current_char_index].
  now rewrite Nat.add_0_r.
Qed.

(** X11.  On an input with no token at all, empty or white space only,
    the program prints nothing: [statement] finds no token, and the call
    that should report the expected tokens raises [TypeError]. *)
Theorem empty_program_type_error (text : string) :
  all_space text = true -> main text = Died "" TypeError.
Proof.
  intros Hws. unfold main. rewrite (Scanner_init_all_space text Hws).
  unfold run_parser, program, fuel_for.
  replace (16 * String.length text + 16)
    with (S (S (16 * String.length text + 14))) by lia.
  rewrite statements_S. unfold bind. rewrite statement_S.
  unfold lookahead. cbn [current_token fst is_token].
  unfold bind. rewrite consume_unfold. reflexivity.
Qed.

Lemma empty_program_type_error_witness :
  main (" " ++ Py.nl) = Died "" TypeError.
Proof.
  apply (empty_program_type_error (" " ++ Py.nl)). reflexivity.
Defined.

End RunEnds.

(** ** The reserved words of [ply_scanner.py] *)

Section ReservedWords.

Lemma lower_not_space (c : ascii) :
  in_range "a" "z" c = true -> Py.isspace c = false.
Proof.
  destruct c as [[] [] [] [] [] [] [] []]; intros H;
    first [reflexivity | discriminate H].
Qed.

Lemma lower_not_digit (c : ascii) :
  in_range "a" "z" c = true -> in_range "0" "9" c = false.
Proof.
  destruct c as [[] [] [] [] [] [] [] []]; intros H;
    first [reflexivity | discriminate H].
Qed.

Lemma run_word (lo hi : ascii) (w post : string) :
  all_in_range lo hi w = true -> starts_in_range lo hi post = false ->
  run lo hi (w ++ post) = w.
Proof.
  intros Hw Hp. induction w as [|c w IH]; simpl.
  - destruct post as [|d post]; [reflexivity|]. simpl in Hp |- *.
    now rewrite Hp.
  - simpl in Hw. apply andb_prop in Hw. destruct Hw as (Hc & Hw).
    rewrite Hc. f_equal. now apply IH.
Qed.

(** Two ways of cutting one text: the longer first part extends the
    shorter. *)
Lemma append_split_common (w post m rest : string) :
  w ++ post = m ++ rest -> String.length w <= String.length m ->
  exists x, m = w ++ x /\ post = x ++ rest.
Proof.
  revert m; induction w as [|c w IH]; intros m H Hlen.
  - exists m. split; [reflexivity | exact H].
  - destruct m as [|d m]; [simpl in Hlen; lia|].
    simpl in H, Hlen. injection H as <- H.
    destruct (IH m H) as (x & -> & ->); [lia|].
    exists x. split; reflexivity.
Qed.

Lemma all_in_range_app (lo hi : ascii) (w x : string) :
  all_in_range lo hi (w ++ x) = true -> all_in_range lo hi x = true.
Proof.
  induction w as [|c w IH]; simpl; [auto|].
  intros H. apply andb_prop in H. now apply IH.
Qed.

(** A run of the range that starts a text which does not start with the
    range is empty. *)
Lemma in_range_prefix_nil (lo hi : ascii) (x rest post : string) :
  post = x ++ rest -> all_in_range lo hi x = true ->
  starts_in_range lo hi post = false -> x = "".
Proof.
  intros -> Hx Hp. destruct x as [|c x]; [reflexivity|].
  simpl in Hx, Hp. rewrite Hp in Hx. discriminate Hx.
Qed.

(** The entries of the token table: a keyword, to which [t_ID] gives the
    name of its token, a symbol, [NUM] or [ID]. *)
Lemma token_kinds (t : Token) :
  (exists k, In (t, Lit k) token_regexp /\
     ((all_in_range "a" "z" k = true /\ t_ID k = token_name t) \/
      starts_in_range "a" "z" k = false)) \/
  t = NUM \/ t = ID.
Proof.
  destruct t;
    first [ right; left; reflexivity
          | right; right; reflexivity
          | left; eexists; split;
            [ unfold token_regexp; simpl;
              repeat (first [left; reflexivity | right])
            | first [ left; split; reflexivity | right; reflexivity ] ] ].
Qed.

(** A key of [reserved] is a literal of the token table. *)
Lemma reserved_is_literal (w type : string) :
  dict_get w reserved = Some type -> is_literal w.
Proof.
  unfold reserved. cbn [dict_get].
  repeat (match goal with
          | |- context [String.eqb ?k w] =>
              destruct (String.eqb_spec k w) as [<-|_]
          end;
          [ intros _; unfold is_literal, token_regexp; eexists; simpl;
            repeat (first [left; reflexivity | right]) | ]).
  intros H; discriminate H.
Qed.

Lemma word_skip (w post : string) (tok : option Token * string) :
  w <> "" -> all_in_range "a" "z" w = true ->
  current_char_index (skip_white_space (mkScanner (w ++ post) 0 tok)) = 0 /\
  text_at_cursor (mkScanner (w ++ post) 0 tok) = w ++ post.
Proof.
  intros Hne Hw. destruct w as [|c w]; [now elim Hne|].
  simpl in Hw. apply andb_prop in Hw. destruct Hw as (Hc & _).
  assert (H0 : current_char_index
                 (skip_white_space (mkScanner (String c w ++ post) 0 tok)) = 0).
  { unfold skip_white_space. cbn [input_string current_char_index].
    rewrite slice_from_O. simpl. now rewrite (lower_not_space c Hc). }
  split; [exact H0|].
  unfold text_at_cursor. rewrite H0. cbn [input_string].
  now rewrite slice_from_O.
Qed.

(** X12.  The words of the two scanners agree.  On an input that starts
    with a word [w], a non-empty run of lower-case letters followed by no
    further lower-case letter, the hand-written scanner takes the whole
    word as one token, and the name of that token is the type that [t_ID]
    of the PLY scanner gives to a match [w] of [[a-z]+]: the keyword's
    own token for a key of [reserved], [ID] otherwise. *)
Theorem word_type_agrees (w post : string) :
  w <> "" -> all_in_range "a" "z" w = true ->
  starts_in_range "a" "z" post = false ->
  exists t,
    Scanner_init (w ++ post) =
      Ok tt (mkScanner (w ++ post) (String.length w) (Some t, w)) /\
    token_name t = t_ID w.
Proof.
  intros Hne Hw Hpost.
  destruct (word_skip w post (None, "") Hne Hw) as (Hidx & Htext).
  assert (Hid : re_match (Plus "a" "z") (text_at_cursor
                  (mkScanner (w ++ post) 0 (None, ""))) = Some w).
  { rewrite Htext. simpl. rewrite (run_word _ _ _ _ Hw Hpost).
    destruct w; [now elim Hne | reflexivity]. }
  assert (Hin : In (ID, Plus "a" "z") token_regexp)
    by (unfold token_regexp; simpl; repeat (first [left; reflexivity | right])).
  destruct (get_token_some _ _ _ _ Hin Hid) as (t & longest & sc' & Hg & Hlen).
  destruct (get_token_munch _ _ _ _ Hg) as (i & r & Hi & Hm & _).
  pose proof (re_match_split _ _ _ Hm) as Hsplit. rewrite Htext in Hsplit.
  destruct (append_split_common _ _ _ _ Hsplit Hlen) as (x & Hl & Hx).
  pose proof (get_token_selects _ _ _ Hg) as (_ & Hsc').
  rewrite Hidx in Hsc'. cbn [input_string current_token snd] in Hsc'.
  assert (Hfin : longest = w ->
                 Scanner_init (w ++ post) =
                 Ok tt (mkScanner (w ++ post) (String.length w) (Some t, w))).
  { intros E. unfold Scanner_init, bind. rewrite Hg, Hsc', E. reflexivity. }
  destruct (token_kinds t) as [(k & Hk & Hkind) | [-> | ->]].
  - pose proof (token_text_literal _ _ _ _ _ Hg Hk) as Ek.
    destruct Hkind as [(Hlow & Hty) | Hsym].
    + assert (x = "").
      { apply (in_range_prefix_nil "a" "z" x _ _ Hx); [|exact Hpost].
        apply (all_in_range_app _ _ w). now rewrite <- Hl, Ek. }
      subst x. rewrite append_nil_r in Hl.
      exists t. split; [now apply Hfin|]. now rewrite <- Hl, Ek.
    + exfalso. rewrite Ek in Hl. rewrite Hl in Hsym.
      destruct w as [|c w]; [now elim Hne|].
      simpl in Hw, Hsym. rewrite Hsym in Hw. discriminate Hw.
  - exfalso.
    assert (Hn : In (NUM, Plus "0" "9") token_regexp)
      by (unfold token_regexp; simpl;
          repeat (first [left; reflexivity | right])).
    destruct (token_text_plus _ _ _ _ _ _ Hg Hn) as (_ & Hd).
    rewrite Hl in Hd. destruct w as [|c w]; [now elim Hne|].
    simpl in Hw, Hd. apply andb_prop in Hw. destruct Hw as (Hc & _).
    rewrite (lower_not_digit c Hc) in Hd. discriminate Hd.
  - destruct (token_text_plus _ _ _ _ _ _ Hg Hin) as (_ & Hlow).
    assert (x = "").
    { apply (in_range_prefix_nil "a" "z" x _ _ Hx); [|exact Hpost].
      apply (all_in_range_app _ _ w). now rewrite <- Hl. }
    subst x. rewrite append_nil_r in Hl.
    exists ID. split; [now apply Hfin|].
    pose proof (id_text_not_literal _ _ _ Hg) as Hnl. rewrite Hl in Hnl.
    unfold t_ID. destruct (dict_get w reserved) eqn:E; [|reflexivity].
    elim Hnl. exact (reserved_is_literal _ _ E).
Qed.

Lemma word_type_agrees_witness :
  exists t,
    Scanner_init ("while" ++ " x") =
      Ok tt (mkScanner ("while" ++ " x") (String.length "while")
               (Some t, "while")) /\
    token_name t = t_ID "while".
Proof.
  apply (word_type_agrees "while" " x");
    [discriminate | reflexivity | reflexivity].
Defined.

End ReservedWords.

(** ** Parsing the text of an expression *)

Section ParsingBack.

Lemma slice_from_app (p : nat) (input a b : string) :
  Py.slice_from p input = a ++ b ->
  Py.slice_from (p + String.length a) input = b.
Proof.
  intros H. rewrite <- slice_from_add, H. clear H.
  induction a as [|c a IH]; [apply slice_from_O|].
  simpl. rewrite slice_from_S. exact IH.
Qed.

Lemma length_app (a b : string) :
  String.length (a ++ b) = String.length a + String.length b.
Proof. induction a as [|c a IH]; simpl; [reflexivity | now rewrite IH]. Qed.

Lemma get_token_at (input : string) (p : nat) (c : option Token * string)
    (rest : string) :
  Py.slice_from p input = rest -> starts_with_space rest = false ->
  current_char_index (skip_white_space (mkScanner input p c)) = p /\
  text_at_cursor (mkScanner input p c) = rest.
Proof.
  intros Hs Hw.
  assert (H0 : current_char_index (skip_white_space (mkScanner input p c)) = p).
  { unfold skip_white_space. cbn [input_string current_char_index].
    rewrite Hs. destruct rest as [|ch rest]; [reflexivity|].
    simpl in Hw |- *. now rewrite Hw. }
  split; [exact H0|]. unfold text_at_cursor. rewrite H0. exact Hs.
Qed.

Lemma scans_selected (input : string) (p : nat) (rest : string) (t : Token)
    (m : string) :
  Py.slice_from p input = rest -> starts_with_space rest = false ->
  scan_table token_regexp rest (None, "") = (Some t, m) ->
  scans input p (Some t) m (p + String.length m).
Proof.
  intros Hs Hw Hsel c.
  destruct (get_token_at input p c rest Hs Hw) as (Hi & Ht).
  rewrite get_token_unfold. cbv zeta. rewrite Ht, Hi, Hsel. reflexivity.
Qed.

Lemma scans_symbol (input : string) (p : nat) (ch : ascii) (t : Token)
    (post : string) :
  In (ch, t) [("("%char, LPAR); (")"%char, RPAR); ("+"%char, ADD);
              ("-"%char, SUB); ("*"%char, MUL); ("/"%char, DIV)] ->
  Py.slice_from p input = String ch post ->
  scans input p (Some t) (String ch "") (p + 1).
Proof.
  intros Hin Hs.
  change (p + 1) with (p + String.length (String ch "")).
  apply (scans_selected input p (String ch post) t (String ch "") Hs);
    simpl in Hin;
    repeat (destruct Hin as [Hin|Hin];
            [injection Hin as <- <-; destruct post; vm_compute; reflexivity|]);
    destruct Hin.
Qed.

Lemma scans_end (input : string) (p : nat) :
  Py.slice_from p input = "" -> scans input p None "" p.
Proof.
  intros Hs c. destruct (get_token_at input p c "" Hs eq_refl) as (Hi & Ht).
  rewrite get_token_unfold. cbv zeta. rewrite Ht, Hi.
  replace (scan_table token_regexp "" (None, "")) with (@None Token, "")
    by (vm_compute; reflexivity).
  cbn [fst snd is_None andb input_string].
  pose proof (length_slice_from p input) as Hl. rewrite Hs in Hl.
  simpl in Hl.
  destruct (Nat.ltb_spec p (String.length input)) as [Hlt|_]; [lia|].
  cbn [String.length current_token]. now rewrite Nat.add_0_r.
Qed.

(** After a delimiter the scanner finds a token, and neither a word nor
    a number goes on into it. *)
Lemma delimited_scans (input : string) (p : nat) (post : string) :
  Py.slice_from p input = post -> delimited post = true ->
  (exists tok m q, scans input p tok m q) /\
  starts_in_range "a" "z" post = false /\
  starts_in_range "0" "9" post = false.
Proof.
  intros Hs Hd. destruct post as [|ch post].
  - split; [|split; reflexivity].
    exists None, "", p. now apply scans_end.
  - simpl in Hd.
    repeat (match type of Hd with
            | context [Ascii.eqb ch ?k] =>
                destruct (Ascii.eqb_spec ch k) as [->|_]
            end;
            [ split; [|split; reflexivity];
              eexists _, _, _; eapply scans_symbol; [|exact Hs];
              simpl; repeat (first [left; reflexivity | right]) | ]).
    discriminate Hd.
Qed.

Lemma literal_not_digit (t : Token) (k : string) :
  In (t, Lit k) token_regexp -> starts_in_range "0" "9" k = false.
Proof.
  intros Hin. vm_compute in Hin.
  repeat (destruct Hin as [Hin | Hin];
          [first [discriminate Hin | injection Hin as <- <-; reflexivity]|]).
  destruct Hin.
Qed.

Lemma literal_text_true (w : string) :
  is_literal w -> literal_text w = true.
Proof.
  intros (t & Hin). unfold literal_text. apply existsb_exists.
  exists (t, Lit w). split; [exact Hin|]. simpl. apply String.eqb_refl.
Qed.

(** A name is scanned as [ID], whole. *)
Lemma scans_name (input : string) (p : nat) (w post : string) :
  Py.slice_from p input = w ++ post -> is_name w = true ->
  starts_in_range "a" "z" post = false ->
  scans input p (Some ID) w (p + String.length w).
Proof.
  intros Hs Hname Hpost c. unfold is_name in Hname.
  apply andb_prop in Hname. destruct Hname as (Hname & Hnl).
  apply andb_prop in Hname. destruct Hname as (Hne & Hw).
  assert (Hnl' : ~ is_literal w).
  { intros H. rewrite (literal_text_true w H) in Hnl. discriminate Hnl. }
  destruct w as [|c0 w0] eqn:Ew; [discriminate Hne|]. rewrite <- Ew in *.
  assert (Hc0 : in_range "a" "z" c0 = true).
  { rewrite Ew in Hw. simpl in Hw. apply andb_prop in Hw. tauto. }
  assert (Hsp : starts_with_space (w ++ post) = false).
  { rewrite Ew. simpl. now apply lower_not_space. }
  destruct (get_token_at input p c _ Hs Hsp) as (Hidx & Htext).
  assert (Hid : re_match (Plus "a" "z") (text_at_cursor (mkScanner input p c))
                = Some w).
  { rewrite Htext. simpl. rewrite (run_word _ _ _ _ Hw Hpost).
    rewrite Ew. reflexivity. }
  assert (Hin : In (ID, Plus "a" "z") token_regexp)
    by (unfold token_regexp; simpl; repeat (first [left; reflexivity | right])).
  destruct (get_token_some _ _ _ _ Hin Hid) as (t & longest & sc' & Hg & Hlen).
  destruct (get_token_munch _ _ _ _ Hg) as (i & r & Hi & Hm & _).
  pose proof (re_match_split _ _ _ Hm) as Hsplit. rewrite Htext in Hsplit.
  destruct (append_split_common _ _ _ _ Hsplit Hlen) as (x & Hl & Hx).
  pose proof (get_token_selects _ _ _ Hg) as (_ & Hsc').
  rewrite Hidx in Hsc'. cbn [input_string current_token snd] in Hsc'.
  destruct (token_kinds t) as [(k & Hk & Hkind) | [-> | ->]].
  - exfalso. pose proof (token_text_literal _ _ _ _ _ Hg Hk) as Ek.
    destruct Hkind as [(Hlow & _) | Hsym].
    + assert (x = "").
      { apply (in_range_prefix_nil "a" "z" x _ _ Hx); [|exact Hpost].
        apply (all_in_range_app _ _ w). now rewrite <- Hl, Ek. }
      subst x. rewrite append_nil_r in Hl. apply Hnl'.
      exists t. now rewrite <- Hl, Ek.
    + rewrite Ek in Hl. rewrite Hl, Ew in Hsym. simpl in Hsym.
      rewrite Hsym in Hc0. discriminate Hc0.
  - exfalso.
    assert (Hn : In (NUM, Plus "0" "9") token_regexp)
      by (unfold token_regexp; simpl;
          repeat (first [left; reflexivity | right])).
    destruct (token_text_plus _ _ _ _ _ _ Hg Hn) as (_ & Hd).
    rewrite Hl, Ew in Hd. simpl in Hd.
    rewrite (lower_not_digit c0 Hc0) in Hd. discriminate Hd.
  - destruct (token_text_plus _ _ _ _ _ _ Hg Hin) as (_ & Hlow).
    assert (x = "").
    { apply (in_range_prefix_nil "a" "z" x _ _ Hx); [|exact Hpost].
      apply (all_in_range_app _ _ w). now rewrite <- Hl. }
    subst x. rewrite append_nil_r in Hl.
    rewrite Hg, Hsc', Hl. reflexivity.
Qed.

(** A number is scanned as [NUM], whole. *)
Lemma scans_number (input : string) (p : nat) (d post : string) :
  Py.slice_from p input = d ++ post -> is_number d = true ->
  starts_in_range "0" "9" post = false ->
  scans input p (Some NUM) d (p + String.length d).
Proof.
  intros Hs Hnum Hpost c. unfold is_number in Hnum.
  apply andb_prop in Hnum. destruct Hnum as (Hne & Hd).
  destruct d as [|c0 d0] eqn:Ed; [discriminate Hne|]. rewrite <- Ed in *.
  assert (Hc0 : in_range "0" "9" c0 = true).
  { rewrite Ed in Hd. simpl in Hd. apply andb_prop in Hd. tauto. }
  assert (Hsp : starts_with_space (d ++ post) = false).
  { rewrite Ed. simpl. clear - Hc0.
    destruct c0 as [[] [] [] [] [] [] [] []];
      first [reflexivity | discriminate Hc0]. }
  destruct (get_token_at input p c _ Hs Hsp) as (Hidx & Htext).
  assert (Hid : re_match (Plus "0" "9") (text_at_cursor (mkScanner input p c))
                = Some d).
  { rewrite Htext. simpl. rewrite (run_word _ _ _ _ Hd Hpost).
    rewrite Ed. reflexivity. }
  assert (Hin : In (NUM, Plus "0" "9") token_regexp)
    by (unfold token_regexp; simpl; repeat (first [left; reflexivity | right])).
  destruct (get_token_some _ _ _ _ Hin Hid) as (t & longest & sc' & Hg & Hlen).
  destruct (get_token_munch _ _ _ _ Hg) as (i & r & Hi & Hm & _).
  pose proof (re_match_split _ _ _ Hm) as Hsplit. rewrite Htext in Hsplit.
  destruct (append_split_common _ _ _ _ Hsplit Hlen) as (x & Hl & Hx).
  pose proof (get_token_selects _ _ _ Hg) as (_ & Hsc').
  rewrite Hidx in Hsc'. cbn [input_string current_token snd] in Hsc'.
  destruct (token_kinds t) as [(k & Hk & _) | [-> | ->]].
  - exfalso. pose proof (token_text_literal _ _ _ _ _ Hg Hk) as Ek.
    pose proof (literal_not_digit _ _ Hk) as Hnd.
    rewrite <- Ek, Hl, Ed in Hnd. simpl in Hnd.
    rewrite Hnd in Hc0. discriminate Hc0.
  - destruct (token_text_plus _ _ _ _ _ _ Hg Hin) as (_ & Hdig).
    assert (x = "").
    { apply (in_range_prefix_nil "0" "9" x _ _ Hx); [|exact Hpost].
      apply (all_in_range_app _ _ d). now rewrite <- Hl. }
    subst x. rewrite append_nil_r in Hl.
    rewrite Hg, Hsc', Hl. reflexivity.
  - exfalso.
    assert (Hn : In (ID, Plus "a" "z") token_regexp)
      by (unfold token_regexp; simpl;
          repeat (first [left; reflexivity | right])).
    destruct (token_text_plus _ _ _ _ _ _ Hg Hn) as (_ & Hlow).
    rewrite Hl, Ed in Hlow. simpl in Hlow.
    apply andb_prop in Hlow. destruct Hlow as (Hlow & _).
    rewrite (lower_not_digit c0 Hlow) in Hc0. discriminate Hc0.
Qed.

Lemma scanner_at_scans (input : string) (p : nat) (tok : option Token)
    (m : string) (q : nat) :
  scans input p tok m q -> scanner_at input p = mkScanner input q (tok, m).
Proof. intros H. unfold scanner_at. now rewrite (H (None, "")). Qed.

Lemma lookahead_at (input : string) (p : nat) (tok : option Token)
    (m : string) (q : nat) :
  scans input p tok m q -> lookahead (scanner_at input p) = tok.
Proof. intros H. now rewrite (scanner_at_scans _ _ _ _ _ H). Qed.

(** [consume] of the token that starts at [p] leaves the scanner on the
    token that starts where the first ends. *)
Lemma consume_at (input : string) (p : nat) (t : Token) (m : string)
    (q : nat) (expected_tokens : list Token) :
  scans input p (Some t) m q ->
  (exists tok' m' q', scans input q tok' m' q') ->
  token_in (Some t) expected_tokens = true ->
  consume expected_tokens (scanner_at input p) =
  Ok match t with
     | ID => TokVal ID m
     | NUM => TokVal NUM m
     | _ => Tok (Some t)
     end (scanner_at input q).
Proof.
  intros Hp (tok' & m' & q' & Hq) Hin.
  rewrite (scanner_at_scans _ _ _ _ _ Hp), (scanner_at_scans _ _ _ _ _ Hq).
  rewrite consume_unfold. unfold lookahead. cbn [current_token fst snd].
  rewrite Hin, (Hq (Some t, m)). cbn [input_string current_char_index].
  destruct t; reflexivity.
Qed.

Lemma factor_number (input : string) (p : nat) (d : string) (q g : nat) :
  scans input p (Some NUM) d q ->
  (exists tok' m' q', scans input q tok' m' q') ->
  factor (S g) (scanner_at input p) = Ok (Number_AST d) (scanner_at input q).
Proof.
  intros Hp Hq. rewrite factor_S, (lookahead_at _ _ _ _ _ Hp).
  change (is_token (Some NUM) LPAR) with false.
  change (is_token (Some NUM) NUM) with true. cbv iota.
  rewrite (bind_Ok _ _ _ _ _ (consume_at _ _ _ _ _ [NUM] Hp Hq eq_refl)).
  reflexivity.
Qed.

Lemma factor_name (input : string) (p : nat) (w : string) (q g : nat) :
  scans input p (Some ID) w q ->
  (exists tok' m' q', scans input q tok' m' q') ->
  factor (S g) (scanner_at input p) = Ok (Identifier_AST w) (scanner_at input q).
Proof.
  intros Hp Hq. rewrite factor_S, (lookahead_at _ _ _ _ _ Hp).
  change (is_token (Some ID) LPAR) with false.
  change (is_token (Some ID) NUM) with false.
  change (is_token (Some ID) ID) with true. cbv iota.
  unfold identifier.
  rewrite (bind_Ok _ _ _ _ _ (consume_at _ _ _ _ _ [ID] Hp Hq eq_refl)).
  reflexivity.
Qed.

Lemma factor_parentheses (input : string) (p q q2 q3 g : nat) (t : obj) :
  scans input p (Some LPAR) "(" q ->
  (exists tok' m' q', scans input q tok' m' q') ->
  expression g (scanner_at input q) = Ok t (scanner_at input q2) ->
  scans input q2 (Some RPAR) ")" q3 ->
  (exists tok' m' q', scans input q3 tok' m' q') ->
  factor (S g) (scanner_at input p) = Ok t (scanner_at input q3).
Proof.
  intros Hp Hq He Hq2 Hq3. rewrite factor_S, (lookahead_at _ _ _ _ _ Hp).
  change (is_token (Some LPAR) LPAR) with true. cbv iota.
  rewrite (bind_Ok _ _ _ _ _ (consume_at _ _ _ _ _ [LPAR] Hp Hq eq_refl)).
  rewrite (bind_Ok _ _ _ _ _ He).
  rewrite (bind_Ok _ _ _ _ _ (consume_at _ _ _ _ _ [RPAR] Hq2 Hq3 eq_refl)).
  reflexivity.
Qed.

Lemma term_loop_stop (g : nat) (result : obj) (sc : Scanner) :
  token_in (lookahead sc) [MUL; DIV] = false ->
  term_loop (S g) result sc = Ok result sc.
Proof. intros H. rewrite term_loop_S, H. reflexivity. Qed.

Lemma expression_loop_stop (g : nat) (result : obj) (sc : Scanner) :
  token_in (lookahead sc) [ADD; SUB] = false ->
  expression_loop (S g) result sc = Ok result sc.
Proof. intros H. rewrite expression_loop_S, H. reflexivity. Qed.

(** The text of [left_ op right_] in parentheses, from the index [p], is
    parsed by [factor] into the node of the two operands, when
    [factor] parses the texts of the operands into them. *)
Lemma factor_binary (input : string) (p : nat) (sl sr post : string)
    (ch : ascii) (tok : Token) (l r : obj) (nl nr : nat) :
  In (ch, tok) [("+"%char, ADD); ("-"%char, SUB); ("*"%char, MUL);
                ("/"%char, DIV)] ->
  Py.slice_from p input =
    "(" ++ sl ++ String ch "" ++ sr ++ ")" ++ post ->
  delimited post = true ->
  (exists tok' m' q', scans input (p + 1) tok' m' q') ->
  factor nl (scanner_at input (p + 1)) =
    Ok l (scanner_at input (p + 1 + String.length sl)) ->
  (exists tok' m' q',
     scans input (p + 1 + String.length sl + 1) tok' m' q') ->
  factor nr (scanner_at input (p + 1 + String.length sl + 1)) =
    Ok r (scanner_at input
            (p + 1 + String.length sl + 1 + String.length sr)) ->
  factor (S (S (S (S (S (Nat.max nl nr)))))) (scanner_at input p) =
    Ok (Expression_AST l (String ch "") r)
       (scanner_at input
          (p + 1 + String.length sl + 1 + String.length sr + 1)).
Proof.
  intros Hop Hs Hd L1 F1 L3 F3.
  set (M := Nat.max nl nr).
  set (p1 := p + 1) in *. set (p2 := p1 + String.length sl) in *.
  set (p3 := p2 + 1) in *. set (p4 := p3 + String.length sr) in *.
  assert (H1 : Py.slice_from p1 input =
               sl ++ String ch "" ++ sr ++ ")" ++ post)
    by exact (slice_from_app p input "(" _ Hs).
  assert (H2 : Py.slice_from p2 input = String ch (sr ++ ")" ++ post))
    by exact (slice_from_app p1 input sl _ H1).
  assert (H3 : Py.slice_from p3 input = sr ++ ")" ++ post)
    by exact (slice_from_app p2 input (String ch "") _ H2).
  assert (H4 : Py.slice_from p4 input = String ")" post)
    by exact (slice_from_app p3 input sr _ H3).
  assert (H5 : Py.slice_from (p4 + 1) input = post)
    by exact (slice_from_app p4 input ")" _ H4).
  assert (S0 : scans input p (Some LPAR) "(" p1)
    by (apply (scans_symbol input p "(" LPAR
               (sl ++ String ch "" ++ sr ++ ")" ++ post));
        [simpl; tauto | exact Hs]).
  assert (S4 : scans input p4 (Some RPAR) ")" (p4 + 1))
    by (apply (scans_symbol input p4 ")" RPAR post); [simpl; tauto | exact H4]).
  assert (S2 : scans input p2 (Some tok) (String ch "") p3).
  { apply (scans_symbol input p2 ch tok (sr ++ ")" ++ post)); [|exact H2].
    simpl in Hop |- *. tauto. }
  destruct (delimited_scans input (p4 + 1) post H5 Hd) as (L5 & _).
  assert (L4 : exists tok' m' q', scans input p4 tok' m' q') by eauto.
  assert (L2 : exists tok' m' q', scans input p2 tok' m' q') by eauto.
  assert (A4m : token_in (lookahead (scanner_at input p4)) [MUL; DIV] = false)
    by now rewrite (lookahead_at _ _ _ _ _ S4).
  assert (A4a : token_in (lookahead (scanner_at input p4)) [ADD; SUB] = false)
    by now rewrite (lookahead_at _ _ _ _ _ S4).
  pose proof (refines_Ok _ _ _ _
                (factor_fuel nl (S (S M)) _ ltac:(unfold M; lia)) F1) as F1'.
  pose proof (refines_Ok _ _ _ _
                (factor_fuel nr (S M) _ ltac:(unfold M; lia)) F3) as F3'.
  apply (factor_parentheses input p p1 p4 (p4 + 1) _ _ S0 L1); [|exact S4|exact L5].
  rewrite expression_S.
  simpl in Hop.
  destruct Hop as [Hop | [Hop | [Hop | [Hop | []]]]];
    injection Hop as <- <-.
  - (* + *)
    assert (T : term (S (S (S M))) (scanner_at input p1) =
                Ok l (scanner_at input p2)).
    { rewrite term_S, (bind_Ok _ _ _ _ _ F1').
      apply term_loop_stop. now rewrite (lookahead_at _ _ _ _ _ S2). }
    rewrite (bind_Ok _ _ _ _ _ T), expression_loop_S.
    rewrite (lookahead_at _ _ _ _ _ S2).
    change (token_in (Some ADD) [ADD; SUB]) with true. cbv iota.
    rewrite (bind_Ok _ _ _ _ _
               (consume_at _ _ _ _ _ [ADD; SUB] S2 L3 eq_refl)).
    assert (T3 : term (S (S M)) (scanner_at input p3) =
                 Ok r (scanner_at input p4)).
    { rewrite term_S, (bind_Ok _ _ _ _ _ F3').
      now apply term_loop_stop. }
    rewrite (bind_Ok _ _ _ _ _ T3).
    rewrite (bind_lift_Val _ "+" _ _ eq_refl).
    now apply expression_loop_stop.
  - (* - *)
    assert (T : term (S (S (S M))) (scanner_at input p1) =
                Ok l (scanner_at input p2)).
    { rewrite term_S, (bind_Ok _ _ _ _ _ F1').
      apply term_loop_stop. now rewrite (lookahead_at _ _ _ _ _ S2). }
    rewrite (bind_Ok _ _ _ _ _ T), expression_loop_S.
    rewrite (lookahead_at _ _ _ _ _ S2).
    change (token_in (Some SUB) [ADD; SUB]) with true. cbv iota.
    rewrite (bind_Ok _ _ _ _ _
               (consume_at _ _ _ _ _ [ADD; SUB] S2 L3 eq_refl)).
    assert (T3 : term (S (S M)) (scanner_at input p3) =
                 Ok r (scanner_at input p4)).
    { rewrite term_S, (bind_Ok _ _ _ _ _ F3').
      now apply term_loop_stop. }
    rewrite (bind_Ok _ _ _ _ _ T3).
    rewrite (bind_lift_Val _ "-" _ _ eq_refl).
    now apply expression_loop_stop.
  - (* * *)
    assert (T : term (S (S (S M))) (scanner_at input p1) =
                Ok (Expression_AST l "*" r) (scanner_at input p4)).
    { rewrite term_S, (bind_Ok _ _ _ _ _ F1'), term_loop_S.
      rewrite (lookahead_at _ _ _ _ _ S2).
      change (token_in (Some MUL) [MUL; DIV]) with true. cbv iota.
      rewrite (bind_Ok _ _ _ _ _
                 (consume_at _ _ _ _ _ [MUL; DIV] S2 L3 eq_refl)).
      rewrite (bind_Ok _ _ _ _ _ F3').
      rewrite (bind_lift_Val _ "*" _ _ eq_refl).
      now apply term_loop_stop. }
    rewrite (bind_Ok _ _ _ _ _ T).
    now apply expression_loop_stop.
  - (* / *)
    assert (T : term (S (S (S M))) (scanner_at input p1) =
                Ok (Expression_AST l "/" r) (scanner_at input p4)).
    { rewrite term_S, (bind_Ok _ _ _ _ _ F1'), term_loop_S.
      rewrite (lookahead_at _ _ _ _ _ S2).
      change (token_in (Some DIV) [MUL; DIV]) with true. cbv iota.
      rewrite (bind_Ok _ _ _ _ _
                 (consume_at _ _ _ _ _ [MUL; DIV] S2 L3 eq_refl)).
      rewrite (bind_Ok _ _ _ _ _ F3').
      rewrite (bind_lift_Val _ "/" _ _ eq_refl).
      now apply term_loop_stop. }
    rewrite (bind_Ok _ _ _ _ _ T).
    now apply expression_loop_stop.
Qed.

Lemma is_arith_cases (op : string) :
  is_arith op = true ->
  exists ch tok,
    op = String ch "" /\
    In (ch, tok) [("+"%char, ADD); ("-"%char, SUB); ("*"%char, MUL);
                  ("/"%char, DIV)].
Proof.
  unfold is_arith. cbn [existsb].
  repeat (match goal with
          | |- context [String.eqb op ?k] =>
              destruct (String.eqb_spec op k) as [E|_]
          end;
          [ subst op; intros _; eexists _, _; split; [reflexivity|];
            simpl; repeat (first [left; reflexivity | right]) | ]).
  intros H; discriminate H.
Qed.

Lemma factor_repr (t : obj) :
  is_expression t = true -> forall s, repr t = Val s ->
  forall input p post,
    Py.slice_from p input = s ++ post -> delimited post = true ->
    (exists tok m q, scans input p tok m q) /\
    factor (5 * height t + 1) (scanner_at input p) =
      Ok t (scanner_at input (p + String.length s)).
Proof.
  induction t as [ | ? | ? ? | ? ? | ? | ? ? ? ? ? ? | ? ? ? ? | ? ? ? ?
                 | ? ? ? ? | ? ? | ? ? | ? ? ? ? ?
                 | l IHl op r IHr | number | identifier ];
    try discriminate.
  - intros H s Hrepr. simpl in H.
    apply andb_prop in H. destruct H as (H & Hr).
    apply andb_prop in H. destruct H as (Hop & Hl).
    simpl in Hrepr.
    destruct (repr l) as [sl|]; [|discriminate Hrepr].
    destruct (repr r) as [sr|]; [|discriminate Hrepr].
    simpl in Hrepr. injection Hrepr as <-.
    pose proof (IHl Hl sl eq_refl) as IH1.
    pose proof (IHr Hr sr eq_refl) as IH2.
    destruct (is_arith_cases op Hop) as (ch & tok & -> & Hin).
    intros input p post Hs Hd.
    assert (Hs' : Py.slice_from p input =
                  "(" ++ sl ++ String ch "" ++ sr ++ ")" ++ post).
    { rewrite Hs. simpl. rewrite append_assoc. simpl.
      now rewrite append_assoc. }
    assert (Hdl : forall x, delimited (String ch x) = true).
    { intros x. simpl in Hin.
      destruct Hin as [E | [E | [E | [E | []]]]];
        injection E as <- <-; reflexivity. }
    pose proof (slice_from_app p input "(" _ Hs') as H1.
    pose proof (slice_from_app _ input sl _ H1) as H2.
    pose proof (slice_from_app _ input (String ch "") _ H2) as H3.
    destruct (IH1 input _ _ H1 (Hdl _)) as (L1 & F1).
    destruct (IH2 input _ _ H3 eq_refl) as (L3 & F3).
    split.
    + exists (Some LPAR), "(", (p + 1).
      apply (scans_symbol input p "(" LPAR
               (sl ++ String ch "" ++ sr ++ ")" ++ post));
        [simpl; tauto | exact Hs'].
    + replace (5 * height (Expression_AST l (String ch "") r) + 1)
        with (S (S (S (S (S (Nat.max (5 * height l + 1)
                                     (5 * height r + 1)))))))
        by (cbn [height]; lia).
      rewrite (factor_binary input p sl sr post ch tok l r _ _
                 Hin Hs' Hd L1 F1 L3 F3).
      do 2 f_equal. simpl. rewrite length_app. simpl. rewrite length_app.
      simpl. lia.
  - intros H s Hrepr. simpl in H, Hrepr. injection Hrepr as <-.
    intros input p post Hs Hd.
    destruct (delimited_scans input _ post (slice_from_app p input _ _ Hs) Hd)
      as (L & _ & Hdig).
    pose proof (scans_number input p number post Hs H Hdig) as Hsc.
    split; [eauto | now apply factor_number].
  - intros H s Hrepr. simpl in H, Hrepr. injection Hrepr as <-.
    intros input p post Hs Hd.
    destruct (delimited_scans input _ post (slice_from_app p input _ _ Hs) Hd)
      as (L & Hlow & _).
    pose proof (scans_name input p identifier post Hs H Hlow) as Hsc.
    split; [eauto | now apply factor_name].
Qed.

(** X13.  The text of an expression parses back to it.  [repr] writes an
    expression of the data model with every operation in parentheses.
    On that text the scanner is built without error, and
    [expression], whatever depth of recursion it is allowed, either runs
    out of that depth or returns the very tree the text was written
    from, with no token left: it reports no error on such a text and
    builds no other tree.  The depth it needs grows with the nesting: for
    a tree of height [h] a bound of [5 * h + 3] on the embedding's
    recursion is enough.  (The Python procedures take stack frames in the
    same proportion, so under the interpreter's own limit a text nested
    deep enough ends in [RecursionError]; running out of depth is how
    the embedding shows that.) *)
Theorem repr_parses_back (t : obj) (s : string) :
  is_expression t = true -> repr t = Val s ->
  exists sc sc',
    Scanner_init s = Ok tt sc /\
    lookahead sc' = None /\
    (forall fuel,
       5 * height t + 3 <= fuel -> expression fuel sc = Ok t sc') /\
    (forall fuel,
       expression fuel sc = OutOfFuel \/ expression fuel sc = Ok t sc').
Proof.
  intros Ht Hrepr.
  destruct (factor_repr t Ht s Hrepr s 0 "") as ((tok & m & q & Hsc) & F);
    [now rewrite slice_from_O, append_nil_r | reflexivity |].
  simpl plus in F.
  pose proof (scans_end s (String.length s) (slice_from_length s)) as Hend.
  assert (Hi : Scanner_init s = Ok tt (scanner_at s 0)).
  { unfold Scanner_init, bind.
    rewrite (Hsc (None, "")), (scanner_at_scans _ _ _ _ _ Hsc). reflexivity. }
  assert (Hla : lookahead (scanner_at s (String.length s)) = None)
    by exact (lookahead_at _ _ _ _ _ Hend).
  exists (scanner_at s 0), (scanner_at s (String.length s)).
  split; [exact Hi|]. split; [exact Hla|].
  rewrite Nat.add_1_r in F.
  assert (E : expression (S (S (S (5 * height t)))) (scanner_at s 0) =
              Ok t (scanner_at s (String.length s))).
  { rewrite expression_S.
    assert (T : term (S (S (5 * height t))) (scanner_at s 0) =
                Ok t (scanner_at s (String.length s))).
    { rewrite term_S, (bind_Ok _ _ _ _ _ F).
      apply term_loop_stop. now rewrite Hla. }
    rewrite (bind_Ok _ _ _ _ _ T).
    apply expression_loop_stop. now rewrite Hla. }
  assert (Hbig : forall fuel,
             5 * height t + 3 <= fuel ->
             expression fuel (scanner_at s 0) =
             Ok t (scanner_at s (String.length s))).
  { intros fuel Hle.
    refine (refines_Ok _ _ _ _ (expression_fuel _ fuel _ _) E). lia. }
  split; [exact Hbig|].
  intros fuel.
  destruct (expression_fuel fuel (Nat.max fuel (5 * height t + 3))
              (scanner_at s 0) (Nat.le_max_l _ _)) as [H | H];
    [now left | right].
  rewrite H. apply Hbig. apply Nat.le_max_r.
Qed.

Lemma repr_parses_back_witness :
  exists sc sc',
    Scanner_init "((a*12)-b)" = Ok tt sc /\
    lookahead sc' = None /\
    (forall fuel,
       5 * height
             (Expression_AST
                (Expression_AST (Identifier_AST "a") "*" (Number_AST "12"))
                "-" (Identifier_AST "b")) + 3 <= fuel ->
       expression fuel sc =
       Ok (Expression_AST
             (Expression_AST (Identifier_AST "a") "*" (Number_AST "12"))
             "-" (Identifier_AST "b")) sc') /\
    (forall fuel,
       expression fuel sc = OutOfFuel \/
       expression fuel sc =
       Ok (Expression_AST
             (Expression_AST (Identifier_AST "a") "*" (Number_AST "12"))
             "-" (Identifier_AST "b")) sc').
Proof.
  apply (repr_parses_back
           (Expression_AST
              (Expression_AST (Identifier_AST "a") "*" (Number_AST "12"))
              "-" (Identifier_AST "b")) "((a*12)-b)");
    reflexivity.
Defined.

End ParsingBack.

(** ** The scanner drops white space only *)

Section NothingLost.

Lemma strip_space_app (a b : string) :
  strip_space (a ++ b) = strip_space a ++ strip_space b.
Proof.
  induction a as [|c a IH]; simpl; [reflexivity|].
  destruct (Py.isspace c); simpl; now rewrite IH.
Qed.

Lemma strip_space_all_space (ws : string) :
  all_space ws = true -> strip_space ws = "".
Proof.
  induction ws as [|c ws IH]; simpl; [reflexivity|].
  intros H. apply andb_prop in H. destruct H as (Hc & Hws).
  rewrite Hc. now apply IH.
Qed.

Lemma strip_space_in_range (lo hi : ascii) (m : string) :
  (forall c, in_range lo hi c = true -> Py.isspace c = false) ->
  all_in_range lo hi m = true -> strip_space m = m.
Proof.
  intros Hr. induction m as [|c m IH]; simpl; [reflexivity|].
  intros H. apply andb_prop in H. destruct H as (Hc & Hm).
  rewrite (Hr c Hc). f_equal. now apply IH.
Qed.

Lemma digit_not_space (c : ascii) :
  in_range "0" "9" c = true -> Py.isspace c = false.
Proof.
  destruct c as [[] [] [] [] [] [] [] []]; intros H;
    first [reflexivity | discriminate H].
Qed.

Lemma literal_no_space (t : Token) (k : string) :
  In (t, Lit k) token_regexp -> strip_space k = k.
Proof.
  intros Hin. vm_compute in Hin.
  repeat (destruct Hin as [Hin | Hin];
          [first [discriminate Hin | injection Hin as <- <-; reflexivity]|]).
  destruct Hin.
Qed.

(** No token text holds white space. *)
Lemma token_text_no_space (sc : Scanner) (t : Token) (m : string)
    (sc' : Scanner) :
  get_token sc = Ok (Some t, m) sc' -> strip_space m = m.
Proof.
  intros Hg. destruct (token_kinds t) as [(k & Hk & _) | [-> | ->]].
  - rewrite (token_text_literal _ _ _ _ _ Hg Hk).
    exact (literal_no_space _ _ Hk).
  - assert (Hn : In (NUM, Plus "0" "9") token_regexp)
      by (unfold token_regexp; simpl;
          repeat (first [left; reflexivity | right])).
    destruct (token_text_plus _ _ _ _ _ _ Hg Hn) as (_ & Hd).
    exact (strip_space_in_range _ _ _ digit_not_space Hd).
  - assert (Hn : In (ID, Plus "a" "z") token_regexp)
      by (unfold token_regexp; simpl;
          repeat (first [left; reflexivity | right])).
    destruct (token_text_plus _ _ _ _ _ _ Hg Hn) as (_ & Hd).
    exact (strip_space_in_range _ _ _ lower_not_space Hd).
Qed.

(** One scan: the white space skipped, then the text of the token. *)
Lemma get_token_strip (sc : Scanner) (tok : option Token) (m : string)
    (sc' : Scanner) :
  get_token sc = Ok (tok, m) sc' ->
  input_string sc' = input_string sc /\
  strip_space (Py.slice_from (current_char_index sc) (input_string sc)) =
  m ++ strip_space (Py.slice_from (current_char_index sc') (input_string sc)).
Proof.
  intros Hg.
  destruct (get_token_slice _ _ _ _ Hg) as (_ & Htext).
  pose proof (get_token_selects _ _ _ Hg) as (_ & Hsc').
  split; [now rewrite Hsc'|].
  destruct (skip_loop_split
              (Py.slice_from (current_char_index sc) (input_string sc))
              (current_char_index sc)) as (ws & Hr & Hall & Hlen & _).
  assert (Hcur : text_at_cursor sc =
                 Py.slice_from
                   (skip_loop
                      (Py.slice_from (current_char_index sc) (input_string sc))
                      (current_char_index sc) - current_char_index sc)
                   (Py.slice_from (current_char_index sc) (input_string sc))).
  { unfold text_at_cursor, skip_white_space. cbn [current_char_index].
    rewrite slice_from_add. f_equal.
    pose proof (skip_loop_bounds
                  (Py.slice_from (current_char_index sc) (input_string sc))
                  (current_char_index sc)). lia. }
  rewrite <- Hcur in Hr. rewrite Hr, strip_space_app.
  rewrite (strip_space_all_space _ Hall). cbn [append].
  rewrite Htext, strip_space_app. f_equal.
  destruct tok as [t|].
  - exact (token_text_no_space _ _ _ _ Hg).
  - destruct (get_token_None _ _ _ _ Hg) as (Hnone & _).
    now rewrite (proj1 Hnone eq_refl).
Qed.

Lemma tokens_from_texts (fuel : nat) :
  forall sc0 tok sc1 l,
    get_token sc0 = Ok tok sc1 ->
    tokens_from fuel
      (mkScanner (input_string sc1) (current_char_index sc1) tok) = Some l ->
    token_texts l =
    strip_space (Py.slice_from (current_char_index sc0) (input_string sc0)).
Proof.
  induction fuel as [|fuel IH]; intros sc0 [tok m] sc1 l Hg Hl;
    [discriminate Hl|].
  destruct (get_token_strip _ _ _ _ Hg) as (Hin & Hstrip).
  rewrite Hstrip. destruct tok as [t|].
  - apply tokens_from_cons with (t := t) (m := m) in Hl; [|reflexivity].
    destruct Hl as (tok' & sc2 & l' & Hg' & Hl' & ->).
    cbn [token_texts]. f_equal.
    rewrite (IH _ _ _ _ Hg' Hl'). cbn [current_char_index input_string].
    now rewrite Hin.
  - apply tokens_from_nil with (m := m) in Hl; [|reflexivity]. subst l.
    destruct (get_token_None _ _ _ _ Hg) as (Hnone & Hend).
    rewrite (proj1 Hnone eq_refl). cbn [token_texts append].
    destruct (get_token_slice _ _ _ _ Hg) as (Hidx & _).
    specialize (Hend eq_refl).
    assert (E : Py.slice_from (current_char_index sc1) (input_string sc0) = "").
    { apply string_length_0. rewrite length_slice_from. lia. }
    now rewrite E.
Qed.

(** X14.  The scanner drops white space and nothing else: the texts of
    the tokens of an input, one after the other, are the input without
    its white-space characters. *)
Theorem tokens_are_the_input (text : string) (l : list (Token * string)) :
  tokens text = Some l -> token_texts l = strip_space text.
Proof.
  unfold tokens, Scanner_init, bind.
  destruct (get_token (mkScanner text 0 (None, ""))) as [tok sc1| |] eqn:Hg;
    [ | intros H; discriminate H | intros H; discriminate H ].
  intros Hl. rewrite (tokens_from_texts _ _ _ _ _ Hg Hl).
  cbn [current_char_index input_string]. now rewrite slice_from_O.
Qed.

Lemma tokens_are_the_input_witness :
  token_texts [(ID, "x"); (BEC, ":="); (NUM, "12"); (SEM, ";")] =
  strip_space ("x  := 12 ;" ++ Py.nl).
Proof.
  apply (tokens_are_the_input ("x  := 12 ;" ++ Py.nl)).
  vm_compute. reflexivity.
Defined.

End NothingLost.

(** ** The tree holds the tokens *)

Section Frontier.

Lemma stream_consume (expected_tokens : list Token) (sc : Scanner)
    (l : list (Token * string)) :
  stream sc l ->
  wp True (consume expected_tokens) sc
    (fun v sc' =>
       exists t m l',
         In t expected_tokens /\ l = (t, m) :: l' /\ v = seen (t, m) /\
         stream sc' l').
Proof.
  intros (fuel & Hl). unfold wp. rewrite consume_unfold.
  destruct (token_in (lookahead sc) expected_tokens) eqn:Hin.
  - apply token_in_Some in Hin. destruct Hin as (t & Hla & Hin).
    destruct fuel as [|fuel]; [discriminate Hl|].
    destruct (current_token sc) as [tok m] eqn:E.
    unfold lookahead in Hla |- *. rewrite E in Hla |- *.
    cbn [fst snd] in Hla |- *. subst tok.
    apply tokens_from_cons with (t := t) (m := m) in Hl; [|exact E].
    destruct Hl as (tok' & sc1 & l' & Hg & Hl' & ->).
    rewrite Hg. cbn [holds]. exists t, m, l'.
    split; [exact Hin|]. split; [reflexivity|].
    split; [destruct t; reflexivity|]. exists fuel. exact Hl'.
  - unfold call_unexpected_token.
    destruct expected_tokens as [|e [|]]; exact I.
Qed.

Lemma stream_end (sc : Scanner) (l : list (Token * string)) :
  stream sc l -> lookahead sc = None -> l = [].
Proof.
  intros (fuel & Hl) Hla. destruct fuel as [|fuel]; [discriminate Hl|].
  destruct (current_token sc) as [tok m] eqn:E.
  unfold lookahead in Hla. rewrite E in Hla. cbn [fst] in Hla. subst tok.
  exact (tokens_from_nil _ _ _ _ E Hl).
Qed.

Lemma wp_refused {A} (expected_tokens : list Token) (k : consumed -> M A)
    (Q : A -> Scanner -> Prop) (sc : Scanner) :
  token_in (lookahead sc) expected_tokens = false ->
  wp True (bind (consume expected_tokens) k) sc Q.
Proof.
  intros Hin. unfold wp, bind. rewrite consume_unfold, Hin.
  unfold call_unexpected_token.
  destruct expected_tokens as [|e [|]]; exact I.
Qed.

Lemma pending_cons (t : Token) (m : string) (l : list (Token * string)) :
  pending ((t, m) :: l) =
  if Token_eqb t LPAR || Token_eqb t RPAR then pending l
  else seen (t, m) :: pending l.
Proof.
  unfold pending. simpl.
  destruct (Token_eqb t LPAR || Token_eqb t RPAR); reflexivity.
Qed.

(** One call of [consume] on the stream [l]. *)
Tactic Notation "consume_step" hyp(Hs) "as" ident(sc1) ident(m) ident(l1)
    ident(Hs1) :=
  eapply wp_bind; [ apply stream_consume; exact Hs | ];
  let c := fresh "c" in
  let t := fresh "t" in
  let Hin := fresh "Hin" in
  intros c sc1 (t & m & l1 & Hin & -> & -> & Hs1);
  simpl in Hin;
  repeat match type of Hin with
         | _ \/ _ => destruct Hin as [<- | Hin]
         | False => destruct Hin
         end;
  rewrite ?pending_cons; cbn [Token_eqb orb seen fst snd].

Lemma identifier_covers (sc : Scanner) (l : list (Token * string)) :
  stream sc l -> wp True identifier sc (covers [] l).
Proof.
  intros Hs. unfold identifier.
  consume_step Hs as sc1 m l1 Hs1.
  apply wp_ret. exists l1. split; [exact Hs1|].
  rewrite pending_cons. reflexivity.
Qed.

(** The operators of a level, consumed and looked up in [operator]. *)
Ltac operator_step :=
  unfold wp;
  match goal with
  | |- holds _ (bind (lift (operator (Tok (Some ?t)))) _ _) _ =>
      let sym := eval cbv in (operator (Tok (Some t))) in
      match sym with
      | Val ?s => rewrite (bind_lift_Val _ s _ _ eq_refl)
      end
  end;
  to_wp.

Lemma expression_covers (n : nat) :
  (forall sc l, stream sc l -> wp True (expression n) sc (covers [] l)) /\
  (forall r sc l, stream sc l ->
     wp True (expression_loop n r) sc (covers (frontier r) l)) /\
  (forall sc l, stream sc l -> wp True (term n) sc (covers [] l)) /\
  (forall r sc l, stream sc l ->
     wp True (term_loop n r) sc (covers (frontier r) l)) /\
  (forall sc l, stream sc l -> wp True (factor n) sc (covers [] l)).
Proof.
  induction n as [|n (IHe & IHel & IHt & IHtl & IHf)].
  - repeat split; intros; exact I.
  - repeat split.
    + intros sc l Hs. rewrite expression_S.
      eapply wp_bind; [apply (IHt sc l Hs)|].
      intros r sc1 (l1 & Hs1 & E1).
      eapply wp_conseq; [apply (IHel r sc1 l1 Hs1)|].
      intros v sc' (l' & Hs' & E'). exists l'. split; [exact Hs'|].
      now rewrite E1.
    + intros r sc l Hs. by_lookahead expression_loop_S.
      * consume_step Hs as sc1 m l1 Hs1;
          (eapply wp_bind; [apply (IHt _ _ Hs1)|];
           intros tree sc2 (l2 & Hs2 & E2);
           operator_step;
           eapply wp_conseq; [apply (IHel _ sc2 l2 Hs2)|];
           intros v sc' (l' & Hs' & E'); exists l'; split; [exact Hs'|];
           rewrite <- E'; rewrite pending_cons; simpl in E2 |- *;
           rewrite E2, <- !app_assoc; reflexivity).
      * apply wp_ret. exists l. split; [exact Hs | reflexivity].
    + intros sc l Hs. rewrite term_S.
      eapply wp_bind; [apply (IHf sc l Hs)|].
      intros r sc1 (l1 & Hs1 & E1).
      eapply wp_conseq; [apply (IHtl r sc1 l1 Hs1)|].
      intros v sc' (l' & Hs' & E'). exists l'. split; [exact Hs'|].
      now rewrite E1.
    + intros r sc l Hs. by_lookahead term_loop_S.
      * consume_step Hs as sc1 m l1 Hs1;
          (eapply wp_bind; [apply (IHf _ _ Hs1)|];
           intros tree sc2 (l2 & Hs2 & E2);
           operator_step;
           eapply wp_conseq; [apply (IHtl _ sc2 l2 Hs2)|];
           intros v sc' (l' & Hs' & E'); exists l'; split; [exact Hs'|];
           rewrite <- E'; rewrite pending_cons; simpl in E2 |- *;
           rewrite E2, <- !app_assoc; reflexivity).
      * apply wp_ret. exists l. split; [exact Hs | reflexivity].
    + intros sc l Hs. by_lookahead factor_S.
      * consume_step Hs as sc1 m l1 Hs1.
        eapply wp_bind; [apply (IHe _ _ Hs1)|].
        intros result sc2 (l2 & Hs2 & E2).
        consume_step Hs2 as sc3 m' l3 Hs3.
        apply wp_ret. exists l3. split; [exact Hs3|].
        rewrite pending_cons. cbn [Token_eqb orb]. simpl.
        rewrite pending_cons in E2. exact E2.
      * consume_step Hs as sc1 m l1 Hs1.
        apply wp_ret. exists l1. split; [exact Hs1|].
        rewrite pending_cons. reflexivity.
      * now apply identifier_covers.
      * apply wp_refused, token_in_false. repeat constructor; assumption.
Qed.

Lemma comparison_covers (n : nat) (sc : Scanner) (l : list (Token * string)) :
  stream sc l -> wp True (comparison n) sc (covers [] l).
Proof.
  intros Hs. destruct (expression_covers n) as (He & _). unfold comparison.
  eapply wp_bind; [apply (He sc l Hs)|].
  intros left_ sc1 (l1 & Hs1 & E1).
  consume_step Hs1 as sc2 m l2 Hs2;
    (eapply wp_bind; [apply (He _ _ Hs2)|];
     intros right_ sc3 (l3 & Hs3 & E3);
     operator_step;
     apply wp_ret; exists l3; split; [exact Hs3|];
     rewrite E1, pending_cons; simpl in E3 |- *;
     rewrite E3, <- !app_assoc; reflexivity).
Qed.

Lemma assignment_covers (n : nat) (sc : Scanner) (l : list (Token * string)) :
  stream sc l -> wp True (assignment n) sc (covers [] l).
Proof.
  intros Hs. destruct (expression_covers n) as (He & _). unfold assignment.
  eapply wp_bind; [apply (identifier_covers sc l Hs)|].
  intros ident sc1 (l1 & Hs1 & E1).
  consume_step Hs1 as sc2 m l2 Hs2.
  eapply wp_bind; [apply (He _ _ Hs2)|].
  intros expr sc3 (l3 & Hs3 & E3).
  apply wp_ret. exists l3. split; [exact Hs3|].
  rewrite E1, pending_cons. simpl in E3 |- *.
  rewrite E3, <- !app_assoc. reflexivity.
Qed.

Lemma read_covers (sc : Scanner) (l : list (Token * string)) :
  stream sc l -> wp True read sc (covers [] l).
Proof.
  intros Hs. unfold read.
  consume_step Hs as sc1 m l1 Hs1.
  eapply wp_bind; [apply (identifier_covers _ _ Hs1)|].
  intros ident sc2 (l2 & Hs2 & E2).
  apply wp_ret. exists l2. split; [exact Hs2|].
  rewrite pending_cons. simpl in E2 |- *. now rewrite E2.
Qed.

Lemma write_covers (n : nat) (sc : Scanner) (l : list (Token * string)) :
  stream sc l -> wp True (write n) sc (covers [] l).
Proof.
  intros Hs. destruct (expression_covers n) as (He & _). unfold write.
  consume_step Hs as sc1 m l1 Hs1.
  eapply wp_bind; [apply (He _ _ Hs1)|].
  intros expr sc2 (l2 & Hs2 & E2).
  apply wp_ret. exists l2. split; [exact Hs2|].
  rewrite pending_cons. simpl in E2 |- *. now rewrite E2.
Qed.

Lemma covers_covers_if (ok : obj -> bool) (pre : list consumed)
    (l : list (Token * string)) (v : obj) (sc : Scanner) :
  covers pre l v sc -> covers_if ok pre l v sc.
Proof. intros (l' & Hs & E). exists l'. split; [exact Hs | intros _; exact E]. Qed.

Lemma frontier_snoc (r : list obj) (st : obj) :
  r <> [] ->
  frontier (Statements_AST (r ++ [st])) =
  (frontier (Statements_AST r) ++ Tok (Some SEM) :: frontier st)%list.
Proof.
  destruct r as [|st0 r]; [intros H; now elim H|]. intros _.
  cbn [frontier app]. rewrite <- app_assoc. f_equal.
  induction r as [|st1 r IH]; cbn [app].
  - now rewrite app_nil_r.
  - rewrite IH, <- app_assoc. reflexivity.
Qed.

Lemma statements_covers (n : nat) :
  (forall sc l, stream sc l ->
     wp True (statements n) sc (covers_if (is_statements true) [] l)) /\
  (forall r sc l l1,
     r <> [] -> stream sc l1 ->
     (forallb (is_statement true) r = true ->
      pending l = (frontier (Statements_AST r) ++ pending l1)%list) ->
     wp True (statements_loop n r) sc (covers_if (is_statements true) [] l)) /\
  (forall sc l, stream sc l ->
     wp True (statement n) sc (covers_if (is_statement true) [] l)) /\
  (forall sc l, stream sc l ->
     wp True (if_statement n) sc (covers_if (is_statement true) [] l)) /\
  (forall sc l, stream sc l ->
     wp True (while_statement n) sc (covers_if (is_statement true) [] l)).
Proof.
  induction n as [|n (IHs & IHsl & IHst & IHif & IHwh)].
  - repeat split; intros; exact I.
  - repeat split.
    + intros sc l Hs. rewrite statements_S.
      eapply wp_bind; [apply (IHst sc l Hs)|].
      intros st sc1 (l1 & Hs1 & E1).
      apply (IHsl [st] sc1 l l1); [discriminate | exact Hs1 |].
      intros G. cbn [forallb] in G. rewrite andb_true_r in G.
      cbn [frontier]. rewrite app_nil_r. exact (E1 G).
    + intros r sc l l1 Hne Hs1 E1. by_lookahead statements_loop_S.
      * consume_step Hs1 as sc2 m l2 Hs2.
        eapply wp_bind; [apply (IHst _ _ Hs2)|].
        intros st sc3 (l3 & Hs3 & E3).
        apply (IHsl (r ++ [st])%list sc3 l l3);
          [destruct r; discriminate | exact Hs3 |].
        rewrite forallb_app. cbn [forallb]. rewrite andb_true_r.
        intros G. apply andb_prop in G. destruct G as (Gr & Gst).
        rewrite (E1 Gr), pending_cons, (frontier_snoc r st Hne).
        simpl. specialize (E3 Gst). simpl in E3.
        rewrite E3, <- !app_assoc. reflexivity.
      * apply wp_ret. exists l1. split; [exact Hs1|].
        intros G. cbn [is_statements] in G.
        apply andb_prop in G. destruct G as (_ & G). exact (E1 G).
    + intros sc l Hs. by_lookahead statement_S.
      * now apply IHif.
      * now apply IHwh.
      * eapply wp_conseq; [apply (assignment_covers n sc l Hs)|].
        intros v sc'. apply covers_covers_if.
      * eapply wp_conseq; [apply (read_covers sc l Hs)|].
        intros v sc'. apply covers_covers_if.
      * eapply wp_conseq; [apply (write_covers n sc l Hs)|].
        intros v sc'. apply covers_covers_if.
      * apply wp_refused, token_in_false. repeat constructor; assumption.
    + intros sc l Hs. rewrite if_statement_S.
      consume_step Hs as sc1 m1 l1 Hs1.
      eapply wp_bind; [apply (comparison_covers n _ _ Hs1)|].
      intros condition sc2 (l2 & Hs2 & E2).
      consume_step Hs2 as sc3 m3 l3 Hs3.
      eapply wp_bind; [apply (IHs _ _ Hs3)|].
      intros then_ sc4 (l4 & Hs4 & E4).
      unfold wp.
      destruct (is_token (lookahead sc4) ELSE);
        [|destruct (is_token (lookahead sc4) END)]; to_wp.
      * consume_step Hs4 as sc5 m5 l5 Hs5.
        eapply wp_bind; [apply (IHs _ _ Hs5)|].
        intros again sc6 (l6 & Hs6 & E6).
        consume_step Hs6 as sc7 m7 l7 Hs7.
        apply wp_ret. exists l7. split; [exact Hs7|].
        intros G. cbn [is_statement] in G.
        apply andb_prop in G. destruct G as (G & Ga).
        apply andb_prop in G. destruct G as (_ & Gt).
        specialize (E4 Gt). specialize (E6 Ga).
        rewrite !pending_cons in *. simpl in E2, E4, E6 |- *.
        rewrite E2, E4, E6.
        repeat (simpl; rewrite <- ?app_assoc). reflexivity.
      * consume_step Hs4 as sc5 m5 l5 Hs5.
        apply wp_ret. exists l5. split; [exact Hs5|].
        intros G. cbn [is_statement] in G.
        apply andb_prop in G. destruct G as (_ & Gt).
        specialize (E4 Gt).
        rewrite !pending_cons in *. simpl in E2, E4 |- *.
        rewrite E2, E4.
        repeat (simpl; rewrite <- ?app_assoc). reflexivity.
      * apply wp_ret. exists l4. split; [exact Hs4|].
        intros G. discriminate G.
    + intros sc l Hs. rewrite while_statement_S.
      consume_step Hs as sc1 m1 l1 Hs1.
      eapply wp_bind; [apply (comparison_covers n _ _ Hs1)|].
      intros condition sc2 (l2 & Hs2 & E2).
      consume_step Hs2 as sc3 m3 l3 Hs3.
      eapply wp_bind; [apply (IHs _ _ Hs3)|].
      intros body sc4 (l4 & Hs4 & E4).
      consume_step Hs4 as sc5 m5 l5 Hs5.
      apply wp_ret. exists l5. split; [exact Hs5|].
      intros G. cbn [is_statement] in G.
      apply andb_prop in G. destruct G as (_ & Gt).
      specialize (E4 Gt).
      rewrite !pending_cons in *. simpl in E2, E4 |- *.
      rewrite E2, E4.
      repeat (simpl; rewrite <- ?app_assoc). reflexivity.
Qed.

Lemma program_covers (n : nat) (sc : Scanner) (l : list (Token * string)) :
  stream sc l -> wp True (program n) sc (covers_if (is_program true) [] l).
Proof.
  intros Hs. destruct (statements_covers n) as (Hsts & _). unfold program.
  eapply wp_bind; [apply (Hsts sc l Hs)|].
  intros sts sc1 (l1 & Hs1 & E1).
  apply wp_ret. exists l1. split; [exact Hs1 | exact E1].
Qed.

(** X15.  The tree that is printed holds the tokens of the input.  When
    the program prints a tree, the frontier of the tree the parser built,
    read from left to right (keywords, separators and operators by
    their tokens, numbers and identifiers with their texts), is the
    sequence of the tokens of the input without the parentheses: no
    other token is dropped, added or moved. *)
Theorem printed_tree_holds_the_tokens (text out : string)
    (l : list (Token * string)) :
  main text = Finished out -> tokens text = Some l ->
  exists sc ast sc',
    Scanner_init text = Ok tt sc /\
    program (fuel_for text) sc = Ok ast sc' /\
    indented ast 0 = Val out /\
    frontier ast = pending l.
Proof.
  unfold main, tokens.
  destruct (Scanner_init text) as [[] sc| |] eqn:Hi;
    [ | intros H; discriminate H | intros H; discriminate H ].
  unfold run_parser.
  pose proof (program_shape (fuel_for text) sc
                (Scanner_init_buffer_ok text sc Hi)) as Hshape.
  destruct (program (fuel_for text) sc) as [ast sc'| |] eqn:Hp;
    [ | intros H; discriminate H | intros H; discriminate H ].
  destruct Hshape as (Hast & _).
  destruct (lookahead sc') as [t|] eqn:Hla; cbn [is_None negb];
    [intros H; discriminate H|].
  destruct (program_indented ast 0 Hast) as [(Hok & o & Ho) | (_ & Ho)];
    rewrite Ho; [|intros H; discriminate H].
  intros H Hl. injection H as <-.
  exists sc, ast, sc'. repeat split; try assumption.
  assert (Hs : stream sc l) by (eexists; exact Hl).
  pose proof (wp_Ok _ _ _ _ _ _ (program_covers (fuel_for text) sc l Hs) Hp)
    as (l' & Hs' & E).
  rewrite (stream_end _ _ Hs' Hla) in E.
  specialize (E Hok). simpl in E. rewrite app_nil_r in E. now symmetry.
Qed.

Lemma printed_tree_holds_the_tokens_witness :
  exists sc ast sc',
    Scanner_init "write (1)" = Ok tt sc /\
    program (fuel_for "write (1)") sc = Ok ast sc' /\
    indented ast 0 =
      Val (indent "Statements" 0 ++ indent "Write" 1 ++ indent "1" 2) /\
    frontier ast =
      pending [(WRITE, "write"); (LPAR, "("); (NUM, "1"); (RPAR, ")")].
Proof.
  apply (printed_tree_holds_the_tokens "write (1)");
    vm_compute; reflexivity.
Defined.

End Frontier.

(** ** The lines of the token dump *)

Section DumpLines.

Lemma scanned_from_S (fuel : nat) (sc : Scanner) :
  scanned_from (S fuel) sc =
  match current_token sc with
  | (None, _) => ([], None)
  | (Some t, m) =>
      match get_token sc with
      | Ok tok sc' =>
          let (l, err) :=
            scanned_from fuel
              (mkScanner (input_string sc') (current_char_index sc') tok) in
          ((t, m) :: l, err)
      | _ => ([(t, m)], Some (text_at_cursor sc))
      end
  end.
Proof. reflexivity. Qed.

(** The dump follows the scans: with no error ahead one line for each
    token, else the lines of the tokens scanned but for the last, and the
    error. *)
Lemma show_tokens_scanned_from (fuel : nat) :
  forall printed sc,
    in_bounds sc -> remaining sc < fuel ->
    match scanned_from fuel sc with
    | (l, None) =>
        tokens_from fuel sc = Some l /\
        show_tokens fuel printed sc = Dumped (printed ++ token_lines l)
    | (l, Some rest) =>
        tokens_from fuel sc = None /\ l <> [] /\
        show_tokens fuel printed sc =
        Stopped (printed ++ token_lines (removelast l) ++
                 "lexical error: no token found at the start of " ++
                 rest ++ Py.nl) (Raised SystemExit)
    end.
Proof.
  induction fuel as [|fuel IH]; intros printed sc Hb Hr; [lia|].
  rewrite scanned_from_S, tokens_from_S.
  destruct (current_token sc) as [[t|] m] eqn:E.
  - pose proof (show_tokens_turn fuel printed sc t m E) as Hturn.
    destruct (get_token sc) as [tok sc'| |] eqn:Hg.
    + rewrite Hturn.
      destruct (get_token_bounds sc _ _ Hb Hg) as (Hb' & Hi' & Hle & Hlt).
      set (next := mkScanner (input_string sc') (current_char_index sc') tok).
      assert (Hbn : in_bounds next) by exact Hb'.
      assert (Hrn : remaining next < fuel).
      { unfold remaining, lookahead in *. rewrite E in Hr.
        unfold in_bounds in *. subst next.
        cbn [input_string current_char_index current_token fst is_None] in *.
        rewrite Hi' in *.
        destruct (fst tok) eqn:Et; cbn [is_None].
        - assert (current_char_index sc < current_char_index sc')
            by (apply Hlt; discriminate). lia.
        - lia. }
      specialize (IH (printed ++ token_line (t, m)) next Hbn Hrn).
      destruct (scanned_from fuel next) as [l [rest|]].
      * destruct IH as (Ht & Hne & Hs). rewrite Ht, Hs.
        split; [reflexivity|]. split; [discriminate|].
        destruct l as [|tm l]; [now elim Hne|].
        cbn [removelast token_lines]. now rewrite !append_assoc.
      * destruct IH as (Ht & Hs). rewrite Ht, Hs.
        split; [reflexivity|]. cbn [token_lines]. now rewrite append_assoc.
    + rewrite Hturn. apply get_token_Abort in Hg. destruct Hg as (-> & ->).
      split; [reflexivity|]. split; [discriminate | reflexivity].
    + now apply get_token_fuel in Hg.
  - rewrite show_tokens_S. unfold lookahead. rewrite E. cbn [fst].
    split; [reflexivity|]. now rewrite append_nil_r.
Qed.

(** Where [get_token] raises the lexical error: before the end of the
    input, at a character that is no white space, where no entry of the
    token table matches. *)
Lemma get_token_Abort_inv (sc : Scanner) (printed : string) (e : exn) :
  get_token sc = Abort printed e ->
  text_at_cursor sc <> "" /\
  starts_with_space (text_at_cursor sc) = false /\
  no_entry_matches (text_at_cursor sc).
Proof.
  rewrite get_token_unfold. cbv zeta.
  pose proof (scan_table_maximal_munch token_regexp (text_at_cursor sc))
    as Hmax.
  destruct (is_None (fst (scan_table token_regexp (text_at_cursor sc)
                            (None, "")))) eqn:Hn;
    [|intros H; discriminate H].
  destruct (Nat.ltb_spec
              (current_char_index (skip_white_space sc))
              (String.length (input_string sc))) as [Hlt|Hge];
    [|intros H; discriminate H].
  intros _. split; [|split].
  - intros E. pose proof (f_equal String.length E) as El.
    unfold text_at_cursor in El. rewrite length_slice_from in El.
    cbn [String.length] in El. lia.
  - destruct (skip_loop_split
                (Py.slice_from (current_char_index sc) (input_string sc))
                (current_char_index sc)) as (ws & _ & _ & _ & Hstop).
    unfold text_at_cursor, skip_white_space. cbn [current_char_index].
    rewrite slice_from_add in Hstop.
    pose proof (skip_loop_bounds
                  (Py.slice_from (current_char_index sc) (input_string sc))
                  (current_char_index sc)) as B.
    replace (current_char_index sc +
             (skip_loop
                (Py.slice_from (current_char_index sc) (input_string sc))
                (current_char_index sc) - current_char_index sc))
      with (skip_loop
              (Py.slice_from (current_char_index sc) (input_string sc))
              (current_char_index sc)) in Hstop by lia.
    exact Hstop.
  - unfold maximal_munch in Hmax.
    destruct (fst (scan_table token_regexp (text_at_cursor sc) (None, "")));
      [discriminate Hn|].
    destruct Hmax as (_ & Hall). intros t r Hin.
    destruct (re_match r (text_at_cursor sc)) as [m'|] eqn:Hm; [|reflexivity].
    destruct (In_nth_error _ _ Hin) as (j & Hj).
    pose proof (Hall _ _ _ _ Hj Hm) as E0.
    pose proof (token_regexp_nonempty _ _ _ _ Hin Hm) as Hpos.
    rewrite E0 in Hpos. simpl in Hpos. lia.
Qed.

(** The white space [get_token] skips adds nothing to the stripped
    text. *)
Lemma text_at_cursor_strip (sc : Scanner) :
  strip_space (Py.slice_from (current_char_index sc) (input_string sc)) =
  strip_space (text_at_cursor sc).
Proof.
  destruct (skip_loop_split
              (Py.slice_from (current_char_index sc) (input_string sc))
              (current_char_index sc)) as (ws & Hr & Hall & _ & _).
  assert (Hcur : text_at_cursor sc =
                 Py.slice_from
                   (skip_loop
                      (Py.slice_from (current_char_index sc) (input_string sc))
                      (current_char_index sc) - current_char_index sc)
                   (Py.slice_from (current_char_index sc) (input_string sc))).
  { unfold text_at_cursor, skip_white_space. cbn [current_char_index].
    rewrite slice_from_add. f_equal.
    pose proof (skip_loop_bounds
                  (Py.slice_from (current_char_index sc) (input_string sc))
                  (current_char_index sc)). lia. }
  rewrite <- Hcur in Hr. rewrite Hr at 1. rewrite strip_space_app.
  now rewrite (strip_space_all_space _ Hall).
Qed.

Lemma slice_from_suffix (n : nat) (s : string) :
  exists pre, s = pre ++ Py.slice_from n s.
Proof.
  revert s. induction n as [|n IH]; intros s.
  - exists "". reflexivity.
  - destruct s as [|c s].
    + exists "". reflexivity.
    + destruct (IH s) as (pre & Hpre). exists (String c pre).
      rewrite slice_from_S. simpl. now f_equal.
Qed.

(** The text at which the error is raised, and the tokens scanned before
    it. *)
Lemma scanned_from_error (fuel : nat) :
  forall sc0 tok sc1 l rest,
    get_token sc0 = Ok tok sc1 ->
    scanned_from fuel
      (mkScanner (input_string sc1) (current_char_index sc1) tok) =
      (l, Some rest) ->
    rest <> "" /\ starts_with_space rest = false /\ no_entry_matches rest /\
    (exists n, rest = Py.slice_from n (input_string sc0)) /\
    strip_space (Py.slice_from (current_char_index sc0) (input_string sc0)) =
    token_texts l ++ strip_space rest.
Proof.
  induction fuel as [|fuel IH]; intros sc0 [tok m] sc1 l rest Hg Hl;
    [discriminate Hl|].
  destruct (get_token_strip _ _ _ _ Hg) as (Hin & Hstrip).
  rewrite scanned_from_S in Hl. cbn [current_token] in Hl.
  destruct tok as [t|]; [|discriminate Hl].
  set (next := mkScanner (input_string sc1) (current_char_index sc1)
                 (Some t, m)) in *.
  destruct (get_token next) as [tok' sc2| |] eqn:Hg'.
  - destruct (scanned_from fuel _) as [l' err] eqn:Hl'.
    injection Hl as <- ->.
    destruct (IH _ _ _ _ _ Hg' Hl') as (H1 & H2 & H3 & (n & H4) & H5).
    split; [exact H1|]. split; [exact H2|]. split; [exact H3|].
    split.
    + exists n. rewrite H4. unfold next. cbn [input_string]. now rewrite Hin.
    + rewrite Hstrip. cbn [token_texts]. rewrite append_assoc. f_equal.
      rewrite <- H5. unfold next. cbn [current_char_index input_string].
      now rewrite Hin.
  - injection Hl as <- <-.
    destruct (get_token_Abort_inv _ _ _ Hg') as (H1 & H2 & H3).
    split; [exact H1|]. split; [exact H2|]. split; [exact H3|].
    split.
    + eexists. unfold text_at_cursor, next. cbn [input_string].
      rewrite Hin. reflexivity.
    + rewrite Hstrip. cbn [token_texts]. rewrite append_nil_r. f_equal.
      rewrite <- (text_at_cursor_strip next). unfold next.
      cbn [current_char_index input_string]. now rewrite Hin.
  - now apply get_token_fuel in Hg'.
Qed.

(** X7.  [scanner.py] prints one line for every token of the input, the
    name of the token and, for a number or an identifier, its text, and
    ends.  When a scan raises the lexical error, it has printed the lines
    of the tokens scanned before, but for the last of them, which was
    still in the buffer; then it prints the error with the rest of the
    input and exits.  That rest is the end of the input from the first
    character, not white space, at which no entry of the token table
    matches, and the tokens scanned are those of the input before it.
    The run ends in no other way: it never reports a syntax error and
    raises no other exception. *)
Theorem token_dump (text : string) :
  match scanned text with
  | (l, None) =>
      tokens text = Some l /\ scanner_main text = Dumped (token_lines l)
  | (l, Some rest) =>
      tokens text = None /\
      scanner_main text =
        Stopped (token_lines (removelast l) ++
                 "lexical error: no token found at the start of " ++
                 rest ++ Py.nl) (Raised SystemExit) /\
      rest <> "" /\ starts_with_space rest = false /\
      no_entry_matches rest /\
      (exists pre, text = pre ++ rest) /\
      strip_space text = token_texts l ++ strip_space rest
  end.
Proof.
  unfold scanned, tokens, scanner_main.
  destruct (Scanner_init text) as [[] sc| |] eqn:Hi.
  - destruct (Scanner_init_bounds text sc Hi) as (Hb & _ & Hr).
    assert (Hlt : remaining sc < S (String.length text)) by lia.
    pose proof (show_tokens_scanned_from _ "" sc Hb Hlt) as H.
    destruct (scanned_from (S (String.length text)) sc) as [l [rest|]] eqn:Hl;
      [|exact H].
    destruct H as (Ht & _ & Hs). split; [exact Ht|]. split; [exact Hs|].
    unfold Scanner_init, bind in Hi.
    destruct (get_token (mkScanner text 0 (None, ""))) as [tok sc1| |] eqn:Hg;
      [ | discriminate Hi | discriminate Hi ].
    apply Ok_inj in Hi. destruct Hi as (_ & <-).
    destruct (scanned_from_error _ _ _ _ _ _ Hg Hl)
      as (H1 & H2 & H3 & (n & H4) & H5).
    cbn [input_string current_char_index] in H4, H5.
    rewrite slice_from_O in H5.
    split; [exact H1|]. split; [exact H2|]. split; [exact H3|].
    split; [|exact H5].
    rewrite H4. apply slice_from_suffix.
  - unfold Scanner_init, bind in Hi.
    destruct (get_token (mkScanner text 0 (None, ""))) as [tok sc1| |] eqn:Hg;
      [discriminate Hi | | discriminate Hi].
    injection Hi as <- <-.
    destruct (get_token_Abort_inv _ _ _ Hg) as (H1 & H2 & H3).
    apply get_token_Abort in Hg. destruct Hg as (-> & ->).
    split; [reflexivity|]. split; [reflexivity|].
    split; [exact H1|]. split; [exact H2|]. split; [exact H3|].
    split.
    + unfold text_at_cursor. cbn [input_string]. apply slice_from_suffix.
    + cbn [token_texts append].
      rewrite <- (text_at_cursor_strip (mkScanner text 0 (None, ""))).
      cbn [current_char_index input_string]. now rewrite slice_from_O.
  - exfalso. unfold Scanner_init, bind in Hi.
    pose proof (get_token_fuel (mkScanner text 0 (None, ""))) as Hg.
    destruct (get_token _); [discriminate Hi | discriminate Hi | now elim Hg].
Qed.

End DumpLines.
